(** * go-xsd: a shallow embedding of the schema compiler and instance validator

    The development follows the layout of the Go package [xsd]:

    - [GoStrings]   the pieces of Go's [strings], [unicode] and [unicode/utf8]
                    packages that the validator calls ([strings.Fields],
                    [strings.Join], [strings.ReplaceAll], [strings.Index],
                    [strings.HasPrefix], [strings.Split],
                    [strings.TrimSpace]);
    - [Dom]         the tree that go-xmldom hands to the validator;
    - [Facets]      facets.go: [NormalizeWhiteSpace], [ParseFacet], and the
                    facet loop of [Schema.parseRestriction];
    - [Wildcards]   wildcards.go: [ParseNamespaceConstraint],
                    [WildcardNamespaceConstraint.Matches], and
                    [Validator.matchesNamespace];
    - [Builtin]     builtin_types.go: the registry and its two lookups;
    - [Components]  schema.go: the component graph;
    - [Compat]      schema.go: substitution groups and the type-derivation walk;
    - [Resolver]    schema.go: [resolveParticlesWithVisited] over an explicit
                    heap of [*ModelGroup] objects;
    - [Instance]    validator.go and identity_constraints.go.

    Go strings are byte sequences; they are modelled by [string] (a list of
    [ascii], i.e. of 8-bit bytes).  Go maps are [gmap]s, Go sets-as-maps
    ([map[QName]bool]) are [gset]s.  Recursion that Go does not bound is
    bounded by a fuel argument, and [None] stands for a call that does not
    return within it.

    The properties follow the embedding, one module per subject:
    [BuiltinFacts], [WildcardFacts], [ValidateFacts], [EnumerationFacts],
    [WhiteSpaceFacts] (over [Utf8Facts] and [RangeFacts]), [CompatFacts],
    [InstanceFacts] and [ResolverFacts]. *)

From Stdlib Require Import Ascii String NArith ZArith Lia List Bool DecimalString.
From stdpp Require Import gmap strings list.

Local Open Scope string_scope.
Local Open Scope list_scope.

(** ** Qualified names *)

(** [type QName struct { Namespace string; Local string }]; compared by value
    with [==], and used as a map key. *)
Record QName := mkQName { Namespace : string; Local : string }.

#[global] Instance QName_eq_dec : EqDecision QName.
Proof. solve_decision. Defined.

#[global] Instance QName_countable : Countable QName.
Proof.
  refine (inj_countable' (fun q => (Namespace q, Local q))
                         (fun p => mkQName p.1 p.2) _).
  by intros [].
Defined.

(** * Go's string library *)

Module GoStrings.

(** A Go string seen as its bytes. *)
Definition bytes (s : string) : list ascii := list_ascii_of_string s.
Definition ofBytes (l : list ascii) : string := string_of_list_ascii l.

Definition byteVal (c : ascii) : N := N_of_ascii c.

(** *** unicode/utf8 *)

Definition RuneError : N := 0xFFFD.
Definition locb : N := 0x80.
Definition hicb : N := 0xBF.

(** The classes of the table [first] of unicode/utf8: [AS] is ASCII, [XX] an
    invalid leading byte, [S1]..[S7] give the size of the sequence and the
    accepted range of its second byte. *)
Inductive firstClass := AS | XX | S1 | S2 | S3 | S4 | S5 | S6 | S7.

Definition first (s0 : N) : firstClass :=
  if (s0 <? 0x80)%N then AS
  else if (s0 <? 0xC2)%N then XX
  else if (s0 <? 0xE0)%N then S1
  else if (s0 =? 0xE0)%N then S2
  else if (s0 <? 0xED)%N then S3
  else if (s0 =? 0xED)%N then S4
  else if (s0 <? 0xF0)%N then S3
  else if (s0 =? 0xF0)%N then S5
  else if (s0 <? 0xF4)%N then S6
  else if (s0 =? 0xF4)%N then S7
  else XX.

(** [x & 7]: the length of the sequence. *)
Definition seqSize (x : firstClass) : nat :=
  match x with
  | AS | XX => 1
  | S1 => 2
  | S2 | S3 | S4 => 3
  | S5 | S6 | S7 => 4
  end.

(** [acceptRanges[x>>4]]: the range of the second byte. *)
Definition acceptRange (x : firstClass) : N * N :=
  match x with
  | S2 => (0xA0, hicb)
  | S4 => (locb, 0x9F)
  | S5 => (0x90, hicb)
  | S7 => (locb, 0x8F)
  | _ => (locb, hicb)
  end%N.

Definition outside (lo hi b : N) : bool := (b <? lo)%N || (hi <? b)%N.

(** [utf8.DecodeRuneInString]: the first rune of [s] and its width in bytes.
    Invalid or truncated encodings give [(RuneError, 1)]; the empty string
    gives [(RuneError, 0)]. *)
Definition DecodeRune (s : list ascii) : N * nat :=
  match s with
  | [] => (RuneError, 0)
  | c0 :: t0 =>
    let s0 := byteVal c0 in
    let x := first s0 in
    match x with
    | AS => (s0, 1)
    | XX => (RuneError, 1)
    | _ =>
      let sz := seqSize x in
      let (lo, hi) := acceptRange x in
      if (List.length s <? sz)%nat then (RuneError, 1) else
      match t0 with
      | [] => (RuneError, 1)
      | c1 :: t1 =>
        let s1 := byteVal c1 in
        if outside lo hi s1 then (RuneError, 1) else
        if (sz <=? 2)%nat then
          (N.lor (N.shiftl (N.land s0 0x1F) 6) (N.land s1 0x3F), 2)
        else
        match t1 with
        | [] => (RuneError, 1)
        | c2 :: t2 =>
          let s2 := byteVal c2 in
          if outside locb hicb s2 then (RuneError, 1) else
          if (sz <=? 3)%nat then
            (N.lor (N.lor (N.shiftl (N.land s0 0x0F) 12)
                          (N.shiftl (N.land s1 0x3F) 6))
                   (N.land s2 0x3F), 3)
          else
          match t2 with
          | [] => (RuneError, 1)
          | c3 :: _ =>
            let s3 := byteVal c3 in
            if outside locb hicb s3 then (RuneError, 1) else
            (N.lor (N.lor (N.lor (N.shiftl (N.land s0 0x07) 18)
                                 (N.shiftl (N.land s1 0x3F) 12))
                          (N.shiftl (N.land s2 0x3F) 6))
                   (N.land s3 0x3F), 4)
          end
        end
      end
    end
  end.

(** The iterations of [for _, r := range s]: each one consumes the bytes of
    one rune.  The fuel is the number of remaining bytes, which bounds the
    number of iterations because every iteration consumes at least one. *)
Fixpoint rangeFrom (fuel : nat) (s : list ascii) : list (list ascii * N) :=
  match fuel with
  | 0 => []
  | S fuel' =>
    match s with
    | [] => []
    | _ :: _ =>
      let (r, w) := DecodeRune s in
      (take w s, r) :: rangeFrom fuel' (drop w s)
    end
  end.

Definition rangeString (s : list ascii) : list (list ascii * N) :=
  rangeFrom (List.length s) s.

(** *** unicode.IsSpace *)

Definition IsSpace (r : N) : bool :=
  if (r <=? 0xFF)%N then
    (r =? 0x09)%N || (r =? 0x0A)%N || (r =? 0x0B)%N || (r =? 0x0C)%N
    || (r =? 0x0D)%N || (r =? 0x20)%N || (r =? 0x85)%N || (r =? 0xA0)%N
  else
    (r =? 0x1680)%N || ((0x2000 <=? r)%N && (r <=? 0x200A)%N)
    || (r =? 0x2028)%N || (r =? 0x2029)%N || (r =? 0x202F)%N
    || (r =? 0x205F)%N || (r =? 0x3000)%N.

(** *** strings.FieldsFunc, strings.Fields *)

(** The body of the loop of [FieldsFunc].  [cur] is the field being read
    ([start >= 0] in the source, with the bytes of [s[start:end]]), or
    [None] between fields ([start < 0]). *)
Fixpoint fieldsLoop (f : N -> bool) (its : list (list ascii * N))
         (cur : option (list ascii)) : list (list ascii) :=
  match its with
  | [] => match cur with Some w => [w] | None => [] end
  | (bs, r) :: its' =>
    if f r then
      match cur with
      | Some w => w :: fieldsLoop f its' None
      | None => fieldsLoop f its' None
      end
    else
      fieldsLoop f its' (Some (match cur with Some w => w ++ bs | None => bs end))
  end.

Definition FieldsFunc (s : list ascii) (f : N -> bool) : list (list ascii) :=
  fieldsLoop f (rangeString s) None.

(** [strings.Fields]: split around runs of white space as defined by
    [unicode.IsSpace] (the ASCII fast path of the source computes the same
    fields). *)
Definition FieldsBytes (s : list ascii) : list (list ascii) :=
  FieldsFunc s IsSpace.

Definition Fields (s : string) : list string :=
  map ofBytes (FieldsBytes (bytes s)).

(** *** strings.Join *)

Fixpoint JoinBytes (elems : list (list ascii)) (sep : list ascii) : list ascii :=
  match elems with
  | [] => []
  | [e] => e
  | e :: rest => e ++ sep ++ JoinBytes rest sep
  end.

Definition Join (elems : list string) (sep : string) : string :=
  ofBytes (JoinBytes (map bytes elems) (bytes sep)).

(** *** strings.ReplaceAll with a one-byte pattern and replacement *)

Definition replaceByte (old new : ascii) (s : list ascii) : list ascii :=
  map (fun c => if Ascii.eqb c old then new else c) s.

Definition ReplaceAll1 (s : string) (old new : ascii) : string :=
  ofBytes (replaceByte old new (bytes s)).

(** *** strings.HasPrefix, strings.Index (one-byte pattern) *)

Definition HasPrefix (s p : string) : bool := String.prefix p s.

(** [strings.Index(s, ":")] for a one-byte pattern: the index of its first
    occurrence, [None] standing for [-1]. *)
Fixpoint IndexByte (s : string) (c : ascii) : option nat :=
  match s with
  | EmptyString => None
  | String a s' =>
    if Ascii.eqb a c then Some 0
    else match IndexByte s' c with
         | Some i => Some (S i)
         | None => None
         end
  end.

(** [s[i:]] *)
Fixpoint sliceFrom (s : string) (i : nat) {struct i} : string :=
  match i, s with
  | 0, _ => s
  | S i', String _ s' => sliceFrom s' i'
  | S _, EmptyString => EmptyString
  end.

(** [s[:i]] *)
Fixpoint sliceTo (s : string) (i : nat) {struct i} : string :=
  match i, s with
  | 0, _ => EmptyString
  | S i', String c s' => String c (sliceTo s' i')
  | S _, EmptyString => EmptyString
  end.

(** [strings.Index]: the index of the first occurrence of [substr], [None]
    standing for [-1]. *)
Fixpoint Index (s substr : string) : option nat :=
  if String.prefix substr s then Some 0
  else match s with
       | EmptyString => None
       | String _ s' =>
         match Index s' substr with
         | Some i => Some (S i)
         | None => None
         end
       end.

Definition Contains (s substr : string) : bool :=
  match Index s substr with Some _ => true | None => false end.

(** [strings.TrimPrefix] *)
Definition TrimPrefix (s p : string) : string :=
  if HasPrefix s p then sliceFrom s (String.length p) else s.

(** *** strings.Split *)

(** [explode]: one string per rune; invalid bytes are sliced one by one. *)
Definition explode (s : string) : list string :=
  map (fun it => ofBytes it.1) (rangeString (bytes s)).

(** The loop of [genSplit] for a separator that is not empty.  Every
    iteration removes at least one byte, so the length of [s] bounds the
    iterations. *)
Fixpoint splitLoop (fuel : nat) (s sep : string) : list string :=
  match fuel with
  | 0 => [s]
  | S fuel' =>
    match Index s sep with
    | Some m => sliceTo s m :: splitLoop fuel' (sliceFrom s (m + String.length sep)) sep
    | None => [s]
    end
  end.

Definition Split (s sep : string) : list string :=
  if String.eqb sep "" then explode s
  else splitLoop (String.length s) s sep.

(** *** strings.TrimSpace *)

(** The table [asciiSpace]. *)
Definition asciiSpace (c : N) : bool :=
  ((c =? 0x09) || (c =? 0x0A) || (c =? 0x0B) || (c =? 0x0C) || (c =? 0x0D)
   || (c =? 0x20))%N.

(** [s[i]] *)
Definition byteAt (s : list ascii) (i : nat) : N := byteVal (nth i s zero).

(** [indexFunc]: the byte index of the first rune with [f r == truth]. *)
Fixpoint indexFuncLoop (f : N -> bool) (truth : bool) (its : list (list ascii * N))
         (i : nat) : option nat :=
  match its with
  | [] => None
  | (bs, r) :: its' =>
    if Bool.eqb (f r) truth then Some i
    else indexFuncLoop f truth its' (i + List.length bs)
  end.

Definition indexFunc (s : list ascii) (f : N -> bool) (truth : bool) : option nat :=
  indexFuncLoop f truth (rangeString s) 0.

(** [utf8.RuneStart] *)
Definition RuneStart (b : N) : bool := negb (N.land b 0xC0 =? 0x80)%N.

(** The loop [for start--; start >= lim; start-- { if RuneStart(s[start])
    { break } }] of [DecodeLastRuneInString], entered after [start--]. *)
Fixpoint backUp (fuel : nat) (s : list ascii) (lim start : Z) : Z :=
  match fuel with
  | 0 => start
  | S fuel' =>
    if (start <? lim)%Z then start
    else if RuneStart (byteAt s (Z.to_nat start)) then start
    else backUp fuel' s lim (start - 1)%Z
  end.

(** [utf8.DecodeLastRuneInString]; [UTFMax] is 4. *)
Definition DecodeLastRune (s : list ascii) : N * nat :=
  match List.length s with
  | 0 => (RuneError, 0)
  | S last =>
    let r := byteAt s last in
    if (r <? 0x80)%N then (r, 1)
    else
      let lim := Z.max 0 (Z.of_nat (S last) - 4) in
      let start := backUp 4 s lim (Z.of_nat last - 1) in
      let start := Z.to_nat (Z.max 0 start) in
      let (r, size) := DecodeRune (drop start s) in
      if (start + size =? S last)%nat then (r, size) else (RuneError, 1)
  end.

(** [lastIndexFunc]: every iteration moves [i] down by at least one. *)
Fixpoint lastIndexFuncLoop (fuel : nat) (s : list ascii) (f : N -> bool)
         (truth : bool) (i : nat) : option nat :=
  match fuel with
  | 0 => None
  | S fuel' =>
    if (i =? 0)%nat then None
    else
      let (r, size) := DecodeLastRune (take i s) in
      let i := i - size in
      if Bool.eqb (f r) truth then Some i
      else lastIndexFuncLoop fuel' s f truth i
  end.

Definition lastIndexFunc (s : list ascii) (f : N -> bool) (truth : bool) : option nat :=
  lastIndexFuncLoop (List.length s) s f truth (List.length s).

(** [strings.TrimLeftFunc], [strings.TrimRightFunc], [strings.TrimFunc] *)
Definition TrimLeftFunc (s : list ascii) (f : N -> bool) : list ascii :=
  match indexFunc s f false with
  | None => []
  | Some i => drop i s
  end.

Definition TrimRightFunc (s : list ascii) (f : N -> bool) : list ascii :=
  match lastIndexFunc s f false with
  | Some i =>
    if (0x80 <=? byteAt s i)%N
    then take (i + (DecodeRune (drop i s)).2) s
    else take (i + 1) s
  | None => []
  end.

Definition TrimFunc (s : list ascii) (f : N -> bool) : list ascii :=
  TrimRightFunc (TrimLeftFunc s f) f.

(** The first loop of [TrimSpace]: [inl] is the result when a byte that is
    not ASCII sends the rest to [TrimFunc], [inr] is [s[start:]]. *)
Fixpoint trimSpaceStart (s : list ascii) : list ascii + list ascii :=
  match s with
  | [] => inr []
  | c :: s' =>
    if (0x80 <=? byteVal c)%N then inl (TrimFunc s IsSpace)
    else if asciiSpace (byteVal c) then trimSpaceStart s'
    else inr s
  end.

(** The second loop, on [t = s[start:]] and with [stop] counted from
    [start]. *)
Fixpoint trimSpaceStop (t : list ascii) (stop : nat) : list ascii :=
  match stop with
  | 0 => []
  | S stop' =>
    let c := byteAt t stop' in
    if (0x80 <=? c)%N then TrimRightFunc (take stop t) IsSpace
    else if asciiSpace c then trimSpaceStop t stop'
    else take stop t
  end.

Definition TrimSpace (s : string) : string :=
  ofBytes (match trimSpaceStart (bytes s) with
           | inl trimmed => trimmed
           | inr t => trimSpaceStop t (List.length t)
           end).

End GoStrings.

(** * The DOM collaborator (go-xmldom)

    The validator reads a namespace-aware tree.  [nodeId] stands for the
    identity of the node object: the Go code stores and compares
    [xmldom.Element] values, which are references. *)

Module Dom.

Record Attr := mkAttr {
  attrNamespaceURI : string;
  attrLocalName : string;
  attrNodeName : string;   (* the qualified name *)
  attrNodeValue : string
}.

Inductive Element :=
| mkElement (nodeId : positive) (NamespaceURI LocalName : string)
            (Attributes : list Attr) (ChildNodes : list ChildNode)
with ChildNode :=
| TextNode (NodeValue : string)
| ElementNode (e : Element).

Definition nodeId (e : Element) : positive :=
  match e with mkElement i _ _ _ _ => i end.
Definition NamespaceURI (e : Element) : string :=
  match e with mkElement _ ns _ _ _ => ns end.
Definition LocalName (e : Element) : string :=
  match e with mkElement _ _ l _ _ => l end.
Definition Attributes (e : Element) : list Attr :=
  match e with mkElement _ _ _ a _ => a end.
Definition ChildNodes (e : Element) : list ChildNode :=
  match e with mkElement _ _ _ _ c => c end.

(** [elem.Children()]: the element children, in document order. *)
Fixpoint elementsOf (ns : list ChildNode) : list Element :=
  match ns with
  | [] => []
  | TextNode _ :: ns' => elementsOf ns'
  | ElementNode e :: ns' => e :: elementsOf ns'
  end.

Definition Children (e : Element) : list Element := elementsOf (ChildNodes e).

(** [elem.GetAttribute(name)]: the value of the attribute with that
    qualified name, or the empty string. *)
Fixpoint lookupAttr (name : string) (attrs : list Attr) : string :=
  match attrs with
  | [] => ""
  | a :: attrs' =>
    if String.eqb (attrNodeName a) name then attrNodeValue a
    else lookupAttr name attrs'
  end.

Definition GetAttribute (e : Element) (name : string) : string :=
  lookupAttr name (Attributes e).

(** A document: [None] stands for a nil [xmldom.Document]; the inner option
    is [doc.DocumentElement()]. *)
Record DocumentObj := mkDocument { DocumentElement : option Element }.
Definition Document := option DocumentObj.

End Dom.

(** * facets.go *)

Module Facets.
Import GoStrings Dom.

Definition XSDNamespace : string := "http://www.w3.org/2001/XMLSchema".

Definition TAB : ascii := "009"%char.
Definition LF : ascii := "010"%char.
Definition CR : ascii := "013"%char.
Definition SP : ascii := " "%char.

(** [NormalizeWhiteSpace(value, "replace")] *)
Definition normalizeReplace (value : string) : string :=
  let result := ReplaceAll1 value TAB SP in
  let result := ReplaceAll1 result LF SP in
  let result := ReplaceAll1 result CR SP in
  result.

(** [NormalizeWhiteSpace]; the recursive call of the "collapse" case is on
    the constant "replace". *)
Definition NormalizeWhiteSpace (value whiteSpace : string) : string :=
  if String.eqb whiteSpace "replace" then normalizeReplace value
  else if String.eqb whiteSpace "collapse" then
    let result := normalizeReplace value in
    Join (Fields result) " "
  else value.

(** The implementations of [FacetValidator]. *)
Inductive FacetValidator :=
| PatternFacet (Pattern : string)
| EnumerationFacet (Values : list string)
| LengthFacet (Value : Z)
| MinLengthFacet (Value : Z)
| MaxLengthFacet (Value : Z)
| MinInclusiveFacet (Value : string)
| MaxInclusiveFacet (Value : string)
| MinExclusiveFacet (Value : string)
| MaxExclusiveFacet (Value : string)
| TotalDigitsFacet (Value : Z)
| FractionDigitsFacet (Value : Z)
| WhiteSpaceFacet (Value : string).

Definition isDigit (c : ascii) : bool :=
  (48 <=? N_of_ascii c)%N && (N_of_ascii c <=? 57)%N.

Fixpoint digitsVal (l : list ascii) (acc : Z) : option Z :=
  match l with
  | [] => Some acc
  | c :: t =>
    if isDigit c then digitsVal t (10 * acc + (Z.of_N (N_of_ascii c) - 48))%Z
    else None
  end.

(** [strconv.Atoi]: an optional sign and decimal digits, in the range of a
    64-bit [int]; [None] is a non-nil error. *)
Definition Atoi (s : string) : option Z :=
  match bytes s with
  | [] => None
  | c :: t =>
    let '(neg, ds) :=
      if Ascii.eqb c "+" then (false, t)
      else if Ascii.eqb c "-" then (true, t)
      else (false, c :: t) in
    match ds with
    | [] => None
    | _ =>
      match digitsVal ds 0 with
      | Some v =>
        let v' := if neg then (- v)%Z else v in
        if ((- 2 ^ 63 <=? v') && (v' <=? 2 ^ 63 - 1))%Z then Some v' else None
      | None => None
      end
    end
  end.

(** [ParseFacet]; [None] is the nil [FacetValidator]. *)
Definition ParseFacet (name value : string) : option FacetValidator :=
  if String.eqb name "pattern" then Some (PatternFacet value)
  else if String.eqb name "enumeration" then Some (EnumerationFacet [value])
  else if String.eqb name "length" then LengthFacet <$> Atoi value
  else if String.eqb name "minLength" then MinLengthFacet <$> Atoi value
  else if String.eqb name "maxLength" then MaxLengthFacet <$> Atoi value
  else if String.eqb name "minInclusive" then Some (MinInclusiveFacet value)
  else if String.eqb name "maxInclusive" then Some (MaxInclusiveFacet value)
  else if String.eqb name "minExclusive" then Some (MinExclusiveFacet value)
  else if String.eqb name "maxExclusive" then Some (MaxExclusiveFacet value)
  else if String.eqb name "totalDigits" then TotalDigitsFacet <$> Atoi value
  else if String.eqb name "fractionDigits" then FractionDigitsFacet <$> Atoi value
  else if String.eqb name "whiteSpace" then Some (WhiteSpaceFacet value)
  else None.

(** The [Base] and [Facets] fields of [Restriction].  ([Content],
    [Attributes] and [AnyAttribute], which serve complexContent
    restrictions, are filled by branches of the loop that leave [Facets]
    alone and are not represented.) *)
Record Restriction := mkRestriction {
  Base : QName;
  rFacets : list FacetValidator
}.

Definition emptyQName : QName := mkQName "" "".

(** The inner loop of [parseRestriction] over [r.Facets]: append [value] to
    the first [*EnumerationFacet]; [None] when there is none ([!found]). *)
Fixpoint appendToFirstEnumeration (facets : list FacetValidator) (value : string)
  : option (list FacetValidator) :=
  match facets with
  | [] => None
  | EnumerationFacet vs :: rest => Some (EnumerationFacet (vs ++ [value]) :: rest)
  | f :: rest => cons f <$> appendToFirstEnumeration rest value
  end.

Section ParseRestriction.
(** [s.parseQName] and [s.TargetNamespace] of the schema being compiled,
    and the name [fmt.Sprintf("_restriction_base_%d", i)]. *)
Variable parseQName : string -> QName.
Variable TargetNamespace : string.
Variable restrictionBaseName : nat -> string.

Definition isContentChild (childName : string) : bool :=
  String.eqb childName "sequence" || String.eqb childName "choice"
  || String.eqb childName "all" || String.eqb childName "group"
  || String.eqb childName "attribute" || String.eqb childName "anyAttribute".

(** One iteration of the loop over [elem.Children()]. *)
Definition restrictionStep (i : nat) (child : Element) (r : Restriction)
  : Restriction :=
  if negb (String.eqb (NamespaceURI child) XSDNamespace) then r
  else
    let childName := LocalName child in
    if String.eqb childName "simpleType" && bool_decide (Base r = emptyQName)
    then mkRestriction (mkQName TargetNamespace (restrictionBaseName i)) (rFacets r)
    else if isContentChild childName then r
    else
      let value := GetAttribute child "value" in
      let facetName := childName in
      match ParseFacet facetName value with
      | Some facet =>
        if String.eqb facetName "enumeration" then
          match appendToFirstEnumeration (rFacets r) value with
          | Some facets' => mkRestriction (Base r) facets'
          | None => mkRestriction (Base r) (rFacets r ++ [facet])
          end
        else mkRestriction (Base r) (rFacets r ++ [facet])
      | None => r
      end.

Fixpoint restrictionLoop (i : nat) (children : list Element) (r : Restriction)
  : Restriction :=
  match children with
  | [] => r
  | child :: rest => restrictionLoop (S i) rest (restrictionStep i child r)
  end.

(** [Schema.parseRestriction] *)
Definition parseRestriction (elem : Element) : Restriction :=
  let r := mkRestriction emptyQName [] in
  let base := GetAttribute elem "base" in
  let r := if negb (String.eqb base "") then mkRestriction (parseQName base) [] else r in
  restrictionLoop 0 (Children elem) r.

End ParseRestriction.

End Facets.

(** * wildcards.go and [Validator.matchesNamespace] *)

Module Wildcards.
Import GoStrings.

(** [Mode] is "##any", "##other", "##targetNamespace", "##local" or "list";
    [Namespaces] is the explicit list (nil unless [Mode] is "list"). *)
Record WildcardNamespaceConstraint := mkConstraint {
  Mode : string;
  Namespaces : list string
}.

(** [ParseNamespaceConstraint] *)
Definition ParseNamespaceConstraint (value : string) : WildcardNamespaceConstraint :=
  let value := if String.eqb value "" then "##any" else value in
  if negb (HasPrefix value "##")
  then mkConstraint "list" (Fields value)
  else mkConstraint value [].

(** [WildcardNamespaceConstraint.Matches]: the two loops of the "list" case
    are [existsb]s. *)
Definition Matches (c : WildcardNamespaceConstraint)
           (namespace targetNamespace : string) : bool :=
  if String.eqb (Mode c) "##any" then true
  else if String.eqb (Mode c) "##other" then negb (String.eqb namespace targetNamespace)
  else if String.eqb (Mode c) "##targetNamespace" then String.eqb namespace targetNamespace
  else if String.eqb (Mode c) "##local" then String.eqb namespace ""
  else if String.eqb (Mode c) "list" then
    if existsb (fun ns => String.eqb ns namespace) (Namespaces c) then true
    else if existsb (fun ns =>
               (String.eqb ns "##targetNamespace" && String.eqb namespace targetNamespace)
               || (String.eqb ns "##local" && String.eqb namespace ""))
             (Namespaces c) then true
    else false
  else false.

(** [MatchesWildcard], on the namespace URI of the element. *)
Definition MatchesWildcard (elemNS namespace targetNamespace : string) : bool :=
  Matches (ParseNamespaceConstraint namespace) elemNS targetNamespace.

(** [Validator.matchesNamespace]; [TargetNamespace] is
    [v.schema.TargetNamespace]. *)
Definition matchesNamespace (TargetNamespace ns pattern : string) : bool :=
  if String.eqb pattern "##any" then true
  else if String.eqb pattern "##other" then negb (String.eqb ns TargetNamespace)
  else if String.eqb pattern "##targetNamespace" then String.eqb ns TargetNamespace
  else if String.eqb pattern "##local" then String.eqb ns ""
  else existsb (fun allowed => String.eqb allowed ns) (Fields pattern).

End Wildcards.

(** * builtin_types.go *)

Module Builtin.
Import GoStrings.

(** The lexical validators, by the name of the Go function. *)
Inductive ValidatorFn :=
| validateString | validateBoolean | validateDecimal | validateFloat
| validateDouble | validateDuration | validateDateTime | validateTime
| validateDate | validateGYearMonth | validateGYear | validateGMonthDay
| validateGDay | validateGMonth | validateHexBinary | validateBase64Binary
| validateAnyURI | validateQName | validateNOTATION
| validateNormalizedString | validateToken | validateLanguage | validateName
| validateNCName | validateID | validateIDREF | validateIDREFS
| validateENTITY | validateENTITIES | validateNMTOKEN | validateNMTOKENS
| validateInteger | validateNonPositiveInteger | validateNegativeInteger
| validateLong | validateInt | validateShort | validateByte
| validateNonNegativeInteger | validateUnsignedLong | validateUnsignedInt
| validateUnsignedShort | validateUnsignedByte | validatePositiveInteger.

Record BuiltinType := mkBuiltinType { Name : string; Validator : ValidatorFn }.

(** The assignments of [registerBuiltinTypes], in order. *)
Definition registrations : list (string * BuiltinType) :=
  let reg n f := (n, mkBuiltinType n f) in
  [ reg "string" validateString; reg "boolean" validateBoolean;
    reg "decimal" validateDecimal; reg "float" validateFloat;
    reg "double" validateDouble; reg "duration" validateDuration;
    reg "dateTime" validateDateTime; reg "time" validateTime;
    reg "date" validateDate; reg "gYearMonth" validateGYearMonth;
    reg "gYear" validateGYear; reg "gMonthDay" validateGMonthDay;
    reg "gDay" validateGDay; reg "gMonth" validateGMonth;
    reg "hexBinary" validateHexBinary; reg "base64Binary" validateBase64Binary;
    reg "anyURI" validateAnyURI; reg "QName" validateQName;
    reg "NOTATION" validateNOTATION;
    reg "normalizedString" validateNormalizedString; reg "token" validateToken;
    reg "language" validateLanguage; reg "Name" validateName;
    reg "NCName" validateNCName; reg "ID" validateID; reg "IDREF" validateIDREF;
    reg "IDREFS" validateIDREFS; reg "ENTITY" validateENTITY;
    reg "ENTITIES" validateENTITIES; reg "NMTOKEN" validateNMTOKEN;
    reg "NMTOKENS" validateNMTOKENS;
    reg "integer" validateInteger;
    reg "nonPositiveInteger" validateNonPositiveInteger;
    reg "negativeInteger" validateNegativeInteger; reg "long" validateLong;
    reg "int" validateInt; reg "short" validateShort; reg "byte" validateByte;
    reg "nonNegativeInteger" validateNonNegativeInteger;
    reg "unsignedLong" validateUnsignedLong; reg "unsignedInt" validateUnsignedInt;
    reg "unsignedShort" validateUnsignedShort; reg "unsignedByte" validateUnsignedByte;
    reg "positiveInteger" validatePositiveInteger ].

(** [var builtinTypes = map[string]*BuiltinType{}] after [init]. *)
Definition builtinTypes : gmap string BuiltinType :=
  fold_left (fun m kv => <[kv.1 := kv.2]> m) registrations ∅.

(** [if idx := strings.Index(name, ":"); idx >= 0 { name = name[idx+1:] }] *)
Definition stripPrefix (name : string) : string :=
  match IndexByte name ":" with
  | Some idx => sliceFrom name (idx + 1)
  | None => name
  end.

(** [GetBuiltinType]; [None] is the nil pointer. *)
Definition GetBuiltinType (name : string) : option BuiltinType :=
  let name := stripPrefix name in
  builtinTypes !! name.

(** [IsBuiltinType] *)
Definition IsBuiltinType (name : string) : bool :=
  bool_decide (is_Some (GetBuiltinType name)).

(** [GetBuiltinTypeValidator]; [None] is the nil function. *)
Definition GetBuiltinTypeValidator (typeName : string) : option ValidatorFn :=
  let typeName := stripPrefix typeName in
  let builtinType := GetBuiltinType typeName in
  match builtinType with
  | Some bt => Some (Validator bt)
  | None => None
  end.

End Builtin.

(** * schema.go: the component graph *)

Module Components.

(** [*ModelGroup] values are references to mutable objects: the resolver
    assigns to their [Particles] field in place, and the same object can be
    reached from several particle lists.  They are modelled by addresses
    into a heap. *)
Abbreviation addr := positive.

Inductive ModelGroupKind := SequenceGroup | ChoiceGroup | AllGroup.

Inductive IdentityConstraintKind := KeyConstraint | KeyRefConstraint | UniqueConstraint.

(** [Selector] and the elements of [Fields] are [*Selector] and [*Field],
    each holding one XPath string; a nil selector is [None]. *)
Record IdentityConstraint := mkIdentityConstraint {
  icName : string;
  icKind : IdentityConstraintKind;
  icSelector : option string;
  icFields : list string;
  icRefer : QName
}.

(** [Extension]: its [Base].  ([Attributes], [Content], [AnyAttribute] are
    not read by the functions below.) *)
Record Extension := mkExtension { extBase : QName }.

Record SimpleContent := mkSimpleContent {
  scBase : QName;
  scExtension : option Extension;
  scRestriction : option Facets.Restriction
}.

Record ComplexContent := mkComplexContent {
  ccMixed : bool;
  ccBase : QName;
  ccExtension : option Extension;
  ccRestriction : option Facets.Restriction
}.

(** The implementations of [Content] a complex type can hold. *)
Inductive Content :=
| SimpleContentC (sc : SimpleContent)
| ComplexContentC (cc : ComplexContent)
| ModelGroupC (mg : addr)
| GroupRefC (Ref : QName) (MinOcc MaxOcc : Z)
| AllowAnyContentC.

(** [List] is its [ItemType], [Union] its [MemberTypes]. *)
Record SimpleType := mkSimpleType {
  stQName : QName;
  stBase : QName;
  stRestriction : option Facets.Restriction;
  stList : option QName;
  stUnion : option (list QName)
}.

(** [ComplexType]; a nil [Content] is [None].  (The attribute fields are
    not read by the functions below.) *)
Record ComplexType := mkComplexType {
  ctQName : QName;
  ctContent : option Content;
  ctMixed : bool;
  ctAbstract : bool
}.

(** The interface [Type]: [*SimpleType] or [*ComplexType]. *)
Inductive XsdType :=
| SimpleTypeT (st : SimpleType)
| ComplexTypeT (ct : ComplexType).

(** [Type.Name()] *)
Definition TypeName (t : XsdType) : QName :=
  match t with
  | SimpleTypeT st => stQName st
  | ComplexTypeT ct => ctQName ct
  end.

(** [ElementDecl]; a nil [Type] is [None]. *)
Record ElementDecl := mkElementDecl {
  edName : QName;
  edType : option XsdType;
  edMinOcc : Z;
  edMaxOcc : Z;
  edNillable : bool;
  edAbstract : bool;
  edSubstitutionGroup : QName;
  edDefault : string;
  edFixed : string;
  edConstraints : list IdentityConstraint
}.

(** The implementations of [Particle]. *)
Inductive Particle :=
| ElementDeclP (decl : ElementDecl)
| ElementRefP (Ref : QName) (MinOcc MaxOcc : Z)
| GroupRefP (Ref : QName) (MinOcc MaxOcc : Z)
| AnyElementP (Namespace ProcessContents : string) (MinOcc MaxOcc : Z)
| ModelGroupP (mg : addr).

Record ModelGroup := mkModelGroup {
  mgKind : ModelGroupKind;
  mgParticles : list Particle;
  mgMinOcc : Z;
  mgMaxOcc : Z
}.

Abbreviation Heap := (gmap addr ModelGroup).

(** [Schema].  [ImportedSchemas] is a map from location to [*Schema]; it is
    only ever iterated, and is kept as the list of its entries.  A schema
    value is a finite tree, so import graphs are acyclic here (the loader
    refuses circular imports). *)
Inductive Schema :=
| mkSchema (TargetNamespace : string)
           (ElementDecls : gmap QName ElementDecl)
           (TypeDefs : gmap QName XsdType)
           (Groups : gmap QName addr)
           (ImportedSchemas : list (string * Schema))
           (SubstitutionGroups : gmap QName (list QName)).

Definition TargetNamespace (s : Schema) : string :=
  match s with mkSchema t _ _ _ _ _ => t end.
Definition ElementDecls (s : Schema) : gmap QName ElementDecl :=
  match s with mkSchema _ e _ _ _ _ => e end.
Definition TypeDefs (s : Schema) : gmap QName XsdType :=
  match s with mkSchema _ _ t _ _ _ => t end.
Definition Groups (s : Schema) : gmap QName addr :=
  match s with mkSchema _ _ _ g _ _ => g end.
Definition ImportedSchemas (s : Schema) : list (string * Schema) :=
  match s with mkSchema _ _ _ _ i _ => i end.
Definition SubstitutionGroups (s : Schema) : gmap QName (list QName) :=
  match s with mkSchema _ _ _ _ _ sg => sg end.

End Components.

(** * schema.go: substitution groups and type compatibility *)

Module Compat.
Import Components.

(** [s.TypeDefs[base]] guarded by [x != nil && x.Base.Local != ""]; a
    missing key gives the nil [Type]. *)
Definition extensionBaseType (TypeDefs : gmap QName XsdType)
           (ext : option Extension) : option XsdType :=
  match ext with
  | Some e => if negb (String.eqb (Local (extBase e)) "") then TypeDefs !! extBase e else None
  | None => None
  end.

Definition restrictionBaseType (TypeDefs : gmap QName XsdType)
           (r : option Facets.Restriction) : option XsdType :=
  match r with
  | Some r => if negb (String.eqb (Local (Facets.Base r)) "") then TypeDefs !! Facets.Base r else None
  | None => None
  end.

(** [Schema.isTypeCompatibleWithCycleDetection].  The recursion of the
    source is bounded here by [fuel]; [None] means the bound was reached.
    [visited] is the map [map[QName]bool]; every recursive call is a tail
    call, so its final value is never read. *)
Fixpoint isTypeCompatibleWithCycleDetection (fuel : nat)
         (TypeDefs : gmap QName XsdType)
         (actualType expectedType : option XsdType)
         (visited : gset QName) : option bool :=
  match fuel with
  | 0 => None
  | S fuel' =>
    match actualType, expectedType with
    | Some actual, Some expected =>
      let actualName := TypeName actual in
      let expectedName := TypeName expected in
      if bool_decide (actualName = expectedName) then Some true
      else if bool_decide (actualName ∈ visited) then Some false
      else
        let visited := {[actualName]} ∪ visited in
        let recur baseType :=
          isTypeCompatibleWithCycleDetection fuel' TypeDefs (Some baseType)
                                             expectedType visited in
        match actual with
        | ComplexTypeT actual =>
          match ctContent actual with
          | Some (ComplexContentC cc) =>
            match extensionBaseType TypeDefs (ccExtension cc) with
            | Some baseType => recur baseType
            | None =>
              match restrictionBaseType TypeDefs (ccRestriction cc) with
              | Some baseType => recur baseType
              | None => Some false
              end
            end
          | Some (SimpleContentC sc) =>
            match extensionBaseType TypeDefs (scExtension sc) with
            | Some baseType => recur baseType
            | None =>
              match restrictionBaseType TypeDefs (scRestriction sc) with
              | Some baseType => recur baseType
              | None => Some false
              end
            end
          | _ => Some false
          end
        | SimpleTypeT actual =>
          match restrictionBaseType TypeDefs (stRestriction actual) with
          | Some baseType => recur baseType
          | None => Some false
          end
        end
    | _, _ => Some false
    end
  end.

(** A recursion depth that the walk never exceeds (see [walk_total]). *)
Definition walkFuel (TypeDefs : gmap QName XsdType) : nat := S (S (size TypeDefs)).

(** [Schema.isTypeCompatible]: the walk from an empty visited map.  The
    [None] branch is dead code of the model ([isTypeCompatible_walk]). *)
Definition isTypeCompatible (s : Schema) (actualType expectedType : option XsdType) : bool :=
  match isTypeCompatibleWithCycleDetection (walkFuel (TypeDefs s)) (TypeDefs s)
                                           actualType expectedType ∅ with
  | Some b => b
  | None => false
  end.

(** The body of the loop of [isSubstitutableFor] once [member ==
    actualElement]. *)
Definition memberVerdict (s : Schema) (actualElement expectedElement : QName) : bool :=
  let actualDecl := ElementDecls s !! actualElement in
  let expectedDecl := ElementDecls s !! expectedElement in
  match actualDecl, expectedDecl with
  | Some actualDecl, Some expectedDecl =>
    let compatible := isTypeCompatible s (edType actualDecl) (edType expectedDecl) in
    if compatible then true
    else bool_decide (is_Some (edType actualDecl)) && bool_decide (is_Some (edType expectedDecl))
  | _, _ => true
  end.

(** [Schema.isSubstitutableFor] *)
Fixpoint isSubstitutableFor (s : Schema) (actualElement expectedElement : QName)
         {struct s} : bool :=
  match s with
  | mkSchema _ _ _ _ imports sg =>
    let inOwnIndex :=
      match sg !! expectedElement with
      | Some members => bool_decide (actualElement ∈ members)
      | None => false
      end in
    if inOwnIndex then memberVerdict s actualElement expectedElement
    else
      existsb (fun imported =>
                 isSubstitutableFor imported.2 actualElement expectedElement)
              imports
  end.

Section Matcher.
(** [len(group.Validate(elem, schema)) == 0] for the group at an address:
    the content-model validation of a whole group, which the functions
    below only call. *)
Variable groupValidates : Schema -> addr -> Dom.Element -> bool.
Variable heap : Heap.

Definition elemQName (elem : Dom.Element) : QName :=
  mkQName (Dom.NamespaceURI elem) (Dom.LocalName elem).

(** The common body of the [*ElementDecl] and [*ElementRef] cases of
    [elementMatchesParticle]: [expected] is [p.Name], resp. [p.Ref]. *)
Definition elementMatchesName (elem : Dom.Element) (expected : QName)
           (schema : Schema) : bool :=
  let elemQName := elemQName elem in
  if bool_decide (elemQName = expected) then true
  else isSubstitutableFor schema elemQName expected.

(** [ModelGroup.elementMatchesParticle]; [fuel] bounds the nesting of
    model groups that is followed. *)
Fixpoint elementMatchesParticle (fuel : nat) (elem : Dom.Element)
         (particle : Particle) (schema : Schema) : option bool :=
  match fuel with
  | 0 => None
  | S fuel' =>
    match particle with
    | ElementDeclP p => Some (elementMatchesName elem (edName p) schema)
    | ElementRefP ref _ _ => Some (elementMatchesName elem ref schema)
    | GroupRefP ref _ _ =>
      match Groups schema !! ref with
      | Some group => Some (groupValidates schema group elem)
      | None => Some false
      end
    | AnyElementP ns _ _ _ =>
      Some (Wildcards.MatchesWildcard (Dom.NamespaceURI elem) ns (TargetNamespace schema))
    | ModelGroupP p =>
      match heap !! p with
      | Some group =>
        (fix checkGroupMatch (gps : list Particle) : option bool :=
           match gps with
           | [] => Some false
           | gp :: gps' =>
             match elementMatchesParticle fuel' elem gp schema with
             | Some true => Some true
             | Some false => checkGroupMatch gps'
             | None => None
             end
           end) (mgParticles group)
      | None => None
      end
    end
  end.
End Matcher.

End Compat.

(** * schema.go: resolution of group references *)

Module Resolver.
Import Components.

(** [pt.Particles = ps]: assignment to one field of the object at [a]. *)
Definition setParticles (a : addr) (ps : list Particle) (heap : Heap) : Heap :=
  alter (fun mg => mkModelGroup (mgKind mg) ps (mgMinOcc mg) (mgMaxOcc mg)) a heap.

(** [&ModelGroup{...}]: a new object, at an address not in use. *)
Definition alloc (mg : ModelGroup) (heap : Heap) : addr * Heap :=
  let a := fresh (dom heap) in (a, <[a := mg]> heap).

(** [Schema.resolveParticlesWithVisited].

    The state that the source mutates is threaded through: [visited] (a
    [map[QName]bool] shared by all the recursive calls) and the heap of
    model-group objects.  [fuel] bounds the depth of the recursion; the
    result is [None] when the bound is reached, and also on a dangling
    address (which the parser never produces).  The inner [loop] is the
    [for _, p := range particles] loop with its accumulator [resolved]. *)
Fixpoint resolveParticlesWithVisited (fuel : nat) (Groups : gmap QName addr)
         (particles : list Particle) (visited : gset QName) (heap : Heap)
  : option (list Particle * gset QName * Heap) :=
  match fuel with
  | 0 => None
  | S fuel' =>
    (fix loop (ps resolved : list Particle) (visited : gset QName) (heap : Heap)
         {struct ps} : option (list Particle * gset QName * Heap) :=
       match ps with
       | [] => Some (resolved, visited, heap)
       | p :: rest =>
         match p with
         | GroupRefP ref minOcc maxOcc =>
           if bool_decide (ref ∈ visited) then
             (* Cycle detected - keep the unresolved reference *)
             loop rest (resolved ++ [p]) visited heap
           else
             let visited := {[ref]} ∪ visited in
             match Groups !! ref with
             | Some g =>
               match heap !! g with
               | Some group =>
                 match resolveParticlesWithVisited fuel' Groups (mgParticles group)
                                                   visited heap with
                 | Some (inner, visited, heap) =>
                   let resolvedGroup :=
                     if ((minOcc =? 0) && (maxOcc =? 0))%Z
                     then mkModelGroup (mgKind group) inner (mgMinOcc group) (mgMaxOcc group)
                     else mkModelGroup (mgKind group) inner minOcc maxOcc in
                   let (a, heap) := alloc resolvedGroup heap in
                   loop rest (resolved ++ [ModelGroupP a]) (visited ∖ {[ref]}) heap
                 | None => None
                 end
               | None => None
               end
             | None =>
               (* Keep unresolved reference *)
               loop rest (resolved ++ [p]) (visited ∖ {[ref]}) heap
             end
         | ModelGroupP pt =>
           match heap !! pt with
           | Some nested =>
             match resolveParticlesWithVisited fuel' Groups (mgParticles nested)
                                               visited heap with
             | Some (inner, visited, heap) =>
               loop rest (resolved ++ [p]) visited (setParticles pt inner heap)
             | None => None
             end
           | None => None
           end
         | _ => loop rest (resolved ++ [p]) visited heap
         end
       end) particles [] visited heap
  end.

(** [Schema.resolveParticles]: a fresh visited map. *)
Definition resolveParticles (fuel : nat) (Groups : gmap QName addr)
           (particles : list Particle) (heap : Heap)
  : option (list Particle * Heap) :=
  match resolveParticlesWithVisited fuel Groups particles ∅ heap with
  | Some (resolved, _, heap) => Some (resolved, heap)
  | None => None
  end.

(** The body of the loop [for _, group := range s.Groups] of
    [resolveReferences]: [group.Particles = s.resolveParticles(group.Particles)]
    for the group object at [g]. *)
Definition resolveGroup (fuel : nat) (Groups : gmap QName addr) (g : addr) (heap : Heap)
  : option Heap :=
  match heap !! g with
  | Some group =>
    match resolveParticles fuel Groups (mgParticles group) heap with
    | Some (resolved, heap) => Some (setParticles g resolved heap)
    | None => None
    end
  | None => None
  end.

(** That loop.  Go leaves the iteration order of [s.Groups] open: [order]
    lists the group objects in the order in which the loop meets them. *)
Fixpoint resolveGroups (fuel : nat) (Groups : gmap QName addr) (order : list addr)
         (heap : Heap) : option Heap :=
  match order with
  | [] => Some heap
  | g :: order' =>
    match resolveGroup fuel Groups g heap with
    | Some heap => resolveGroups fuel Groups order' heap
    | None => None
    end
  end.

End Resolver.

(** * validator.go and identity_constraints.go *)

Module Instance.
Import GoStrings Dom Components.

(** [Violation]; a nil [Element] is [None], a nil [Expected] is [[]]. *)
Record Violation := mkViolation {
  vElement : option Element;
  vAttribute : string;
  Code : string;
  Message : string;
  Expected : list string;
  Actual : string
}.

(** [%d] of [fmt.Sprintf] for a non-negative integer. *)
Definition decimal (n : nat) : string := NilEmpty.string_of_uint (Nat.to_uint n).

(** [%s] of an [IdentityConstraintKind]. *)
Definition kindString (k : IdentityConstraintKind) : string :=
  match k with
  | KeyConstraint => "key"
  | KeyRefConstraint => "keyref"
  | UniqueConstraint => "unique"
  end.

(** ** identity_constraints.go *)

Record IdentityConstraintValidator := mkICV {
  constraints : gmap string IdentityConstraint;
  keyValues : gmap string (gmap string (list Element))
}.

Definition NewIdentityConstraintValidator : IdentityConstraintValidator :=
  mkICV ∅ ∅.

Definition AddConstraint (v : IdentityConstraintValidator) (constraint : IdentityConstraint)
  : IdentityConstraintValidator :=
  mkICV (<[icName constraint := constraint]> (constraints v))
        (<[icName constraint := ∅]> (keyValues v)).

(** [v.keyValues[name][keyValue]], with its [exists] flag as the option. *)
Definition lookupKey (kv : gmap string (gmap string (list Element)))
           (name keyValue : string) : option (list Element) :=
  kv !! name ≫= fun m => m !! keyValue.

(** [v.keyValues[name][keyValue] = nodes] *)
Definition storeKey (kv : gmap string (gmap string (list Element)))
           (name keyValue : string) (nodes : list Element)
  : gmap string (gmap string (list Element)) :=
  <[name := <[keyValue := nodes]> (default ∅ (kv !! name))]> kv.

(** [removeNamespacePrefixes] *)
Definition removeNamespacePrefixes (xpath : string) : string :=
  Join (map (fun part =>
               match Index part ":" with
               | Some idx =>
                 if (0 <? idx)%nat && negb (HasPrefix part "@")
                 then sliceFrom part (idx + 1)
                 else part
               | None => part
               end)
            (Split xpath "/"))
       "/".

(** [findMatchingChildren]; the result is what the call appends to
    [*results]. *)
Fixpoint findMatchingChildren (elem : Element) (steps : list string) : list Element :=
  match steps with
  | [] => [elem]
  | currentStep :: remainingSteps =>
    if String.eqb currentStep "." then findMatchingChildren elem remainingSteps
    else
      concat
        (map (fun child =>
                if String.eqb (LocalName child) currentStep then
                  if (List.length remainingSteps =? 0)%nat then [child]
                  else findMatchingChildren child remainingSteps
                else [])
             (Children elem))
  end.

(** [findMatchingDescendants]: the element itself, then its children's
    descendants. *)
Fixpoint findMatchingDescendants (elem : Element) (name : string) : list Element :=
  match elem with
  | mkElement _ _ l _ nodes =>
    (if String.eqb l name then [elem] else [])
    ++ (fix children (ns : list ChildNode) : list Element :=
          match ns with
          | [] => []
          | TextNode _ :: ns' => children ns'
          | ElementNode child :: ns' =>
            findMatchingDescendants child name ++ children ns'
          end) nodes
  end.

(** [evaluateSimpleXPath].  [strings.Split] returns at least one step. *)
Definition evaluateSimpleXPath (root : Element) (xpath : string) : list Element :=
  let xpath := TrimSpace xpath in
  let xpath := removeNamespacePrefixes xpath in
  let xpath := if HasPrefix xpath "/" then TrimPrefix xpath "/" else xpath in
  let '(searchDescendants, xpath) :=
    if HasPrefix xpath ".//" then (true, TrimPrefix xpath ".//")
    else if HasPrefix xpath "//" then (true, TrimPrefix xpath "//")
    else (false, xpath) in
  let steps := Split xpath "/" in
  if searchDescendants then
    match steps with
    | [] => []
    | step0 :: rest =>
      let results := findMatchingDescendants root step0 in
      if (1 <? List.length steps)%nat
      then concat (map (fun elem => findMatchingChildren elem rest) results)
      else results
    end
  else findMatchingChildren root steps.

(** [getElementTextContent]: the values of the text children. *)
Fixpoint textOf (ns : list ChildNode) : string :=
  match ns with
  | [] => ""
  | TextNode value :: ns' => value ++ textOf ns'
  | ElementNode _ :: ns' => textOf ns'
  end.

Definition getElementTextContent (elem : Element) : string := textOf (ChildNodes elem).

(** [evaluateFieldXPath] *)
Definition evaluateFieldXPath (node : Element) (xpath : string) : string :=
  let xpath := TrimSpace xpath in
  if HasPrefix xpath "@" then GetAttribute node (TrimPrefix xpath "@")
  else if String.eqb xpath "." || String.eqb xpath "text()"
  then getElementTextContent node
  else
    let byPath :=
      if negb (Contains xpath "@") && negb (Contains xpath "()")
      then match evaluateSimpleXPath node xpath with
           | first :: _ => Some (getElementTextContent first)
           | [] => None
           end
      else None in
    match byPath with
    | Some text => text
    | None =>
      if Contains xpath "/@" then
        match Split xpath "/@" with
        | [path; attrName] =>
          match evaluateSimpleXPath node path with
          | first :: _ => GetAttribute first attrName
          | [] => ""
          end
        | _ => ""
        end
      else ""
    end.

(** [evaluateSelector]: nil for a nil selector or an empty path.  (On a
    document without a root the source dereferences nil; [Validate] is
    only reached with a root.) *)
Definition evaluateSelector (doc : DocumentObj) (selector : option string)
  : list Element :=
  match selector with
  | None => []
  | Some xpath =>
    if String.eqb xpath "" then []
    else match DocumentElement doc with
         | Some root => evaluateSimpleXPath root xpath
         | None => []
         end
  end.

Definition extractFieldValues (node : Element) (fields : list string) : list string :=
  map (evaluateFieldXPath node) fields.

(** The [for i, fieldValue := range fieldValues] loop of a key. *)
Fixpoint nullFieldViolations (name : string) (node : Element) (i : nat)
         (fieldValues : list string) : list Violation :=
  match fieldValues with
  | [] => []
  | fieldValue :: rest =>
    (if String.eqb fieldValue "" then
       [mkViolation (Some node) "" "cvc-identity-constraint.4.2.2"
                    ("Key constraint '" ++ name ++ "' field " ++ decimal (i + 1)
                    ++ " cannot be null") [] ""]
     else [])
    ++ nullFieldViolations name node (S i) rest
  end.

(** One selected node of a key or unique constraint (first pass). *)
Definition collectNode (name : string) (constraint : IdentityConstraint)
           (st : list Violation * gmap string (gmap string (list Element)))
           (node : Element)
  : list Violation * gmap string (gmap string (list Element)) :=
  let '(violations, kv) := st in
  let fieldValues := extractFieldValues node (icFields constraint) in
  if (List.length fieldValues =? 0)%nat then st
  else
    let keyValue := Join fieldValues "|" in
    let '(violations, kv) :=
      match lookupKey kv name keyValue with
      | Some existingNodes =>
        (violations ++
           [mkViolation (Some node) "" "cvc-identity-constraint.4.1"
                        ("Duplicate " ++ kindString (icKind constraint)
                         ++ " constraint '" ++ name ++ "' value: " ++ keyValue)
                        [] ""],
         storeKey kv name keyValue (existingNodes ++ [node]))
      | None => (violations, storeKey kv name keyValue [node])
      end in
    match icKind constraint with
    | KeyConstraint => (violations ++ nullFieldViolations name node 0 fieldValues, kv)
    | _ => (violations, kv)
    end.

(** The body of the first loop over [v.constraints]. *)
Definition collectConstraint (doc : DocumentObj)
           (st : list Violation * gmap string (gmap string (list Element)))
           (entry : string * IdentityConstraint)
  : list Violation * gmap string (gmap string (list Element)) :=
  let '(name, constraint) := entry in
  match icKind constraint with
  | KeyConstraint | UniqueConstraint =>
    fold_left (collectNode name constraint)
              (evaluateSelector doc (icSelector constraint)) st
  | KeyRefConstraint => st
  end.

(** One selected node of a keyref (second pass). *)
Definition checkKeyrefNode (kv : gmap string (gmap string (list Element)))
           (name : string) (constraint referencedConstraint : IdentityConstraint)
           (violations : list Violation) (node : Element) : list Violation :=
  let fieldValues := extractFieldValues node (icFields constraint) in
  if (List.length fieldValues =? 0)%nat then violations
  else
    let keyValue := Join fieldValues "|" in
    match lookupKey kv (Local (icRefer constraint)) keyValue with
    | Some _ => violations
    | None =>
      violations ++
        [mkViolation (Some node) "" "cvc-identity-constraint.4.3"
                     ("Keyref '" ++ name ++ "' value '" ++ keyValue
                      ++ "' does not match any "
                      ++ kindString (icKind referencedConstraint) ++ " '"
                      ++ Local (icRefer constraint) ++ "'") [] ""]
    end.

(** The body of the second loop over [v.constraints]. *)
Definition checkKeyref (doc : DocumentObj) (v : IdentityConstraintValidator)
           (kv : gmap string (gmap string (list Element)))
           (violations : list Violation) (entry : string * IdentityConstraint)
  : list Violation :=
  let '(name, constraint) := entry in
  match icKind constraint with
  | KeyRefConstraint =>
    let selectedNodes := evaluateSelector doc (icSelector constraint) in
    match constraints v !! Local (icRefer constraint) with
    | None =>
      violations ++
        [mkViolation None "" "src-identity-constraint.2.2.2"
                     ("Keyref '" ++ name ++ "' refers to unknown constraint '"
                      ++ Local (icRefer constraint) ++ "'") [] ""]
    | Some referencedConstraint =>
      fold_left (checkKeyrefNode kv name constraint referencedConstraint)
                selectedNodes violations
    end
  | _ => violations
  end.

(** [IdentityConstraintValidator.Validate]: the violations, and the
    validator with the [keyValues] that the call has written.  Go leaves
    the iteration order of [v.constraints] open; the model iterates in
    the order of [map_to_list]. *)
Definition ValidateIC (v : IdentityConstraintValidator) (doc : DocumentObj)
  : list Violation * IdentityConstraintValidator :=
  let '(violations, kv) :=
    fold_left (collectConstraint doc) (map_to_list (constraints v))
              ([], keyValues v) in
  let violations :=
    fold_left (checkKeyref doc v kv) (map_to_list (constraints v)) violations in
  (violations, mkICV (constraints v) kv).

(** ** validator.go *)

Record Validator := mkValidator {
  schema : Schema;
  idRefs : gmap string Element;
  ids : gmap string Element;
  violations : list Violation;
  idConstraints : option IdentityConstraintValidator
}.

(** [NewValidator]: every constraint of every element declaration is
    added (in the order of [map_to_list] on [schema.ElementDecls]). *)
Definition NewValidator (schema : Schema) : Validator :=
  mkValidator schema ∅ ∅ []
    (Some (fold_left (fun icv entry => fold_left AddConstraint (edConstraints entry.2) icv)
                     (map_to_list (ElementDecls schema))
                     NewIdentityConstraintValidator)).

(** [Validator.addViolation] *)
Definition addViolation (v : Validator) (elem : Element)
           (attr code message : string) (expected : list string) (actual : string)
  : Validator :=
  mkValidator (schema v) (idRefs v) (ids v)
              (violations v ++ [mkViolation (Some elem) attr code message expected actual])
              (idConstraints v).

Definition idrefAttrs : list string :=
  ["target"; "ref"; "idref"; "IDREF"; "idlocation"; "sendid"].

(** One iteration of the attribute loop of [collectIDsAndRefs]. *)
Definition collectAttr (elem : Element) (v : Validator) (attr : Attr) : Validator :=
  let attrName := attrLocalName attr in
  let attrValue := attrNodeValue attr in
  let v :=
    if String.eqb attrName "id" || String.eqb attrName "ID" then
      match ids v !! attrValue with
      | Some _ =>
        addViolation v elem attrName "cvc-id.2"
                     ("Duplicate ID value '" ++ attrValue ++ "'") [] attrValue
      | None =>
        mkValidator (schema v) (idRefs v) (<[attrValue := elem]> (ids v))
                    (violations v) (idConstraints v)
      end
    else v in
  if existsb (fun refName => String.eqb attrName refName && negb (String.eqb attrValue ""))
             idrefAttrs
  then mkValidator (schema v) (<[attrValue := elem]> (idRefs v)) (ids v)
                   (violations v) (idConstraints v)
  else v.

(** [Validator.collectIDsAndRefs]: the attributes of [elem], then its
    element children in order. *)
Fixpoint collectIDsAndRefs (v : Validator) (elem : Element) : Validator :=
  match elem with
  | mkElement _ _ _ attrs nodes =>
    let v := fold_left (collectAttr elem) attrs v in
    (fix children (ns : list ChildNode) (v : Validator) : Validator :=
       match ns with
       | [] => v
       | TextNode _ :: ns' => children ns' v
       | ElementNode child :: ns' => children ns' (collectIDsAndRefs v child)
       end) nodes v
  end.

(** [Validator.validateIDREFs]; the iteration order of [v.idRefs] is that
    of [map_to_list]. *)
Definition validateIDREFs (v : Validator) : Validator :=
  fold_left (fun v entry =>
               let '(idref, elem) := entry in
               match ids v !! idref with
               | Some _ => v
               | None =>
                 addViolation v elem "" "cvc-id.1"
                   ("There is no ID/IDREF binding for IDREF '" ++ idref ++ "'")
                   [] idref
               end)
            (map_to_list (idRefs v)) v.

Section Validation.

(** [v.validateElement(root, nil)] only appends to [v.violations]; it
    reads the schema and the element.  The content-model walk behind it
    is represented by the violations it appends. *)
Variable validateElement : Schema -> Element -> list Violation.

(** [Validator.Validate]: the returned violations and the validator as
    the call leaves it. *)
Definition Validate (v : Validator) (doc : Document) : list Violation * Validator :=
  match doc with
  | None =>
    ([mkViolation None "" "xsd-null-document" "Document is null" [] ""], v)
  | Some d =>
    match DocumentElement d with
    | None =>
      ([mkViolation None "" "xsd-no-root" "Document has no root element" [] ""], v)
    | Some root =>
      (* Reset state *)
      let v := mkValidator (schema v) ∅ ∅ [] (idConstraints v) in
      let v := collectIDsAndRefs v root in
      let v := mkValidator (schema v) (idRefs v) (ids v)
                           (violations v ++ validateElement (schema v) root)
                           (idConstraints v) in
      let v := validateIDREFs v in
      let v :=
        match idConstraints v with
        | Some idc =>
          let '(idViolations, idc) := ValidateIC idc d in
          mkValidator (schema v) (idRefs v) (ids v)
                      (violations v ++ idViolations) (Some idc)
        | None => v
        end in
      (violations v, v)
    end
  end.

End Validation.

End Instance.

(** * Formatting verbs of [fmt] *)

Module Fmt.
Import GoStrings.

(** [%d] of an [int]. *)
Definition decimalZ (z : Z) : string := NilZero.string_of_int (Z.to_int z).

(** [%v] of a [[]string]: the elements between brackets, separated by
    spaces. *)
Definition sliceV (l : list string) : string := "[" ++ Join l " " ++ "]".

(** [%s] of a [QName], through [QName.String]. *)
Definition QNameString (q : QName) : string :=
  if String.eqb (Namespace q) "" then Local q
  else "{" ++ Namespace q ++ "}" ++ Local q.

End Fmt.

(** * validator.go: helpers *)

Module ValidatorHelpers.
Import GoStrings Dom Instance Fmt.

(** [min]: the minimum of three integers. *)
Definition min (a b c : nat) : nat :=
  if (a <? b)%nat then
    if (a <? c)%nat then a else c
  else if (b <? c)%nat then b
  else c.

(** The inner loop of [levenshteinDistance] for the row [i]: [c1] is
    [s1[i-1]], [s2] holds the bytes [s2[j-1:]], [prev] the entries
    [matrix[i-1][j-1:]] and [left] is [matrix[i][j-1]].  The result is
    [matrix[i][j:]]. *)
Fixpoint fillRow (c1 : ascii) (s2 : list ascii) (prev : list nat) (left : nat)
  : list nat :=
  match s2, prev with
  | c2 :: s2', diag :: ((up :: _) as prev') =>
    let cost := if Ascii.eqb c1 c2 then 0 else 1 in
    let v := min (up + 1) (left + 1) (diag + cost) in
    v :: fillRow c1 s2' prev' v
  | _, _ => []
  end.

(** The outer loop: the rows [matrix[i:]] for the bytes [s1[i-1:]], given
    the row [matrix[i-1]]. *)
Fixpoint fillRows (i : nat) (s1 s2 : list ascii) (prev : list nat)
  : list (list nat) :=
  match s1 with
  | [] => []
  | c1 :: s1' =>
    let row := i :: fillRow c1 s2 prev i in
    row :: fillRows (S i) s1' s2 row
  end.

(** The matrix of [levenshteinDistance]: [matrix[0][j] = j], and
    [matrix[i][0] = i]. *)
Definition matrix (s1 s2 : list ascii) : list (list nat) :=
  let row0 := seq 0 (S (List.length s2)) in
  row0 :: fillRows 1 s1 s2 row0.

(** [levenshteinDistance] *)
Definition levenshteinDistance (s1 s2 : string) : nat :=
  if (String.length s1 =? 0)%nat then String.length s2
  else if (String.length s2 =? 0)%nat then String.length s1
  else
    nth (String.length s2)
        (nth (String.length s1) (matrix (bytes s1) (bytes s2)) [])
        0.

(** The loop of [ValidateChildSequence] over [elem.Children()]:
    [expected[childIndex:]] is kept in place of [childIndex]. *)
Fixpoint childSequenceLoop (children : list Element) (expected : list string)
         (violations : list Violation) : list Violation * list string :=
  match children with
  | [] => (violations, expected)
  | child :: rest =>
    let childName := LocalName child in
    match expected with
    | [] =>
      childSequenceLoop rest expected
        (violations ++
           [mkViolation (Some child) "" "cvc-complex-type.2.4.d"
                        ("Element '" ++ childName ++ "' is not expected here")
                        [] childName])
    | name :: expected' =>
      let violations :=
        if negb (String.eqb childName name) then
          violations ++
            [mkViolation (Some child) "" "cvc-complex-type.2.4.a"
                         ("Element name '" ++ childName ++ "' is invalid")
                         expected childName]
        else violations in
      childSequenceLoop rest expected' violations
    end
  end.

(** [ValidateChildSequence] *)
Definition ValidateChildSequence (elem : Element) (expected : list string)
  : list Violation :=
  let '(violations, missing) := childSequenceLoop (Children elem) expected [] in
  match missing with
  | [] => violations
  | _ =>
    violations ++
      [mkViolation (Some elem) "" "cvc-complex-type.2.4.b"
                   ("Missing required elements: " ++ sliceV missing)
                   missing ""]
  end.

End ValidatorHelpers.

(** * wildcards.go: validation against wildcards *)

Module WildcardValidation.
Import GoStrings Dom Components Instance Wildcards Fmt.

(** [CountWildcardMatches] *)
Definition CountWildcardMatches (elements : list Element)
           (Namespace : string) (targetNamespace : string) : nat :=
  fold_left (fun count elem =>
               if MatchesWildcard (NamespaceURI elem) Namespace targetNamespace
               then S count else count)
            elements 0.

(** [ValidateWildcardOccurrences], on the [MinOcc] and [MaxOcc] of the
    wildcard. *)
Definition ValidateWildcardOccurrences (matchCount : Z) (minOcc maxOcc : Z)
  : list Violation :=
  let violations := [] in
  let violations :=
    if (matchCount <? minOcc)%Z then
      violations ++
        [mkViolation None "" "cvc-complex-type.2.4.b"
                     ("Expected at least " ++ decimalZ minOcc
                      ++ " wildcard element(s), found " ++ decimalZ matchCount)
                     [] ""]
    else violations in
  if negb (maxOcc =? -1)%Z && (maxOcc <? matchCount)%Z then
    violations ++
      [mkViolation None "" "cvc-complex-type.2.4.d"
                   ("Expected at most " ++ decimalZ maxOcc
                    ++ " wildcard element(s), found " ++ decimalZ matchCount)
                   [] ""]
  else violations.

(** [ValidateAnyAttribute]; the attribute node is read through its
    namespace URI and local name. *)
Definition ValidateAnyAttribute (attr : Attr) (Namespace ProcessContents : string)
           (schema : Schema) : list Violation :=
  let attrNS := attrNamespaceURI attr in
  let attrName := attrLocalName attr in
  if String.eqb attrNS "http://www.w3.org/2000/xmlns/" || String.eqb attrName "xmlns"
  then []
  else if String.eqb attrNS "http://www.w3.org/2001/XMLSchema-instance" then []
  else
    let nsConstraint := ParseNamespaceConstraint Namespace in
    if negb (Matches nsConstraint attrNS (TargetNamespace schema)) then
      [mkViolation None "" "cvc-wildcard-attribute.2"
                   ("Attribute '{" ++ attrNS ++ "}" ++ attrName
                    ++ "' is not allowed by the anyAttribute namespace constraint '"
                    ++ Namespace ++ "'")
                   [] ""]
    else
      let mode := if String.eqb ProcessContents "" then "strict" else ProcessContents in
      if String.eqb mode "strict" then []
      else if String.eqb mode "lax" then []
      else if String.eqb mode "skip" then []
      else
        [mkViolation None "" "cvc-wildcard-attribute.3"
                     ("Invalid processContents value for anyAttribute: '"
                      ++ ProcessContents ++ "'")
                     [] ""].

Section AnyElement.
(** [decl.Type.Validate(elem, schema)]: the validation of an element
    against a type, which the functions below only call. *)
Variable typeValidate : XsdType -> Element -> Schema -> list Violation.

(** The [strict] and [lax] cases of [ValidateAnyElement] when a
    declaration is found. *)
Definition declaredViolations (decl : ElementDecl) (elem : Element) (schema : Schema)
  : list Violation :=
  match edType decl with
  | Some t => typeValidate t elem schema
  | None => []
  end.

(** [ValidateAnyElement] *)
Definition ValidateAnyElement (elem : Element) (Namespace ProcessContents : string)
           (schema : Schema) : list Violation :=
  let elemNS := NamespaceURI elem in
  let elemName := LocalName elem in
  let nsConstraint := ParseNamespaceConstraint Namespace in
  if negb (Matches nsConstraint elemNS (TargetNamespace schema)) then
    [mkViolation (Some elem) "" "cvc-wildcard.2"
                 ("Element '{" ++ elemNS ++ "}" ++ elemName
                  ++ "' is not allowed by the namespace constraint '"
                  ++ Namespace ++ "'")
                 [] ""]
  else
    let mode := if String.eqb ProcessContents "" then "strict" else ProcessContents in
    let qname := mkQName elemNS elemName in
    if String.eqb mode "strict" then
      match ElementDecls schema !! qname with
      | Some decl => declaredViolations decl elem schema
      | None =>
        [mkViolation (Some elem) "" "cvc-assess-elt.1.1.1"
                     ("No element declaration found for '{" ++ elemNS ++ "}"
                      ++ elemName ++ "' (processContents='strict')")
                     [] ""]
      end
    else if String.eqb mode "lax" then
      match ElementDecls schema !! qname with
      | Some decl => declaredViolations decl elem schema
      | None => []
      end
    else if String.eqb mode "skip" then []
    else
      [mkViolation (Some elem) "" "cvc-wildcard.3"
                   ("Invalid processContents value: '" ++ ProcessContents ++ "'")
                   [] ""].

(** [ModelGroup.matchWildcard]: [(matched, consumed, violations)].  The
    state of the loop is [matched] (equal to [consumed]) and the
    violations collected so far. *)
Fixpoint matchWildcardLoop (children : list Element)
         (Namespace ProcessContents : string) (minOcc maxOcc : Z) (schema : Schema)
         (matched : Z) (violations : list Violation) : Z * list Violation :=
  match children with
  | [] => (matched, violations)
  | child :: rest =>
    if negb (MatchesWildcard (NamespaceURI child) Namespace (TargetNamespace schema))
    then (matched, violations)
    else
      let violations :=
        violations ++ ValidateAnyElement child Namespace ProcessContents schema in
      let matched := (matched + 1)%Z in
      if negb (maxOcc =? -1)%Z && (maxOcc <=? matched)%Z then (matched, violations)
      else matchWildcardLoop rest Namespace ProcessContents minOcc maxOcc schema
                             matched violations
  end.

Definition matchWildcard (Namespace ProcessContents : string) (minOcc maxOcc : Z)
           (children : list Element) (schema : Schema) : Z * Z * list Violation :=
  let '(matched, violations) :=
    matchWildcardLoop children Namespace ProcessContents minOcc maxOcc schema 0 [] in
  (matched, matched, violations).
End AnyElement.

End WildcardValidation.

(** * schema.go: names and substitution groups *)

Module SchemaParse.
Import GoStrings Dom Facets Components.

(** [strings.SplitN(s, sep, 2)] for a separator that is not empty: [s] cut
    at the first occurrence of [sep], or [s] alone. *)
Definition SplitN2 (s sep : string) : list string :=
  match Index s sep with
  | Some i => [sliceTo s i; sliceFrom s (i + String.length sep)]
  | None => [s]
  end.

(** The loop of [parseQName] over the attributes of the root of the schema
    document; [None] when the loop ends without returning. *)
Fixpoint resolvePrefix (prefix local : string) (attrs : list Attr) : option QName :=
  match attrs with
  | [] => None
  | attr :: rest =>
    let attrName := attrNodeName attr in
    if String.eqb attrName ("xmlns:" ++ prefix) then
      Some (mkQName (attrNodeValue attr) local)
    else
      let nsValue := attrNodeValue attr in
      if String.eqb attrName prefix
         && (Contains nsValue "://" || Contains nsValue "/" || Contains nsValue ".")
      then Some (mkQName nsValue local)
      else resolvePrefix prefix local rest
  end.

(** [Schema.parseQName].  [rootAttrs] is the attribute list of
    [s.doc.DocumentElement()], [None] when [s.doc] or the root is nil. *)
Definition parseQName (TargetNamespace : string) (rootAttrs : option (list Attr))
           (name : string) : QName :=
  if String.eqb name "" then mkQName "" ""
  else
    match SplitN2 name ":" with
    | [prefix; local] =>
      if String.eqb prefix "xs" || String.eqb prefix "xsd" then
        mkQName XSDNamespace local
      else
        match rootAttrs with
        | Some attrs =>
          match resolvePrefix prefix local attrs with
          | Some q => q
          | None => mkQName TargetNamespace local
          end
        | None => mkQName "" name
        end
    | _ => mkQName TargetNamespace name
    end.

(** [Schema.parseOccurs] *)
Definition parseOccurs (elem : Element) (attr : string) (defaultValue : Z) : Z :=
  let value := GetAttribute elem attr in
  if String.eqb value "" then defaultValue
  else if String.eqb value "unbounded" then (-1)%Z
  else match Atoi value with
       | Some n => n
       | None => defaultValue
       end.

(** [append(s.SubstitutionGroups[head], members...)] stored back under
    [head]. *)
Definition appendMembers (sg : gmap QName (list QName)) (head : QName)
           (members : list QName) : gmap QName (list QName) :=
  <[head := default [] (sg !! head) ++ members]> sg.

(** The head that a declaration names: a [substitutionGroup] without
    namespace is taken in the target namespace. *)
Definition headOf (TargetNamespace : string) (decl : ElementDecl) : QName :=
  let headQName := edSubstitutionGroup decl in
  if String.eqb (Namespace headQName) ""
  then mkQName TargetNamespace (Local headQName)
  else headQName.

(** The body of the first loop of [buildSubstitutionGroups]. *)
Definition addMember (TargetNamespace : string) (sg : gmap QName (list QName))
           (entry : QName * ElementDecl) : gmap QName (list QName) :=
  let decl := entry.2 in
  if negb (String.eqb (Local (edSubstitutionGroup decl)) "")
  then appendMembers sg (headOf TargetNamespace decl) [edName decl]
  else sg.

(** The body of the second loop, for one imported schema. *)
Definition mergeImported (sg : gmap QName (list QName)) (imported : string * Schema)
  : gmap QName (list QName) :=
  fold_left (fun sg entry => appendMembers sg entry.1 entry.2)
            (map_to_list (SubstitutionGroups imported.2)) sg.

(** [Schema.buildSubstitutionGroups]: the schema with its index rebuilt.
    The maps are iterated in the order of [map_to_list]. *)
Definition buildSubstitutionGroups (s : Schema) : Schema :=
  let sg := fold_left (addMember (TargetNamespace s))
                      (map_to_list (ElementDecls s)) (SubstitutionGroups s) in
  let sg := fold_left mergeImported (ImportedSchemas s) sg in
  mkSchema (TargetNamespace s) (ElementDecls s) (TypeDefs s) (Groups s)
           (ImportedSchemas s) sg.

End SchemaParse.

(** * builtin_types.go: lexical validators *)

Module Lexical.
Import GoStrings Facets.
Local Open Scope string_scope.

(** A Go [error]: [None] is nil, [Some] holds the message. *)
Definition error : Type := option string.

(** [strings.HasSuffix] *)
Definition HasSuffix (s suffix : string) : bool :=
  (String.length suffix <=? String.length s)%nat
  && String.eqb (sliceFrom s (String.length s - String.length suffix)) suffix.

(** An optional sign followed by one decimal digit or more: the integer it
    denotes.  This is the syntax that [strconv.ParseInt] in base 10 and
    [big.Int.SetString] in base 10 accept. *)
Definition signedDigits (s : string) : option Z :=
  match bytes s with
  | [] => None
  | c :: t =>
    let '(neg, ds) :=
      if Ascii.eqb c "+" then (false, t)
      else if Ascii.eqb c "-" then (true, t)
      else (false, c :: t) in
    match ds with
    | [] => None
    | _ =>
      match digitsVal ds 0 with
      | Some v => Some (if neg then (- v)%Z else v)
      | None => None
      end
    end
  end.

(** [strconv.ParseInt(s, 10, bitSize)]; [None] is a non-nil error (of
    syntax or of range). *)
Definition ParseInt (s : string) (bitSize : Z) : option Z :=
  match signedDigits s with
  | Some v =>
    if ((- 2 ^ (bitSize - 1) <=? v) && (v <=? 2 ^ (bitSize - 1) - 1))%Z
    then Some v else None
  | None => None
  end.

(** [strconv.ParseUint(s, 10, bitSize)]: digits only, no sign. *)
Definition ParseUint (s : string) (bitSize : Z) : option Z :=
  match bytes s with
  | [] => None
  | ds =>
    match digitsVal ds 0 with
    | Some v => if (v <=? 2 ^ bitSize - 1)%Z then Some v else None
    | None => None
    end
  end.

(** [new(big.Int).SetString(s, 10)] *)
Definition SetString (s : string) : option Z := signedDigits s.

Definition validateBoolean (value : string) : error :=
  if String.eqb value "true" || String.eqb value "false"
     || String.eqb value "1" || String.eqb value "0"
  then None
  else Some ("invalid boolean value: " ++ value).

Definition validateNormalizedString (value : string) : error :=
  if existsb (fun it => (it.2 =? 0x0D)%N || (it.2 =? 0x0A)%N || (it.2 =? 0x09)%N)
             (rangeString (bytes value))
  then Some "normalizedString cannot contain CR, LF, or TAB"
  else None.

Definition validateToken (value : string) : error :=
  match validateNormalizedString value with
  | Some err => Some err
  | None =>
    if HasPrefix value " " || HasSuffix value " "
    then Some "token cannot have leading or trailing spaces"
    else if Contains value "  "
    then Some "token cannot have multiple consecutive spaces"
    else None
  end.

Definition validateInteger (value : string) : error :=
  match SetString value with
  | Some _ => None
  | None => Some ("invalid integer value: " ++ value)
  end.

Definition validateNonPositiveInteger (value : string) : error :=
  match SetString value with
  | None => Some ("invalid nonPositiveInteger value: " ++ value)
  | Some i =>
    if (0 <? i)%Z then Some ("nonPositiveInteger must be <= 0: " ++ value) else None
  end.

Definition validateNegativeInteger (value : string) : error :=
  match SetString value with
  | None => Some ("invalid negativeInteger value: " ++ value)
  | Some i =>
    if (0 <=? i)%Z then Some ("negativeInteger must be < 0: " ++ value) else None
  end.

Definition validateNonNegativeInteger (value : string) : error :=
  match SetString value with
  | None => Some ("invalid nonNegativeInteger value: " ++ value)
  | Some i =>
    if (i <? 0)%Z then Some ("nonNegativeInteger must be >= 0: " ++ value) else None
  end.

Definition validatePositiveInteger (value : string) : error :=
  match SetString value with
  | None => Some ("invalid positiveInteger value: " ++ value)
  | Some i =>
    if (i <=? 0)%Z then Some ("positiveInteger must be > 0: " ++ value) else None
  end.

Definition validateLong (value : string) : error :=
  match ParseInt value 64 with
  | Some _ => None
  | None => Some ("invalid long value: " ++ value)
  end.

(** [validateInt], [validateShort], [validateByte]: [strconv.ParseInt] with
    the bit size, then the range check on its result. *)
Definition validateSized (name : string) (bitSize : Z) (value : string) : error :=
  match ParseInt value bitSize with
  | None => Some ("invalid " ++ name ++ " value: " ++ value)
  | Some v =>
    if ((v <? - 2 ^ (bitSize - 1)) || (2 ^ (bitSize - 1) - 1 <? v))%Z
    then Some (name ++ " value out of range: " ++ value)
    else None
  end.

Definition validateInt : string -> error := validateSized "int" 32.
Definition validateShort : string -> error := validateSized "short" 16.
Definition validateByte : string -> error := validateSized "byte" 8.

Definition validateUnsignedLong (value : string) : error :=
  match ParseUint value 64 with
  | Some _ => None
  | None => Some ("invalid unsignedLong value: " ++ value)
  end.

(** [validateUnsignedInt], [validateUnsignedShort], [validateUnsignedByte] *)
Definition validateUnsignedSized (name : string) (bitSize : Z) (value : string) : error :=
  match ParseUint value bitSize with
  | None => Some ("invalid " ++ name ++ " value: " ++ value)
  | Some v =>
    if (2 ^ bitSize - 1 <? v)%Z
    then Some (name ++ " value out of range: " ++ value)
    else None
  end.

Definition validateUnsignedInt : string -> error := validateUnsignedSized "unsignedInt" 32.
Definition validateUnsignedShort : string -> error :=
  validateUnsignedSized "unsignedShort" 16.
Definition validateUnsignedByte : string -> error :=
  validateUnsignedSized "unsignedByte" 8.

End Lexical.

(** * facets.go: validation against facets *)

Module FacetValidation.
Import GoStrings Fmt Facets Builtin Components Lexical.
Local Open Scope string_scope.

(** [len([]rune(value))] *)
Definition runeCount (value : string) : nat :=
  List.length (rangeString (bytes value)).

(** The test of [getLength] on [baseType]: it is a pointer to a
    [SimpleType] whose [List] is not nil.  A nil [baseType] is [None]. *)
Definition isListType (baseType : option XsdType) : bool :=
  match baseType with
  | Some (SimpleTypeT st) => match stList st with Some _ => true | None => false end
  | _ => false
  end.

(** [getLength].  Go's [/] on [int] truncates. *)
Definition getLength (value : string) (baseType : option XsdType) : Z :=
  if Contains value " " && isListType baseType
  then Z.of_nat (List.length (Fields value))
  else if IsBuiltinType "hexBinary" then Z.quot (Z.of_nat (String.length value)) 2
  else if IsBuiltinType "base64Binary" then
    let n := Z.of_nat (String.length value) in
    let n := if HasSuffix value "==" then (n - 2)%Z
             else if HasSuffix value "=" then (n - 1)%Z
             else n in
    Z.quot (n * 3) 4
  else Z.of_nat (runeCount value).

(** [EnumerationFacet.Validate] *)
Definition EnumerationValidate (Values : list string) (value : string) : error :=
  if existsb (String.eqb value) Values then None
  else Some ("value '" ++ value ++ "' is not in enumeration " ++ sliceV Values).

(** [LengthFacet.Validate], [MinLengthFacet.Validate],
    [MaxLengthFacet.Validate] *)
Definition LengthValidate (Value : Z) (value : string) (baseType : option XsdType)
  : error :=
  let length := getLength value baseType in
  if negb (length =? Value)%Z
  then Some ("length must be exactly " ++ decimalZ Value ++ ", got " ++ decimalZ length)
  else None.

Definition MinLengthValidate (Value : Z) (value : string) (baseType : option XsdType)
  : error :=
  let length := getLength value baseType in
  if (length <? Value)%Z
  then Some ("length must be at least " ++ decimalZ Value ++ ", got " ++ decimalZ length)
  else None.

Definition MaxLengthValidate (Value : Z) (value : string) (baseType : option XsdType)
  : error :=
  let length := getLength value baseType in
  if (Value <? length)%Z
  then Some ("length must be at most " ++ decimalZ Value ++ ", got " ++ decimalZ length)
  else None.

(** [FacetValidator.Name] *)
Definition facetName (f : FacetValidator) : string :=
  match f with
  | PatternFacet _ => "pattern"
  | EnumerationFacet _ => "enumeration"
  | LengthFacet _ => "length"
  | MinLengthFacet _ => "minLength"
  | MaxLengthFacet _ => "maxLength"
  | MinInclusiveFacet _ => "minInclusive"
  | MaxInclusiveFacet _ => "maxInclusive"
  | MinExclusiveFacet _ => "minExclusive"
  | MaxExclusiveFacet _ => "maxExclusive"
  | TotalDigitsFacet _ => "totalDigits"
  | FractionDigitsFacet _ => "fractionDigits"
  | WhiteSpaceFacet _ => "whiteSpace"
  end.

(** The first loop of [ValidateFacets]: the value normalized by the first
    [*WhiteSpaceFacet] of the list, if there is one. *)
Fixpoint applyWhiteSpace (value : string) (facets : list FacetValidator) : string :=
  match facets with
  | [] => value
  | WhiteSpaceFacet ws :: _ => NormalizeWhiteSpace value ws
  | _ :: rest => applyWhiteSpace value rest
  end.

Section Dispatch.
(** [f.Validate(value, baseType)] for the [baseType] of the call: the
    method of the facet's dynamic type. *)
Variable validate : FacetValidator -> string -> error.

(** The second loop of [ValidateFacets]. *)
Fixpoint validateAll (value : string) (facets : list FacetValidator) : error :=
  match facets with
  | [] => None
  | f :: rest =>
    match validate f value with
    | Some err => Some (facetName f ++ " constraint violated: " ++ err)
    | None => validateAll value rest
    end
  end.

(** [ValidateFacets] *)
Definition ValidateFacets (value : string) (facets : list FacetValidator) : error :=
  let value := applyWhiteSpace value facets in
  validateAll value facets.
End Dispatch.

(** [CombineEnumerations] *)
Definition CombineEnumerations (facets : list FacetValidator) : list string :=
  fold_left (fun values f =>
               match f with
               | EnumerationFacet Values => (values ++ Values)%list
               | _ => values
               end) facets [].

End FacetValidation.

(** * Values of union and list types *)

Module SimpleTypeValues.
Import GoStrings Fmt Facets Builtin Components Lexical.
Local Open Scope string_scope.

Section Values.
(** [validator(value)] for a validator of the registry, the call
    [validateValueAgainstType(value, t, schema)], and the schema. *)
Variable runValidator : ValidatorFn -> string -> error.
Variable validateValueAgainstType : string -> XsdType -> error.
Variable schema : Schema.

(** The loop of [ValidateUnionType] from some member on.  [None] is the
    [return nil] inside the loop; [Some lastError] is the end of the
    loop. *)
Fixpoint unionLoop (value : string) (members : list QName) (lastError : error)
  : option error :=
  match members with
  | [] => Some lastError
  | memberType :: rest =>
    match TypeDefs schema !! memberType with
    | Some resolvedType =>
      match validateValueAgainstType value resolvedType with
      | None => None
      | Some err => unionLoop value rest (Some err)
      end
    | None =>
      match GetBuiltinTypeValidator (Local memberType) with
      | Some validator =>
        match runValidator validator value with
        | None => None
        | Some err => unionLoop value rest (Some err)
        end
      | None => unionLoop value rest lastError
      end
    end
  end.

(** [ValidateUnionType]; a nil [union] is [None]. *)
Definition ValidateUnionType (value : string) (union : option (list QName)) : error :=
  match union with
  | None | Some [] => Some "union type has no member types"
  | Some members =>
    match unionLoop value members None with
    | None => None
    | Some (Some lastError) =>
      Some ("value '" ++ value
            ++ "' is not valid against any member type of the union: " ++ lastError)
    | Some None =>
      Some ("value '" ++ value ++ "' is not valid against any member type of the union")
    end
  end.

(** The loops of [ValidateListType] over the items; [i] is the index of
    the first item of [items]. *)
Fixpoint itemLoop (check : string -> error) (i : Z) (items : list string) : error :=
  match items with
  | [] => None
  | item :: rest =>
    match check item with
    | Some err =>
      Some ("list item " ++ decimalZ (i + 1) ++ " ('" ++ item ++ "') is invalid: " ++ err)
    | None => itemLoop check (i + 1) rest
    end
  end.

(** [ValidateListType]; a nil [list] is [None]. *)
Definition ValidateListType (value : string) (list : option QName) : error :=
  match list with
  | None => Some "list type has no item type"
  | Some ItemType =>
    if bool_decide (ItemType = mkQName "" "") then Some "list type has no item type"
    else
      let items := Fields value in
      if (List.length items =? 0)%nat && negb (String.eqb value "")
      then Some "list value contains only whitespace"
      else
        match TypeDefs schema !! ItemType with
        | Some itemType =>
          itemLoop (fun item => validateValueAgainstType item itemType) 0 items
        | None =>
          match GetBuiltinTypeValidator (Local ItemType) with
          | Some validator => itemLoop (runValidator validator) 0 items
          | None => Some ("unknown item type: " ++ QNameString ItemType)
          end
        end
  end.
End Values.

End SimpleTypeValues.

(** * Built-in type lookup *)

Module BuiltinFacts.
Import GoStrings Builtin.

Lemma IndexByte_app_fresh p c s :
  IndexByte p c = None -> IndexByte (p +:+ String c s) c = Some (String.length p).
Proof.
  induction p as [|a p IH].
  - intros _. change ("" +:+ String c s) with (String c s).
    simpl. by rewrite Ascii.eqb_refl.
  - change (String a p +:+ String c s) with (String a (p +:+ String c s)).
    cbn [IndexByte String.length].
    destruct (Ascii.eqb a c); [done|].
    destruct (IndexByte p c) eqn:E; [done|]. intros _. by rewrite IH.
Qed.

Lemma sliceFrom_app p s : sliceFrom (p +:+ s) (String.length p) = s.
Proof.
  induction p as [|a p IH]; [by destruct s|].
  change (String a p +:+ s) with (String a (p +:+ s)). exact IH.
Qed.

Lemma length_app_one p c : String.length (p +:+ String c "") = String.length p + 1.
Proof.
  induction p as [|a p IH]; [done|].
  change (S (String.length (p +:+ String c "")) = S (String.length p) + 1).
  by rewrite IH.
Qed.

Lemma app_assoc_one p c s : (p +:+ String c "") +:+ s = p +:+ String c s.
Proof.
  induction p as [|a p IH]; [done|].
  change (String a ((p +:+ String c "") +:+ s) = String a (p +:+ String c s)).
  by rewrite IH.
Qed.

Lemma stripPrefix_prefixed p n :
  IndexByte p ":" = None -> stripPrefix (p +:+ ":" +:+ n) = n.
Proof.
  intros Hp. unfold stripPrefix.
  change (":" +:+ n) with (String ":" n).
  rewrite (IndexByte_app_fresh p ":" n Hp).
  rewrite <- (app_assoc_one p ":" n), <- (length_app_one p ":").
  apply sliceFrom_app.
Qed.

Lemma stripPrefix_no_colon s : IndexByte s ":" = None -> stripPrefix s = s.
Proof. unfold stripPrefix. by intros ->. Qed.

(** No key of the registry contains a colon. *)
Lemma registry_keys_colon_free k bt :
  builtinTypes !! k = Some bt -> IndexByte k ":" = None.
Proof.
  revert k bt. change (map_Forall (fun k _ => IndexByte k ":" = None) builtinTypes).
  apply (bool_decide_unpack _). vm_compute. exact I.
Qed.

(** The part of a name after its last colon (the whole name if it has
    none). *)
Fixpoint localPart (s : string) : string :=
  match s with
  | EmptyString => EmptyString
  | String c s' =>
    match IndexByte s' ":" with
    | Some _ => localPart s'
    | None => if Ascii.eqb c ":" then s' else s
    end
  end.

Lemma localPart_no_colon s : IndexByte s ":" = None -> localPart s = s.
Proof.
  destruct s as [|c s]; simpl; [done|].
  destruct (Ascii.eqb c ":") eqn:E; [done|].
  by destruct (IndexByte s ":").
Qed.

Lemma localPart_stripPrefix s : localPart (stripPrefix s) = localPart s.
Proof.
  unfold stripPrefix.
  induction s as [|c s IH]; simpl; [done|].
  destruct (Ascii.eqb c ":") eqn:E.
  - simpl. destruct (IndexByte s ":") eqn:Es; [|by apply localPart_no_colon].
    done.
  - destruct (IndexByte s ":") eqn:Es; simpl; [|by rewrite E, Es].
    replace (n + 1) with (S n) in * by lia. exact IH.
Qed.

Lemma lookup_localPart_None s :
  builtinTypes !! localPart s = None -> builtinTypes !! stripPrefix s = None.
Proof.
  intros H. destruct (builtinTypes !! stripPrefix s) as [bt|] eqn:E; [|done].
  pose proof (registry_keys_colon_free _ _ E) as Hc.
  rewrite <- localPart_stripPrefix, (localPart_no_colon _ Hc), E in H. done.
Qed.

(** C9: built-in type lookup ignores the prefix.  [GetBuiltinType] consults
    the registry with what follows the first colon of the name, and
    [GetBuiltinTypeValidator] cuts at the first colon and hands the rest to
    [GetBuiltinType] (which cuts once more; for a name with at most one
    colon that changes nothing).  So for every prefix [p] (a name without
    colon) and every registered name [n], looking up [p:n] gives what
    looking up [n] gives, with both functions, whatever [p] is.  A name
    whose local part is not registered gives nil with both. *)
Theorem builtin_lookup_ignores_prefix :
  (forall name, GetBuiltinType name = builtinTypes !! stripPrefix name) /\
  (forall name,
      GetBuiltinTypeValidator name
      = Validator <$> builtinTypes !! stripPrefix (stripPrefix name)) /\
  (forall name,
      IndexByte (stripPrefix name) ":" = None ->
      GetBuiltinTypeValidator name = Validator <$> builtinTypes !! stripPrefix name) /\
  (forall p n bt,
      IndexByte p ":" = None ->
      builtinTypes !! n = Some bt ->
      GetBuiltinType (p +:+ ":" +:+ n) = Some bt /\
      GetBuiltinType n = Some bt /\
      GetBuiltinTypeValidator (p +:+ ":" +:+ n) = Some (Validator bt) /\
      GetBuiltinTypeValidator n = Some (Validator bt)) /\
  (forall name,
      builtinTypes !! localPart name = None ->
      GetBuiltinType name = None /\ GetBuiltinTypeValidator name = None).
Proof.
  split; [done|].
  assert (forall name, GetBuiltinTypeValidator name
                       = Validator <$> builtinTypes !! stripPrefix (stripPrefix name)) as Hv.
  { intros name. unfold GetBuiltinTypeValidator, GetBuiltinType.
    by destruct (builtinTypes !! _). }
  split; [exact Hv|]. split; [|split].
  - intros name Hc. by rewrite Hv, (stripPrefix_no_colon _ Hc).
  - intros p n bt Hp Hn.
    pose proof (registry_keys_colon_free _ _ Hn) as Hc.
    unfold GetBuiltinTypeValidator, GetBuiltinType.
    rewrite !(stripPrefix_prefixed p n Hp), !(stripPrefix_no_colon n Hc), Hn. done.
  - intros name H. unfold GetBuiltinTypeValidator, GetBuiltinType.
    split; [by apply lookup_localPart_None|].
    rewrite lookup_localPart_None; [done|].
    by rewrite localPart_stripPrefix.
Qed.

Lemma builtin_lookup_witness :
  GetBuiltinType ("xs" +:+ ":" +:+ "int") = Some (mkBuiltinType "int" validateInt) /\
  GetBuiltinTypeValidator ("tns" +:+ ":" +:+ "int") = Some validateInt.
Proof.
  destruct builtin_lookup_ignores_prefix as (_ & _ & _ & H & _).
  split.
  - apply (H "xs" "int" (mkBuiltinType "int" validateInt)); vm_compute; reflexivity.
  - apply (H "tns" "int" (mkBuiltinType "int" validateInt)); vm_compute; reflexivity.
Defined.
End BuiltinFacts.

(** * Wildcard namespace constraints, and degenerate documents *)

Module WildcardFacts.
Import GoStrings Wildcards.

Lemma existsb_eqb_elem_of (l : list string) (x : string) :
  existsb (fun y => String.eqb y x) l = true <-> x ∈ l.
Proof.
  rewrite existsb_exists, list_elem_of_In. split.
  - intros (y & Hy & E). apply String.eqb_eq in E. by subst.
  - intros H. exists x. split; [done|]. apply String.eqb_refl.
Qed.

(** The four keyword rows of the table. *)
Lemma Matches_keywords e t :
  Matches (ParseNamespaceConstraint "##any") e t = true /\
  (Matches (ParseNamespaceConstraint "##other") e t = true <-> e <> t) /\
  (Matches (ParseNamespaceConstraint "##targetNamespace") e t = true <-> e = t) /\
  (Matches (ParseNamespaceConstraint "##local") e t = true <-> e = "").
Proof.
  unfold Matches, ParseNamespaceConstraint; cbn.
  split; [done|]. split; [|split].
  - rewrite negb_true_iff. split.
    + intros H ->. by rewrite String.eqb_refl in H.
    + intros H. by apply String.eqb_neq.
  - apply String.eqb_eq.
  - apply String.eqb_eq.
Qed.

(** The list row, for a value that is parsed as a list. *)
Lemma Matches_list value e t :
  value <> "" -> HasPrefix value "##" = false ->
  Matches (ParseNamespaceConstraint value) e t = true <->
  (e ∈ Fields value
   \/ ("##targetNamespace" ∈ Fields value /\ e = t)
   \/ ("##local" ∈ Fields value /\ e = "")).
Proof.
  intros Hne Hpre. unfold ParseNamespaceConstraint.
  apply String.eqb_neq in Hne. rewrite Hne, Hpre. cbn -[Fields existsb].
  destruct (existsb (fun ns => String.eqb ns e) (Fields value)) eqn:E1.
  { apply existsb_eqb_elem_of in E1. tauto. }
  assert (e ∉ Fields value) as Hnot.
  { intros H. apply existsb_eqb_elem_of in H. congruence. }
  match goal with |- (if ?b then _ else _) = _ <-> _ => destruct b eqn:E2 end.
  - split; [intros _|done]. right.
    apply existsb_exists in E2 as (ns & Hin & H).
    apply list_elem_of_In in Hin.
    apply orb_true_iff in H as [H|H]; apply andb_true_iff in H as [H1 H2];
      apply String.eqb_eq in H1; apply String.eqb_eq in H2; subst;
      [left|right]; (split; [assumption|reflexivity]).
  - split; [done|]. intros [H|[[H ->]|[H ->]]]; [done| |].
    + assert (existsb (fun ns =>
         (String.eqb ns "##targetNamespace" && String.eqb t t)
         || (String.eqb ns "##local" && String.eqb t "")) (Fields value) = true); [|congruence].
      apply existsb_exists. exists "##targetNamespace". split; [by apply list_elem_of_In|].
      by rewrite !String.eqb_refl.
    + assert (existsb (fun ns =>
         (String.eqb ns "##targetNamespace" && String.eqb "" t)
         || (String.eqb ns "##local" && String.eqb "" "")) (Fields value) = true); [|congruence].
      apply existsb_exists. exists "##local". split; [by apply list_elem_of_In|].
      rewrite !String.eqb_refl. by rewrite orb_true_r.
Qed.

(** C7: a list that starts with a keyword is not read as a list.  The value
    [##targetNamespace urn:other] has the fields [##targetNamespace] and
    [urn:other], yet the constraint parsed from it matches neither the
    listed namespace [urn:other] nor the target namespace: the value starts
    with [##], so it is kept whole as a mode that [Matches] does not know.
    [Validator.matchesNamespace] does not read [##local] as a list entry
    either. *)
Theorem leading_keyword_list_never_matches :
  let value := "##targetNamespace urn:other" in
  Fields value = ["##targetNamespace"; "urn:other"] /\
  Matches (ParseNamespaceConstraint value) "urn:other" "urn:t" = false /\
  Matches (ParseNamespaceConstraint value) "urn:t" "urn:t" = false /\
  Fields "urn:a ##local" = ["urn:a"; "##local"] /\
  matchesNamespace "urn:t" "" "urn:a ##local" = false.
Proof. vm_compute. repeat split. Qed.
End WildcardFacts.

Module ValidateFacts.
Import Dom Components Instance.
(** C8: [Validate] on degenerate input.  For a nil document the result is
    the single violation [xsd-null-document], for a document without root
    element the single violation [xsd-no-root]; in both cases the validator
    is handed back as it was, nothing else having run. *)
Theorem Validate_degenerate_input validateElement (v : Validator) :
  Validate validateElement v None =
    ([mkViolation None "" "xsd-null-document" "Document is null" [] ""], v) /\
  Validate validateElement v (Some (mkDocument None)) =
    ([mkViolation None "" "xsd-no-root" "Document has no root element" [] ""], v).
Proof. split; reflexivity. Qed.
End ValidateFacts.

(** * Enumeration facets of a restriction *)

Module EnumerationFacts.
Import GoStrings Dom Facets.

Definition isEnumeration (f : FacetValidator) : bool :=
  match f with EnumerationFacet _ => true | _ => false end.

(** The enumeration facets among [facets]. *)
Definition enumerationFacets (facets : list FacetValidator) : list FacetValidator :=
  List.filter isEnumeration facets.

Definition isEnumerationChild (child : Element) : bool :=
  String.eqb (NamespaceURI child) XSDNamespace
  && String.eqb (LocalName child) "enumeration".

(** The [value] attributes of the [<xs:enumeration>] children, in document
    order. *)
Definition enumerationValues (children : list Element) : list string :=
  map (fun c => GetAttribute c "value") (List.filter isEnumerationChild children).

(** What the loop does to the enumeration facets when it has read the
    values [vs]. *)
Definition extendEnumeration (enums : list FacetValidator) (vs : list string)
  : list FacetValidator :=
  match enums, vs with
  | EnumerationFacet vs0 :: rest, _ => EnumerationFacet (vs0 ++ vs) :: rest
  | _, [] => enums
  | _, _ => [EnumerationFacet vs]
  end.

Lemma ParseFacet_other name value f :
  String.eqb name "enumeration" = false ->
  ParseFacet name value = Some f -> isEnumeration f = false.
Proof.
  intros Hn. unfold ParseFacet. rewrite Hn.
  repeat match goal with
         | |- context [if ?b then _ else _] => destruct b
         | |- context [Atoi ?v] => destruct (Atoi v)
         end; cbn; intros H; by simplify_eq.
Qed.

Lemma append_found facets value facets' :
  appendToFirstEnumeration facets value = Some facets' ->
  exists vs rest, enumerationFacets facets = EnumerationFacet vs :: rest /\
                  enumerationFacets facets' = EnumerationFacet (vs ++ [value]) :: rest.
Proof.
  revert facets'. induction facets as [|f facets IH]; intros facets'; [done|].
  destruct f; cbn;
    try (destruct (appendToFirstEnumeration facets value) as [l|] eqn:E; [|done];
         cbn; intros [= <-]; cbn; by apply IH).
  intros [= <-]. cbn. eauto.
Qed.

Lemma append_not_found facets value :
  appendToFirstEnumeration facets value = None -> enumerationFacets facets = [].
Proof.
  induction facets as [|f facets IH]; [done|].
  destruct f; cbn; try done;
    destruct (appendToFirstEnumeration facets value); cbn; try done; by auto.
Qed.

Lemma enumerationFacets_app l1 l2 :
  enumerationFacets (l1 ++ l2) = enumerationFacets l1 ++ enumerationFacets l2.
Proof. apply List.filter_app. Qed.

Section RestrictionLoop.
Variable parseQName : string -> QName.
Variable TargetNamespace : string.
Variable restrictionBaseName : nat -> string.

Local Abbreviation step := (restrictionStep TargetNamespace restrictionBaseName).
Local Abbreviation loop := (restrictionLoop TargetNamespace restrictionBaseName).

Lemma step_not_enumeration i child r :
  isEnumerationChild child = false ->
  enumerationFacets (rFacets (step i child r)) = enumerationFacets (rFacets r).
Proof.
  unfold isEnumerationChild, restrictionStep. intros H.
  destruct (String.eqb (NamespaceURI child) XSDNamespace); cbn in *; [|done].
  destruct (_ && _); [done|]. destruct (isContentChild _); [done|].
  rewrite H.
  destruct (ParseFacet _ _) as [f|] eqn:E; [|done]. cbn.
  rewrite enumerationFacets_app. cbn.
  rewrite (ParseFacet_other _ _ _ H E). apply app_nil_r.
Qed.

Lemma step_enumeration i child r vs rest :
  isEnumerationChild child = true ->
  enumerationFacets (rFacets r) = EnumerationFacet vs :: rest ->
  enumerationFacets (rFacets (step i child r))
  = EnumerationFacet (vs ++ [GetAttribute child "value"]) :: rest.
Proof.
  unfold isEnumerationChild, restrictionStep. intros H Hr.
  apply andb_true_iff in H as [H1 H2]. rewrite H1. cbn.
  apply String.eqb_eq in H2. rewrite H2. cbn.
  destruct (appendToFirstEnumeration _ _) as [facets'|] eqn:E; cbn.
  - apply append_found in E as (vs' & rest' & E1 & E2).
    rewrite Hr in E1. simplify_eq. exact E2.
  - apply append_not_found in E. rewrite Hr in E. done.
Qed.

Lemma step_first_enumeration i child r :
  isEnumerationChild child = true ->
  enumerationFacets (rFacets r) = [] ->
  enumerationFacets (rFacets (step i child r))
  = [EnumerationFacet [GetAttribute child "value"]].
Proof.
  unfold isEnumerationChild, restrictionStep. intros H Hr.
  apply andb_true_iff in H as [H1 H2]. rewrite H1. cbn.
  apply String.eqb_eq in H2. rewrite H2. cbn.
  destruct (appendToFirstEnumeration _ _) as [facets'|] eqn:E; cbn.
  - apply append_found in E as (vs' & rest' & E1 & E2).
    rewrite Hr in E1. done.
  - rewrite enumerationFacets_app, Hr. done.
Qed.

Lemma loop_enumerations children : forall i r,
  enumerationFacets (rFacets (loop i children r))
  = extendEnumeration (enumerationFacets (rFacets r)) (enumerationValues children).
Proof.
  induction children as [|child children IH]; intros i r.
  - cbn. by destruct (enumerationFacets (rFacets r)) as [|[] ?]; cbn; rewrite ?app_nil_r.
  - cbn [restrictionLoop]. rewrite IH. unfold enumerationValues. cbn [List.filter].
    destruct (isEnumerationChild child) eqn:Hc.
    + cbn [map].
      destruct (enumerationFacets (rFacets r)) as [|f rest] eqn:Hr.
      * rewrite (step_first_enumeration _ _ _ Hc Hr). cbn. done.
      * assert (isEnumeration f = true) as Hf.
        { assert (In f (enumerationFacets (rFacets r))) as Hin by (rewrite Hr; by left).
          by apply List.filter_In in Hin as [_ ?]. }
        destruct f; try done.
        rewrite (step_enumeration _ _ _ _ _ Hc Hr). cbn. by rewrite <- app_assoc.
    + by rewrite (step_not_enumeration _ _ _ Hc).
Qed.

(** C3 (amended): the [<xs:enumeration>] children of a restriction
    collapse into one enumeration facet, whose values are the [value]
    attributes of those children in document order, repeated values
    included; a restriction without such a child has no enumeration
    facet. *)
Theorem enumerations_collapse_in_order (elem : Element) :
  enumerationFacets
    (rFacets (parseRestriction parseQName TargetNamespace restrictionBaseName elem))
  = match enumerationValues (Children elem) with
    | [] => []
    | values => [EnumerationFacet values]
    end.
Proof.
  unfold parseRestriction. rewrite loop_enumerations.
  by destruct (negb _); cbn; destruct (enumerationValues _).
Qed.
End RestrictionLoop.

Definition enumeration (i : positive) (value : string) : Element :=
  mkElement i XSDNamespace "enumeration" [mkAttr "" "value" "value" value] [].

(** [<xs:restriction base="xs:string">] with two [<xs:enumeration
    value="a"/>] children. *)
Definition twiceA : Element :=
  mkElement 1 XSDNamespace "restriction"
            [mkAttr "" "base" "base" "xs:string"]
            [ElementNode (enumeration 2 "a"); ElementNode (enumeration 3 "a")].

(** C3 (as stated) fails on two [<xs:enumeration value="a"/>] siblings: the
    facet holds the value twice. *)
Lemma duplicate_enumeration_value_kept :
  rFacets (parseRestriction (fun n => mkQName XSDNamespace n) "" (fun _ => "") twiceA)
  = [EnumerationFacet ["a"; "a"]]
  /\ count_occ string_dec ["a"; "a"] "a" = 2.
Proof. split; reflexivity. Qed.

End EnumerationFacts.

(** * Whitespace normalization *)

Module Utf8Facts.
Import GoStrings.

(** A continuation byte: [locb <= b <= hicb]. *)
Definition isCont (c : ascii) : bool :=
  (locb <=? byteVal c)%N && (byteVal c <=? hicb)%N.

(** The string is empty or does not start with a continuation byte. *)
Definition ncHead (l : list ascii) : Prop :=
  match l with
  | [] => True
  | c :: _ => isCont c = false
  end.

Lemma outside_nc c lo hi :
  isCont c = false -> (locb <=? lo)%N = true -> (hi <=? hicb)%N = true ->
  outside lo hi (byteVal c) = true.
Proof.
  unfold isCont, outside, locb, hicb. intros H H1 H2.
  apply N.leb_le in H1, H2.
  apply andb_false_iff in H as [H|H]; apply N.leb_gt in H;
    apply orb_true_iff; [left|right]; apply N.ltb_lt; lia.
Qed.

Ltac nc_rewrite :=
  repeat match goal with
         | H : isCont ?c = false |- context [outside ?lo ?hi (byteVal ?c)] =>
           rewrite (outside_nc c lo hi H eq_refl eq_refl)
         end.

Ltac split_ifs :=
  repeat match goal with
         | |- context [if ?b then _ else _] => destruct b eqn:?
         end.

(** The first rune of [l1 ++ l2] is read inside [l1], and is the same for
    every continuation [l2] that cannot complete a sequence. *)
Lemma DecodeRune_ctx l1 l2 l2' :
  l1 <> [] -> ncHead l2 -> ncHead l2' ->
  DecodeRune (l1 ++ l2) = DecodeRune (l1 ++ l2') /\
  (snd (DecodeRune (l1 ++ l2)) <= List.length l1)%nat.
Proof.
  intros Hne H2 H2'.
  destruct l1 as [|c0 [|c1 [|c2 [|c3 l1]]]]; [done|..];
    destruct l2 as [|d l2]; destruct l2' as [|d' l2']; cbn in H2, H2';
    cbn [app]; unfold DecodeRune;
    destruct (first (byteVal c0)); cbn -[outside N.lor N.land N.shiftl];
    nc_rewrite; split_ifs; cbn; split; (reflexivity || lia).
Qed.

Lemma DecodeRune_width_pos s : s <> [] -> (1 <= snd (DecodeRune s))%nat.
Proof.
  destruct s as [|c0 t0]; [done|]. intros _. unfold DecodeRune.
  destruct (first (byteVal c0)); cbn -[outside N.lor N.land N.shiftl];
    try lia;
    destruct t0 as [|c1 [|c2 [|c3 t3]]]; cbn -[outside N.lor N.land N.shiftl];
    split_ifs; cbn; lia.
Qed.

Lemma DecodeRune_width_le s : (snd (DecodeRune s) <= List.length s)%nat.
Proof.
  destruct s as [|c0 t0]; [cbn; lia|].
  pose proof (DecodeRune_ctx (c0 :: t0) [] [] ltac:(done) I I) as [_ H].
  by rewrite app_nil_r in H.
Qed.

(** A rune that [IsSpace] accepts does not start with a continuation
    byte. *)
Lemma space_ncHead s :
  IsSpace (fst (DecodeRune s)) = true -> ncHead s.
Proof.
  destruct s as [|c0 t0]; [done|]. cbn [ncHead].
  destruct (isCont c0) eqn:Hc; [|done]. intros H. exfalso.
  unfold isCont, locb, hicb in Hc. apply andb_true_iff in Hc as [H1 H2].
  apply N.leb_le in H1, H2.
  assert (first (byteVal c0) = XX) as Hx.
  { unfold first.
    destruct (N.ltb_spec (byteVal c0) 128); [lia|].
    destruct (N.ltb_spec (byteVal c0) 194); [done|lia]. }
  unfold DecodeRune in H. rewrite Hx in H. by vm_compute in H.
Qed.

(** An ASCII byte is a rune of its own. *)
Lemma DecodeRune_ascii s c :
  c ∈ take (snd (DecodeRune s)) s -> (byteVal c < 128)%N ->
  fst (DecodeRune s) = byteVal c.
Proof.
  intros Hin Hc.
  assert (forall c', (byteVal c' < 128)%N -> isCont c' = false) as Hnc.
  { intros c' H. unfold isCont, locb. apply andb_false_iff. left.
    apply N.leb_gt. lia. }
  assert (forall c', (byteVal c' < 128)%N -> first (byteVal c') = AS) as Has.
  { intros c' H. unfold first. by destruct (N.ltb_spec (byteVal c') 128); [|lia]. }
  assert (forall c', first (byteVal c') = AS -> (byteVal c' < 128)%N) as Has'.
  { intros c'. unfold first. destruct (N.ltb_spec (byteVal c') 128); [done|].
    split_ifs; done. }
  destruct s as [|c0 t0]; [by apply elem_of_nil in Hin|].
  revert Hin. unfold DecodeRune.
  destruct (first (byteVal c0)) eqn:Hf;
    cbn -[outside N.lor N.land N.shiftl take].
  1: { cbn. intros Hin. apply list_elem_of_singleton in Hin. by subst. }
  1: { cbn. intros Hin. apply list_elem_of_singleton in Hin. subst.
       rewrite (Has _ Hc) in Hf. done. }
  all: destruct t0 as [|c1 [|c2 [|c3 t3]]];
    cbn -[outside N.lor N.land N.shiftl take]; split_ifs;
    cbn -[outside N.lor N.land N.shiftl];
    intros Hin; exfalso;
    repeat (apply elem_of_cons in Hin as [->|Hin]);
    try (by apply elem_of_nil in Hin);
    try (rewrite (Has _ Hc) in Hf; done);
    match goal with
    | H : outside ?lo ?hi (byteVal ?x) = false, Hx : (byteVal ?x < 128)%N |- _ =>
      rewrite (outside_nc x lo hi (Hnc _ Hx) eq_refl eq_refl) in H; done
    end.
Qed.
End Utf8Facts.

Module RangeFacts.
Import GoStrings Utf8Facts.

Definition chunkBytes (its : list (list ascii * N)) : list ascii :=
  concat (map fst its).

Lemma rangeFrom_fuel n s :
  (List.length s <= n)%nat -> rangeFrom n s = rangeFrom (List.length s) s.
Proof.
  revert s. induction n as [n IH] using lt_wf_ind. intros s Hn.
  destruct s as [|c t]; [by destruct n|].
  destruct n as [|n]; [cbn in Hn; lia|].
  cbn [List.length rangeFrom].
  pose proof (DecodeRune_width_pos (c :: t) ltac:(done)) as Hpos.
  pose proof (DecodeRune_width_le (c :: t)) as Hle.
  destruct (DecodeRune (c :: t)) as [r w]. cbn [snd] in *. f_equal.
  assert (List.length (drop w (c :: t)) <= List.length t)%nat as Hd.
  { rewrite length_drop. cbn [List.length]. lia. }
  cbn [List.length] in Hn.
  rewrite (IH n) by lia.
  symmetry. apply IH; [lia|done].
Qed.

Lemma rangeString_nil : rangeString [] = [].
Proof. done. Qed.

Lemma rangeString_cons s :
  s <> [] ->
  rangeString s =
    (take (snd (DecodeRune s)) s, fst (DecodeRune s))
      :: rangeString (drop (snd (DecodeRune s)) s).
Proof.
  intros Hne. unfold rangeString. destruct s as [|c t]; [done|].
  cbn [List.length rangeFrom].
  pose proof (DecodeRune_width_pos (c :: t) ltac:(done)) as Hpos.
  destruct (DecodeRune (c :: t)) as [r w]. cbn [fst snd] in *. f_equal.
  apply rangeFrom_fuel. rewrite length_drop. cbn [List.length]. lia.
Qed.

(** A string that cannot complete a sequence is read on its own. *)
Lemma rangeString_app l1 l2 :
  ncHead l2 -> rangeString (l1 ++ l2) = rangeString l1 ++ rangeString l2.
Proof.
  intros H2. remember (List.length l1) as n eqn:Hn.
  revert l1 Hn. induction n as [n IH] using lt_wf_ind. intros l1 Hn.
  destruct l1 as [|c t]; [done|].
  pose proof (DecodeRune_ctx (c :: t) l2 [] ltac:(done) H2 I) as [Heq Hle].
  rewrite app_nil_r in Heq.
  pose proof (DecodeRune_width_pos (c :: t) ltac:(done)) as Hpos.
  rewrite (rangeString_cons ((c :: t) ++ l2)) by done.
  rewrite (rangeString_cons (c :: t)) by done.
  rewrite Heq in *. set (w := snd (DecodeRune (c :: t))) in *.
  rewrite take_app_le, drop_app_le by done.
  cbn [app]. f_equal.
  apply (IH (List.length (drop w (c :: t)))); [|done].
  rewrite Hn, length_drop. cbn [List.length] in *. lia.
Qed.

Lemma chunkBytes_rangeString s : chunkBytes (rangeString s) = s.
Proof.
  remember (List.length s) as n eqn:Hn.
  revert s Hn. induction n as [n IH] using lt_wf_ind. intros s Hn.
  destruct s as [|c t]; [done|].
  rewrite rangeString_cons by done. unfold chunkBytes. cbn [map concat fst].
  pose proof (DecodeRune_width_pos (c :: t) ltac:(done)) as Hpos.
  fold (chunkBytes (rangeString (drop (snd (DecodeRune (c :: t))) (c :: t)))).
  rewrite (IH (List.length (drop (snd (DecodeRune (c :: t))) (c :: t)))); [|..|done].
  - apply take_drop.
  - rewrite Hn, length_drop. cbn [List.length] in *. lia.
Qed.

(** A list of iterations that is the reading of its own bytes. *)
Definition selfRead (its : list (list ascii * N)) : Prop :=
  rangeString (chunkBytes its) = its.

Lemma selfRead_rangeString s : selfRead (rangeString s).
Proof. unfold selfRead. by rewrite chunkBytes_rangeString. Qed.

Lemma chunkBytes_app its1 its2 :
  chunkBytes (its1 ++ its2) = chunkBytes its1 ++ chunkBytes its2.
Proof. unfold chunkBytes. by rewrite map_app, concat_app. Qed.

Lemma selfRead_cons_inv it its :
  selfRead (it :: its) ->
  selfRead its /\ it.1 <> [] /\
  DecodeRune (chunkBytes (it :: its)) = (it.2, List.length it.1).
Proof.
  unfold selfRead. intros H.
  assert (chunkBytes (it :: its) <> []) as Hne.
  { intros E. by rewrite E in H. }
  rewrite rangeString_cons in H by done.
  pose proof (DecodeRune_width_pos _ Hne) as Hpos.
  pose proof (DecodeRune_width_le (chunkBytes (it :: its))) as Hle.
  destruct (DecodeRune (chunkBytes (it :: its))) as [r w]. cbn [fst snd] in *.
  injection H as H1 H2.
  destruct it as [bs r']. cbn [fst snd] in *.
  injection H1 as H1 <-.
  assert (List.length bs = w) as Hw.
  { rewrite <- H1, length_take. lia. }
  assert (drop w (chunkBytes ((bs, r) :: its)) = chunkBytes its) as Hd.
  { change (chunkBytes ((bs, r) :: its)) with (bs ++ chunkBytes its).
    rewrite <- Hw. by rewrite drop_app_length. }
  rewrite Hd in H2. repeat split; [done| |by rewrite Hw].
  intros ->. cbn in Hw. lia.
Qed.

Lemma selfRead_app_inv its1 its2 : selfRead (its1 ++ its2) -> selfRead its2.
Proof.
  induction its1 as [|it its1 IH]; [done|].
  intros H. apply IH. by apply selfRead_cons_inv in H as [? _].
Qed.

(** The bytes of a reading that starts with a space cannot complete a
    sequence. *)
Lemma selfRead_space_ncHead it its :
  selfRead (it :: its) -> IsSpace it.2 = true -> ncHead (chunkBytes (it :: its)).
Proof.
  intros H Hsp. apply selfRead_cons_inv in H as (_ & _ & Hd).
  apply space_ncHead. by rewrite Hd.
Qed.

(** A run of iterations followed by a space or by the end is the reading
    of its own bytes. *)
Lemma selfRead_run run its :
  selfRead (run ++ its) ->
  match its with [] => True | it :: _ => IsSpace it.2 = true end ->
  selfRead run.
Proof.
  intros H Hsp.
  assert (ncHead (chunkBytes its)) as Hnc.
  { destruct its as [|it its]; [done|].
    apply selfRead_space_ncHead; [|done]. by apply selfRead_app_inv in H. }
  pose proof (selfRead_app_inv _ _ H) as Hits.
  unfold selfRead in *.
  rewrite chunkBytes_app, (rangeString_app _ _ Hnc), Hits in H.
  by apply app_inv_tail in H.
Qed.
End RangeFacts.

Module WhiteSpaceFacts.
Import GoStrings Utf8Facts RangeFacts Facets.

Definition nonspace (it : list ascii * N) : Prop := IsSpace it.2 = false.

(** A field: not empty, and read as runes that are not spaces. *)
Definition field (t : list ascii) : Prop :=
  t <> [] /\ Forall nonspace (rangeString t).

Definition extend (cur : option (list ascii)) (run : list (list ascii * N))
  : option (list ascii) :=
  match run with
  | [] => cur
  | _ => Some (default [] cur ++ chunkBytes run)
  end.

Lemma fieldsLoop_run run : forall rest cur,
  Forall nonspace run ->
  fieldsLoop IsSpace (run ++ rest) cur = fieldsLoop IsSpace rest (extend cur run).
Proof.
  induction run as [|[bs r] run IH]; intros rest cur Hrun; [done|].
  apply Forall_cons in Hrun as [Hr Hrun]. unfold nonspace in Hr. cbn in Hr.
  cbn [app fieldsLoop]. rewrite Hr, (IH _ _ Hrun).
  f_equal. unfold extend, chunkBytes. cbn [map concat fst].
  destruct run as [|it run]; destruct cur as [w|]; cbn;
    by rewrite ?app_nil_r, ?app_assoc.
Qed.

Definition curOf (run : list (list ascii * N)) : option (list ascii) :=
  match run with [] => None | _ => Some (chunkBytes run) end.

Lemma field_of_run run :
  run <> [] -> selfRead run -> Forall nonspace run -> field (chunkBytes run).
Proof.
  intros Hne Hself Hns. split; [|by rewrite Hself].
  destruct run as [|it run]; [done|].
  apply selfRead_cons_inv in Hself as (_ & Hb & _).
  unfold chunkBytes. cbn. by destruct (it.1).
Qed.

Lemma fieldsLoop_fields its : forall run,
  selfRead (run ++ its) -> Forall nonspace run ->
  Forall field (fieldsLoop IsSpace its (curOf run)).
Proof.
  induction its as [|[bs r] its IH]; intros run Hself Hns.
  - rewrite app_nil_r in Hself. destruct run as [|it run]; cbn [fieldsLoop curOf]; [done|].
    apply Forall_singleton. by apply field_of_run.
  - cbn [fieldsLoop]. destruct (IsSpace r) eqn:Hr.
    + pose proof (selfRead_app_inv _ _ Hself) as Hrest.
      apply selfRead_cons_inv in Hrest as [Hrest _].
      assert (Forall field (fieldsLoop IsSpace its None)) as Htail.
      { by apply (IH []). }
      destruct run as [|it run]; cbn [fieldsLoop curOf]; [done|].
      apply Forall_cons. split; [|done].
      apply field_of_run; [done| |done].
      by apply (selfRead_run _ ((bs, r) :: its)).
    + assert (Some (match curOf run with Some w => w ++ bs | None => bs end)
              = curOf (run ++ [(bs, r)])) as ->.
      { destruct run as [|it run]; cbn [curOf app].
        - unfold chunkBytes. cbn. by rewrite app_nil_r.
        - f_equal. change (it :: run ++ [(bs, r)]) with ((it :: run) ++ [(bs, r)]).
          rewrite chunkBytes_app. f_equal. unfold chunkBytes. cbn.
          by rewrite app_nil_r. }
      apply IH.
      * by rewrite <- app_assoc.
      * apply Forall_app. split; [done|]. by apply Forall_singleton.
Qed.

Lemma FieldsBytes_fields s : Forall field (FieldsBytes s).
Proof.
  apply (fieldsLoop_fields (rangeString s) []); [|done].
  apply selfRead_rangeString.
Qed.

Lemma rangeString_nonempty s : s <> [] -> rangeString s <> [].
Proof. intros H. by rewrite rangeString_cons. Qed.

Lemma scan_field t rest :
  field t -> ncHead rest ->
  fieldsLoop IsSpace (rangeString (t ++ rest)) None
  = fieldsLoop IsSpace (rangeString rest) (Some t).
Proof.
  intros [Hne Hns] Hnc.
  rewrite (rangeString_app _ _ Hnc), (fieldsLoop_run _ _ _ Hns).
  f_equal. unfold extend.
  pose proof (rangeString_nonempty _ Hne).
  destruct (rangeString t) eqn:E; [done|]. rewrite <- E.
  by rewrite chunkBytes_rangeString.
Qed.

Lemma rangeString_space l :
  rangeString (SP :: l) = ([SP], 32%N) :: rangeString l.
Proof. by rewrite rangeString_cons. Qed.

(** Splitting what [Join] has put together gives the fields back. *)
Lemma FieldsBytes_Join toks :
  Forall field toks -> FieldsBytes (JoinBytes toks [SP]) = toks.
Proof.
  induction toks as [|t toks IH]; intros Hf; [done|].
  apply Forall_cons in Hf as [Ht Hf]. unfold FieldsBytes, FieldsFunc in *.
  destruct toks as [|t2 toks].
  - cbn [JoinBytes]. rewrite <- (app_nil_r t) at 1.
    by rewrite (scan_field t [] Ht I).
  - change (JoinBytes (t :: t2 :: toks) [SP])
      with (t ++ SP :: JoinBytes (t2 :: toks) [SP]).
    rewrite (scan_field t _ Ht) by done.
    rewrite rangeString_space. cbn [fieldsLoop].
    change (IsSpace 32) with true. cbn match. f_equal. by apply IH.
Qed.

(** Inside a reading, an ASCII byte is a rune of its own. *)
Lemma rangeString_ascii s : forall bs r c,
  (bs, r) ∈ rangeString s -> c ∈ bs -> (byteVal c < 128)%N -> r = byteVal c.
Proof.
  remember (List.length s) as n eqn:Hn.
  revert s Hn. induction n as [n IH] using lt_wf_ind. intros s Hn bs r c Hin Hc Hlt.
  destruct s as [|c0 t]; [by apply elem_of_nil in Hin|].
  rewrite rangeString_cons in Hin by done.
  pose proof (DecodeRune_width_pos (c0 :: t) ltac:(done)) as Hpos.
  apply elem_of_cons in Hin as [Hin|Hin].
  - remember (DecodeRune (c0 :: t)) as d eqn:Hd.
    injection Hin as -> ->. rewrite Hd in *. by apply DecodeRune_ascii.
  - eapply (IH (List.length (drop (snd (DecodeRune (c0 :: t))) (c0 :: t)))); try done.
    rewrite Hn, length_drop. cbn [List.length]. lia.
Qed.

Lemma field_no_ascii_space t c :
  field t -> c ∈ t -> (byteVal c < 128)%N -> IsSpace (byteVal c) = false.
Proof.
  intros [_ Hns] Hin Hlt.
  rewrite <- (chunkBytes_rangeString t) in Hin. unfold chunkBytes in Hin.
  apply list_elem_of_In, in_concat in Hin as (bs & Hbs & Hc).
  apply in_map_iff in Hbs as ([bs' r] & <- & Hit). cbn [fst] in Hc.
  apply list_elem_of_In in Hc, Hit.
  rewrite <- (rangeString_ascii _ _ _ _ Hit Hc Hlt).
  rewrite Forall_forall in Hns. by apply (Hns _ Hit).
Qed.

Lemma replaceByte_absent old new l :
  old ∉ l -> replaceByte old new l = l.
Proof.
  induction l as [|c l IH]; [done|]. intros H.
  apply not_elem_of_cons in H as [H1 H2].
  change (replaceByte old new (c :: l))
    with ((if Ascii.eqb c old then new else c) :: replaceByte old new l).
  rewrite (IH H2).
  destruct (Ascii.eqb_spec c old); [by subst|done].
Qed.

(** [normalizeReplace], on bytes. *)
Definition replaceBytes (l : list ascii) : list ascii :=
  replaceByte CR SP (replaceByte LF SP (replaceByte TAB SP l)).

Lemma bytes_ofBytes l : bytes (ofBytes l) = l.
Proof. apply list_ascii_of_string_of_list_ascii. Qed.

Lemma ofBytes_bytes s : ofBytes (bytes s) = s.
Proof. apply string_of_list_ascii_of_string. Qed.

Lemma bytes_normalizeReplace v : bytes (normalizeReplace v) = replaceBytes (bytes v).
Proof. unfold normalizeReplace, ReplaceAll1, replaceBytes. by rewrite !bytes_ofBytes. Qed.

Definition whiteByte (c : ascii) : bool :=
  Ascii.eqb c TAB || Ascii.eqb c LF || Ascii.eqb c CR.

(** [replace] substitutes TAB, LF and CR with a space, byte by byte. *)
Lemma replaceBytes_map l :
  replaceBytes l = map (fun c => if whiteByte c then SP else c) l.
Proof.
  unfold replaceBytes, replaceByte. rewrite !map_map. apply map_ext. intros c.
  unfold whiteByte.
  destruct (Ascii.eqb_spec c TAB) as [->|?]; [done|].
  destruct (Ascii.eqb_spec c LF) as [->|?]; [done|].
  by destruct (Ascii.eqb_spec c CR) as [->|?].
Qed.

Lemma replaceBytes_absent l :
  (forall c, c ∈ l -> whiteByte c = false) -> replaceBytes l = l.
Proof.
  intros H. rewrite replaceBytes_map. rewrite <- (map_id l) at 2.
  apply map_ext_in. intros c Hc. apply list_elem_of_In in Hc. by rewrite (H c Hc).
Qed.

Lemma whiteByte_space c :
  whiteByte c = true -> (byteVal c < 128)%N /\ IsSpace (byteVal c) = true.
Proof.
  unfold whiteByte. intros H.
  apply orb_true_iff in H as [H|H]; [apply orb_true_iff in H as [H|H]|];
    apply Ascii.eqb_eq in H; subst; by vm_compute.
Qed.

Lemma Join_fields_no_white toks c :
  Forall field toks -> c ∈ JoinBytes toks [SP] -> whiteByte c = false.
Proof.
  induction toks as [|t toks IH]; intros Hf Hin; [by apply elem_of_nil in Hin|].
  apply Forall_cons in Hf as [Ht Hf].
  assert (c ∈ t -> whiteByte c = false) as Htok.
  { intros Hc. destruct (whiteByte c) eqn:E; [|done].
    apply whiteByte_space in E as [Hlt Hsp].
    by rewrite (field_no_ascii_space t c Ht Hc Hlt) in Hsp. }
  destruct toks as [|t2 toks]; [by apply Htok|].
  change (JoinBytes (t :: t2 :: toks) [SP])
    with (t ++ SP :: JoinBytes (t2 :: toks) [SP]) in Hin.
  apply elem_of_app in Hin as [Hin|Hin]; [by apply Htok|].
  apply elem_of_cons in Hin as [->|Hin]; [done|]. by apply IH.
Qed.

(** [NormalizeWhiteSpace(v, "collapse")], on bytes. *)
Definition collapseBytes (l : list ascii) : list ascii :=
  JoinBytes (FieldsBytes (replaceBytes l)) [SP].

Lemma bytes_collapse v :
  bytes (NormalizeWhiteSpace v "collapse") = collapseBytes (bytes v).
Proof.
  unfold NormalizeWhiteSpace. cbn [String.eqb Ascii.eqb Bool.eqb].
  unfold Join, Fields, collapseBytes.
  rewrite bytes_ofBytes, map_map, bytes_normalizeReplace.
  f_equal. rewrite <- (map_id (FieldsBytes _)) at 2.
  apply map_ext. intros l. apply bytes_ofBytes.
Qed.

Lemma collapseBytes_idempotent l : collapseBytes (collapseBytes l) = collapseBytes l.
Proof.
  unfold collapseBytes.
  pose proof (FieldsBytes_fields (replaceBytes l)) as Hf.
  rewrite (replaceBytes_absent (JoinBytes _ _)).
  - by rewrite (FieldsBytes_Join _ Hf).
  - intros c. by apply Join_fields_no_white.
Qed.

Lemma replaceBytes_idempotent l : replaceBytes (replaceBytes l) = replaceBytes l.
Proof.
  rewrite !replaceBytes_map, map_map. apply map_ext. intros c.
  by destruct (whiteByte c) eqn:E; [|rewrite E].
Qed.

Lemma bytes_inj s1 s2 : bytes s1 = bytes s2 -> s1 = s2.
Proof. intros H. by rewrite <- (ofBytes_bytes s1), H, ofBytes_bytes. Qed.

(** C6: whitespace normalization is idempotent.  For every string [v],
    collapsing a collapsed value and replacing in a replaced value change
    nothing.  [replace] puts a space for every TAB, LF and CR byte, and
    [collapse] joins with single spaces the fields of the replaced value,
    which drops leading and trailing white space and folds inner runs. *)
Theorem NormalizeWhiteSpace_idempotent (v : string) :
  NormalizeWhiteSpace (NormalizeWhiteSpace v "collapse") "collapse"
    = NormalizeWhiteSpace v "collapse" /\
  NormalizeWhiteSpace (NormalizeWhiteSpace v "replace") "replace"
    = NormalizeWhiteSpace v "replace" /\
  bytes (NormalizeWhiteSpace v "replace")
    = map (fun c => if whiteByte c then SP else c) (bytes v) /\
  bytes (NormalizeWhiteSpace v "collapse")
    = JoinBytes (FieldsBytes (bytes (NormalizeWhiteSpace v "replace"))) [SP].
Proof.
  repeat split.
  - apply bytes_inj. rewrite !bytes_collapse. apply collapseBytes_idempotent.
  - apply bytes_inj. unfold NormalizeWhiteSpace. cbn [String.eqb Ascii.eqb Bool.eqb].
    rewrite !bytes_normalizeReplace. apply replaceBytes_idempotent.
  - unfold NormalizeWhiteSpace. cbn [String.eqb Ascii.eqb Bool.eqb].
    by rewrite bytes_normalizeReplace, replaceBytes_map.
  - rewrite bytes_collapse. unfold NormalizeWhiteSpace at 1.
    cbn [String.eqb Ascii.eqb Bool.eqb]. by rewrite bytes_normalizeReplace.
Qed.

Example collapse_example :
  NormalizeWhiteSpace (String TAB " a  b" ++ String LF "c ") "collapse" = "a b c".
Proof. vm_compute. reflexivity. Qed.
End WhiteSpaceFacts.

(** * The type-compatibility walk and substitution groups *)

Module CompatFacts.
Import Components Compat.

(** The type the walk moves to from [actual]: the base of its extension or
    restriction that [TypeDefs] defines. *)
Definition nextBase (TypeDefs : gmap QName XsdType) (actual : XsdType) : option XsdType :=
  match actual with
  | ComplexTypeT ct =>
    match ctContent ct with
    | Some (ComplexContentC cc) =>
      match extensionBaseType TypeDefs (ccExtension cc) with
      | Some b => Some b
      | None => restrictionBaseType TypeDefs (ccRestriction cc)
      end
    | Some (SimpleContentC sc) =>
      match extensionBaseType TypeDefs (scExtension sc) with
      | Some b => Some b
      | None => restrictionBaseType TypeDefs (scRestriction sc)
      end
    | _ => None
    end
  | SimpleTypeT st => restrictionBaseType TypeDefs (stRestriction st)
  end.

Lemma walk_unfold fuel TypeDefs actual expected visited :
  isTypeCompatibleWithCycleDetection (S fuel) TypeDefs (Some actual) (Some expected) visited
  = if bool_decide (TypeName actual = TypeName expected) then Some true
    else if bool_decide (TypeName actual ∈ visited) then Some false
    else match nextBase TypeDefs actual with
         | Some b =>
           isTypeCompatibleWithCycleDetection fuel TypeDefs (Some b) (Some expected)
                                              ({[TypeName actual]} ∪ visited)
         | None => Some false
         end.
Proof.
  cbn [isTypeCompatibleWithCycleDetection].
  repeat case_bool_decide; try done.
  destruct actual as [st|ct]; cbn [nextBase]; [by destruct (restrictionBaseType _ _)|].
  destruct (ctContent ct) as [[sc|cc| | |]|]; try done.
  - by destruct (extensionBaseType _ _); [|destruct (restrictionBaseType _ _)].
  - by destruct (extensionBaseType _ _); [|destruct (restrictionBaseType _ _)].
Qed.

Lemma walk_nil fuel TypeDefs actual expected visited :
  actual = None \/ expected = None ->
  isTypeCompatibleWithCycleDetection (S fuel) TypeDefs actual expected visited = Some false.
Proof. intros [-> | ->]; cbn; [done|by destruct actual]. Qed.

(** The types [TypeDefs] holds, and their names. *)
Definition defined (TypeDefs : gmap QName XsdType) (t : XsdType) : Prop :=
  exists q, TypeDefs !! q = Some t.

Definition typeNames (TypeDefs : gmap QName XsdType) : gset QName :=
  list_to_set (TypeName <$> (map_to_list TypeDefs).*2).

Lemma typeNames_defined TypeDefs t :
  defined TypeDefs t -> TypeName t ∈ typeNames TypeDefs.
Proof.
  intros [q Hq]. unfold typeNames. apply elem_of_list_to_set, list_elem_of_fmap.
  exists t. split; [done|]. apply list_elem_of_fmap. exists (q, t).
  split; [done|]. by apply elem_of_map_to_list.
Qed.

Lemma size_list_to_set_le (l : list QName) :
  size (list_to_set l : gset QName) <= List.length l.
Proof.
  induction l as [|x l IH]; cbn [list_to_set List.length].
  - by rewrite size_empty.
  - rewrite size_union_alt, size_singleton.
    assert (size (list_to_set l ∖ {[x]} : gset QName) <= size (list_to_set l : gset QName)).
    { apply subseteq_size. set_solver. }
    lia.
Qed.

Lemma typeNames_size TypeDefs : size (typeNames TypeDefs) <= size TypeDefs.
Proof.
  unfold typeNames. etrans; [apply size_list_to_set_le|].
  by rewrite !length_fmap, length_map_to_list.
Qed.

Lemma nextBase_defined TypeDefs a b : nextBase TypeDefs a = Some b -> defined TypeDefs b.
Proof.
  assert (forall e, extensionBaseType TypeDefs e = Some b -> defined TypeDefs b) as He.
  { intros [e|]; cbn; [|done]. destruct (negb _); [|done]. by exists (extBase e). }
  assert (forall r, restrictionBaseType TypeDefs r = Some b -> defined TypeDefs b) as Hr.
  { intros [r|]; cbn; [|done]. destruct (negb _); [|done]. by exists (Facets.Base r). }
  destruct a as [st|ct]; cbn; [by apply Hr|].
  destruct (ctContent ct) as [[sc|cc| | |]|]; try done.
  - destruct (extensionBaseType _ _) eqn:E; [intros [= <-]; by eapply He|apply Hr].
  - destruct (extensionBaseType _ _) eqn:E; [intros [= <-]; by eapply He|apply Hr].
Qed.

(** From a defined type, the walk returns within as many calls as there
    are names that it has not visited, plus one. *)
Lemma walk_defined_total fuel TypeDefs : forall actual expected visited,
  defined TypeDefs actual ->
  size (typeNames TypeDefs ∖ visited) < fuel ->
  is_Some (isTypeCompatibleWithCycleDetection fuel TypeDefs (Some actual) expected visited).
Proof.
  induction fuel as [|fuel IH]; intros actual expected visited Hdef Hsize; [lia|].
  destruct expected as [expected|]; [|by rewrite walk_nil; eauto].
  rewrite walk_unfold. repeat case_bool_decide; try done.
  destruct (nextBase TypeDefs actual) as [b|] eqn:Hb; [|done].
  apply IH; [by eapply nextBase_defined|].
  pose proof (typeNames_defined _ _ Hdef) as Hin.
  assert (typeNames TypeDefs ∖ ({[TypeName actual]} ∪ visited)
          ⊂ typeNames TypeDefs ∖ visited) as Hsub by set_solver.
  apply subset_size in Hsub. lia.
Qed.

Lemma walk_total TypeDefs actual expected visited :
  is_Some (isTypeCompatibleWithCycleDetection (walkFuel TypeDefs) TypeDefs
                                             actual expected visited).
Proof.
  unfold walkFuel.
  destruct actual as [actual|]; [|by rewrite walk_nil; eauto].
  destruct expected as [expected|]; [|by rewrite walk_nil; eauto].
  rewrite walk_unfold. repeat case_bool_decide; try done.
  destruct (nextBase TypeDefs actual) as [b|] eqn:Hb; [|done].
  apply walk_defined_total; [by eapply nextBase_defined|].
  pose proof (typeNames_size TypeDefs).
  assert (size (typeNames TypeDefs ∖ ({[TypeName actual]} ∪ visited))
          <= size (typeNames TypeDefs)); [|lia].
  apply subseteq_size. set_solver.
Qed.

(** More fuel does not change a verdict. *)
Lemma walk_fuel_mono fuel TypeDefs : forall actual expected visited b,
  isTypeCompatibleWithCycleDetection fuel TypeDefs actual expected visited = Some b ->
  isTypeCompatibleWithCycleDetection (S fuel) TypeDefs actual expected visited = Some b.
Proof.
  induction fuel as [|fuel IH]; intros actual expected visited b; [done|].
  destruct actual as [actual|]; [|by rewrite !walk_nil; eauto].
  destruct expected as [expected|]; [|by rewrite !walk_nil; eauto].
  rewrite !walk_unfold. repeat case_bool_decide; try done.
  destruct (nextBase TypeDefs actual) as [base|]; [apply IH|done].
Qed.

Lemma walk_fuel_ge fuel fuel' TypeDefs actual expected visited b :
  fuel <= fuel' ->
  isTypeCompatibleWithCycleDetection fuel TypeDefs actual expected visited = Some b ->
  isTypeCompatibleWithCycleDetection fuel' TypeDefs actual expected visited = Some b.
Proof.
  induction 1 as [|m Hle IH]; [done|]. intros Hw. by apply walk_fuel_mono, IH.
Qed.

(** The [None] branch of [isTypeCompatible] is dead code. *)
Lemma isTypeCompatible_walk s actual expected :
  isTypeCompatibleWithCycleDetection (walkFuel (TypeDefs s)) (TypeDefs s)
                                     actual expected ∅
  = Some (isTypeCompatible s actual expected).
Proof.
  unfold isTypeCompatible.
  by destruct (walk_total (TypeDefs s) actual expected ∅) as [b ->].
Qed.

(** [derives TypeDefs a n]: a chain of extension/restriction steps leads
    from [a] to a type named [n] (in no step: [a] is named [n]). *)
Inductive derives (TypeDefs : gmap QName XsdType) : XsdType -> QName -> Prop :=
| derives_refl a : derives TypeDefs a (TypeName a)
| derives_step a b n :
    nextBase TypeDefs a = Some b -> derives TypeDefs b n -> derives TypeDefs a n.

Lemma walk_sound fuel TypeDefs : forall actual expected visited,
  isTypeCompatibleWithCycleDetection fuel TypeDefs (Some actual) (Some expected) visited
  = Some true ->
  derives TypeDefs actual (TypeName expected).
Proof.
  induction fuel as [|fuel IH]; intros actual expected visited; [done|].
  rewrite walk_unfold. repeat case_bool_decide; try done.
  - intros _. rewrite <- H. constructor.
  - destruct (nextBase TypeDefs actual) as [b|] eqn:Hb; [|done].
    intros Hw. eapply derives_step; [done|]. by eapply IH.
Qed.

Lemma isTypeCompatible_sound s actual expected :
  isTypeCompatible s actual expected = true ->
  exists a e, actual = Some a /\ expected = Some e /\
              derives (TypeDefs s) a (TypeName e).
Proof.
  intros H. pose proof (isTypeCompatible_walk s actual expected) as Hw.
  rewrite H in Hw. unfold walkFuel in Hw.
  destruct actual as [a|]; [|by rewrite walk_nil in Hw; eauto].
  destruct expected as [e|]; [|by rewrite walk_nil in Hw; eauto].
  exists a, e. repeat split. by eapply walk_sound.
Qed.

(** [calls TypeDefs expected (a, v) (c, w)]: the walk entered with the type
    [a] and the visited set [v] comes to call itself with [c] and [w]. *)
Inductive calls (TypeDefs : gmap QName XsdType) (expected : XsdType)
  : XsdType * gset QName -> XsdType * gset QName -> Prop :=
| calls_here a v : calls TypeDefs expected (a, v) (a, v)
| calls_step a v b c w :
    TypeName a <> TypeName expected -> TypeName a ∉ v ->
    nextBase TypeDefs a = Some b ->
    calls TypeDefs expected (b, {[TypeName a]} ∪ v) (c, w) ->
    calls TypeDefs expected (a, v) (c, w).

(** The name looked for never enters the visited set. *)
Lemma calls_expected_unvisited TypeDefs expected from to :
  calls TypeDefs expected from to ->
  TypeName expected ∉ from.2 -> TypeName expected ∉ to.2.
Proof. induction 1; cbn in *; [done|]. intros Hv. apply IHcalls. set_solver. Qed.

(** C5: the type-compatibility walk terminates, and a revisit is answered
    with false.  For all type definitions, types and visited sets there is
    a verdict that the walk returns for every fuel from [walkFuel TypeDefs]
    (the number of definitions plus two) on, cyclic derivation chains
    included.  Entered with a type whose name is in the visited set and is
    not the name looked for, the walk returns false at once; and in a walk
    started with the empty set, as [isTypeCompatible] starts it, every type
    met again has such a name, so a cycle never yields true. *)
Theorem type_walk_terminates_and_rejects_revisits
        (TypeDefs : gmap QName XsdType) (actual expected : option XsdType)
        (visited : gset QName) :
  (exists b, forall fuel, walkFuel TypeDefs <= fuel ->
     isTypeCompatibleWithCycleDetection fuel TypeDefs actual expected visited = Some b) /\
  (forall a e fuel,
     actual = Some a -> expected = Some e ->
     TypeName a ∈ visited -> TypeName a <> TypeName e ->
     isTypeCompatibleWithCycleDetection (S fuel) TypeDefs actual expected visited
     = Some false) /\
  (forall a0 a e fuel,
     actual = Some a -> expected = Some e ->
     calls TypeDefs e (a0, ∅) (a, visited) -> TypeName a ∈ visited ->
     isTypeCompatibleWithCycleDetection (S fuel) TypeDefs actual expected visited
     = Some false).
Proof.
  split; [|split].
  - destruct (walk_total TypeDefs actual expected visited) as [b Hb].
    exists b. intros fuel Hle. by eapply walk_fuel_ge.
  - intros a e fuel -> -> Hin Hne. rewrite walk_unfold.
    by rewrite bool_decide_false, bool_decide_true.
  - intros a0 a e fuel -> -> Hcalls Hin. rewrite walk_unfold.
    pose proof (calls_expected_unvisited _ _ _ _ Hcalls) as Hun. cbn in Hun.
    rewrite bool_decide_false, bool_decide_true; [done|done|].
    intros Heq. rewrite Heq in Hin. apply Hun; [set_solver|done].
Qed.

(** Two complex types that extend each other, and an unrelated one. *)
Definition qn (l : string) : QName := mkQName "urn:t" l.

Definition extending (name base : string) : XsdType :=
  ComplexTypeT
    (mkComplexType (qn name)
       (Some (ComplexContentC
                (mkComplexContent false (mkQName "" "") (Some (mkExtension (qn base))) None)))
       false false).

Definition plain (name : string) : XsdType :=
  ComplexTypeT (mkComplexType (qn name) None false false).

Definition cyclicTypes : gmap QName XsdType :=
  {[ qn "A" := extending "A" "B"; qn "B" := extending "B" "A" ]}.

Lemma cyclic_walk_witness :
  isTypeCompatibleWithCycleDetection 1 cyclicTypes (Some (extending "A" "B"))
                                     (Some (plain "C")) {[qn "A"]} = Some false /\
  exists b, forall fuel, walkFuel cyclicTypes <= fuel ->
    isTypeCompatibleWithCycleDetection fuel cyclicTypes (Some (extending "A" "B"))
                                       (Some (plain "C")) {[qn "A"]} = Some b.
Proof.
  destruct (type_walk_terminates_and_rejects_revisits
              cyclicTypes (Some (extending "A" "B")) (Some (plain "C")) {[qn "A"]})
    as (H1 & H2 & _).
  split; [|exact H1].
  apply (H2 (extending "A" "B") (plain "C") 0); [done|done|set_solver|done].
Defined.

Example cyclic_walk_from_scratch :
  isTypeCompatibleWithCycleDetection (walkFuel cyclicTypes) cyclicTypes
    (Some (extending "A" "B")) (Some (plain "C")) ∅ = Some false.
Proof. vm_compute. reflexivity. Qed.

(** ** Substitution groups *)

Section SchemaInduction.
Variable P : Schema -> Prop.
Hypothesis step : forall tns decls types groups imports sg,
    Forall (fun entry => P entry.2) imports ->
    P (mkSchema tns decls types groups imports sg).

Fixpoint Schema_nested_ind (s : Schema) : P s :=
  match s with
  | mkSchema tns decls types groups imports sg =>
    step tns decls types groups imports sg
         ((fix all (l : list (string * Schema)) : Forall (fun entry => P entry.2) l :=
             match l with
             | [] => @List.Forall_nil _ _
             | entry :: l' =>
               @List.Forall_cons _ _ entry l' (Schema_nested_ind entry.2) (all l')
             end) imports)
  end.
End SchemaInduction.

(** [E] is a member of the bucket of [X] in the schema's own index. *)
Definition inOwnIndex (s : Schema) (E X : QName) : bool :=
  match SubstitutionGroups s !! X with
  | Some members => bool_decide (E ∈ members)
  | None => false
  end.

(** [E] is listed under [X] in the index of the schema or of a schema it
    imports, directly or through other imports. *)
Fixpoint listedUnder (s : Schema) (E X : QName) {struct s} : bool :=
  match s with
  | mkSchema _ _ _ _ imports _ =>
    inOwnIndex s E X || existsb (fun imported => listedUnder imported.2 E X) imports
  end.

Lemma isSubstitutableFor_unfold s E X :
  isSubstitutableFor s E X
  = if inOwnIndex s E X then memberVerdict s E X
    else existsb (fun imported => isSubstitutableFor imported.2 E X) (ImportedSchemas s).
Proof. by destruct s. Qed.

Lemma isSubstitutableFor_listed s E X :
  isSubstitutableFor s E X = true -> listedUnder s E X = true.
Proof.
  induction s as [tns decls types groups imports sg IH] using Schema_nested_ind.
  rewrite isSubstitutableFor_unfold. cbn [listedUnder ImportedSchemas].
  destruct (inOwnIndex _ E X); [done|]. cbn [orb].
  rewrite !existsb_exists. intros (imp & Hin & Himp). exists imp. split; [done|].
  rewrite Forall_forall in IH. apply IH; [|done]. by apply list_elem_of_In.
Qed.

(** ** The type check on registered definitions

    [wellKeyed]: every definition is stored under its own name, as the
    parser stores the named types.  [registered]: the type is the
    definition stored under its name.  [unshadowed]: no other definition is
    stored under the name of the type; so are the registered definitions,
    and the inline types as long as no definition carries their name. *)
Definition wellKeyed (TypeDefs : gmap QName XsdType) : Prop :=
  map_Forall (fun q t => TypeName t = q) TypeDefs.

Definition registered (TypeDefs : gmap QName XsdType) (t : XsdType) : Prop :=
  TypeDefs !! TypeName t = Some t.

Definition unshadowed (TypeDefs : gmap QName XsdType) (t : XsdType) : Prop :=
  forall d, TypeDefs !! TypeName t = Some d -> d = t.

(** [derivesFrom TypeDefs a e]: [a] is [e], or a chain of extension and
    restriction steps leads from [a] to [e]. *)
Inductive derivesFrom (TypeDefs : gmap QName XsdType) : XsdType -> XsdType -> Prop :=
| derivesFrom_refl a : derivesFrom TypeDefs a a
| derivesFrom_step a b e :
    nextBase TypeDefs a = Some b -> derivesFrom TypeDefs b e -> derivesFrom TypeDefs a e.

Lemma nextBase_registered TypeDefs a b :
  wellKeyed TypeDefs -> nextBase TypeDefs a = Some b -> registered TypeDefs b.
Proof.
  intros Hk Hb. destruct (nextBase_defined _ _ _ Hb) as [q Hq].
  unfold registered. by rewrite (Hk q b Hq).
Qed.

Lemma registered_unshadowed TypeDefs a : registered TypeDefs a -> unshadowed TypeDefs a.
Proof. unfold registered, unshadowed. intros Ha d Hd. congruence. Qed.

Lemma registered_inj TypeDefs a b :
  unshadowed TypeDefs a -> registered TypeDefs b -> TypeName a = TypeName b -> a = b.
Proof. unfold registered. intros Ha Hb Hn. rewrite <- Hn in Hb. symmetry. by apply Ha. Qed.

Lemma derives_derivesFrom TypeDefs a e :
  wellKeyed TypeDefs -> registered TypeDefs e ->
  unshadowed TypeDefs a -> derives TypeDefs a (TypeName e) -> derivesFrom TypeDefs a e.
Proof.
  intros Hk He Ha Hd. remember (TypeName e) as n eqn:Hn.
  induction Hd as [a|a b n Hb Hd IH].
  - rewrite (registered_inj _ a e Ha He Hn). constructor.
  - eapply derivesFrom_step; [done|].
    apply IH; [by eapply registered_unshadowed, nextBase_registered|done].
Qed.

(** A walk cannot leave a set of names that is closed under the steps. *)
Lemma derivesFrom_trapped TypeDefs (v : gset QName) a e :
  wellKeyed TypeDefs ->
  (forall x y, registered TypeDefs x -> TypeName x ∈ v ->
               nextBase TypeDefs x = Some y -> TypeName y ∈ v) ->
  registered TypeDefs a -> TypeName a ∈ v ->
  derivesFrom TypeDefs a e -> registered TypeDefs e /\ TypeName e ∈ v.
Proof.
  intros Hk Hclosed Ha Hin Hd. induction Hd as [a|a b e Hb Hd IH]; [done|].
  apply IH; [by eapply nextBase_registered|by eapply Hclosed].
Qed.

(** What the visited set holds while the walk is at [a]: names of
    registered types that are not the name looked for, each of which steps
    to a visited name or to [a]. *)
Definition trail (TypeDefs : gmap QName XsdType) (e : XsdType)
           (v : gset QName) (a : XsdType) : Prop :=
  forall x, registered TypeDefs x -> TypeName x ∈ v ->
    TypeName x <> TypeName e /\
    forall y, nextBase TypeDefs x = Some y -> TypeName y ∈ v \/ y = a.

(** The cycle detection loses no derivation: where the walk answers false,
    no chain of steps leads to the expected type. *)
Lemma walk_false_no_derivation fuel TypeDefs e : forall a v,
  wellKeyed TypeDefs -> unshadowed TypeDefs a ->
  (TypeName a ∈ v -> registered TypeDefs a) -> trail TypeDefs e v a ->
  isTypeCompatibleWithCycleDetection fuel TypeDefs (Some a) (Some e) v = Some false ->
  ~ derivesFrom TypeDefs a e.
Proof.
  induction fuel as [|fuel IH]; intros a v Hk Ha Hreg Ht; [done|].
  rewrite walk_unfold. case_bool_decide as Hname; [done|].
  case_bool_decide as Hvis.
  - intros _ Hd.
    destruct (derivesFrom_trapped TypeDefs v a e Hk) as [He Hin]; try done.
    + intros x y Hx Hxv Hy. destruct (Ht x Hx Hxv) as [_ Hstep].
      destruct (Hstep y Hy) as [ ? | -> ]; done.
    + by apply Hreg.
    + by destruct (Ht e He Hin).
  - destruct (nextBase TypeDefs a) as [b|] eqn:Hb.
    + intros Hw Hd. inversion Hd as [|a' b' e' Hb' Hd']; subst; [done|].
      rewrite Hb in Hb'. injection Hb' as <-.
      apply (IH b ({[TypeName a]} ∪ v)); try done.
      * by eapply registered_unshadowed, nextBase_registered.
      * intros _. by eapply nextBase_registered.
      * intros x Hx Hxv. apply elem_of_union in Hxv as [Hxa|Hxv].
        -- apply elem_of_singleton in Hxa.
           rewrite <- (registered_inj _ a x Ha Hx (eq_sym Hxa)). split; [done|].
           intros y Hy. right. congruence.
        -- destruct (Ht x Hx Hxv) as [Hne Hstep]. split; [done|].
           intros y Hy. left. destruct (Hstep y Hy) as [ ? | -> ]; set_solver.
    + intros _ Hd. inversion Hd as [|a' b' e' Hb' Hd']; subst; [done|congruence].
Qed.

(** The type check finds every derivation. *)
Lemma isTypeCompatible_complete s a e :
  wellKeyed (TypeDefs s) -> unshadowed (TypeDefs s) a ->
  derivesFrom (TypeDefs s) a e -> isTypeCompatible s (Some a) (Some e) = true.
Proof.
  intros Hk Ha Hd. pose proof (isTypeCompatible_walk s (Some a) (Some e)) as Hw.
  destruct (isTypeCompatible s (Some a) (Some e)); [done|]. exfalso.
  apply (walk_false_no_derivation _ _ _ _ _ Hk Ha) in Hw; [done|set_solver|].
  intros x _ Hx. set_solver.
Qed.

(** Against a registered definition the type check decides derivation. *)
Lemma isTypeCompatible_derivesFrom s a e :
  wellKeyed (TypeDefs s) -> unshadowed (TypeDefs s) a -> registered (TypeDefs s) e ->
  isTypeCompatible s (Some a) (Some e) = true <-> derivesFrom (TypeDefs s) a e.
Proof.
  intros Hk Ha He. split; [|by apply isTypeCompatible_complete].
  intros Hc. destruct (isTypeCompatible_sound _ _ _ Hc) as (a' & e' & [= <-] & [= <-] & Hd).
  by apply derives_derivesFrom.
Qed.

Section MatcherFacts.
Variable groupValidates : Schema -> addr -> Dom.Element -> bool.
Variable heap : Heap.

End MatcherFacts.

(** The schema of the substitution-group tests, with [MotorcycleType]
    unrelated to [VehicleType]. *)
Definition elementOf (name type : string) (head : QName) : ElementDecl :=
  mkElementDecl (qn name) (Some (if String.eqb type "CarType"
                                 then extending "CarType" "VehicleType"
                                 else plain type))
                1 1 false false head "" "" [].

Definition fleetTypes : gmap QName XsdType :=
  {[ qn "VehicleType" := plain "VehicleType";
     qn "CarType" := extending "CarType" "VehicleType";
     qn "MotorcycleType" := plain "MotorcycleType" ]}.

Definition fleetSchema : Schema :=
  mkSchema "urn:t"
           {[ qn "vehicle" := elementOf "vehicle" "VehicleType" (mkQName "" "");
              qn "car" := elementOf "car" "CarType" (qn "vehicle");
              qn "motorcycle" := elementOf "motorcycle" "MotorcycleType" (qn "vehicle") ]}
           fleetTypes ∅ []
           {[ qn "vehicle" := [qn "car"; qn "motorcycle"; qn "sidecar"] ]}.

Definition instanceOf (name : string) : Dom.Element :=
  Dom.mkElement 1 "urn:t" name [] [].


Lemma fleetTypes_wellKeyed : wellKeyed fleetTypes.
Proof. apply (bool_decide_unpack _). vm_compute. exact I. Defined.

Lemma CarType_unshadowed : unshadowed fleetTypes (extending "CarType" "VehicleType").
Proof. apply registered_unshadowed. vm_compute. reflexivity. Defined.

Lemma CarType_derives :
  derivesFrom fleetTypes (extending "CarType" "VehicleType") (plain "VehicleType").
Proof. eapply derivesFrom_step; [vm_compute; reflexivity|]. constructor. Defined.

End CompatFacts.

(** * ID/IDREF collection and re-validation *)

Module InstanceFacts.
Import GoStrings Dom Components Instance.

Section ElementInduction.
Variable P : Element -> Prop.
Hypothesis step : forall i ns l attrs nodes,
    Forall P (elementsOf nodes) -> P (mkElement i ns l attrs nodes).

Fixpoint Element_nested_ind (e : Element) : P e :=
  match e with
  | mkElement i ns l attrs nodes =>
    step i ns l attrs nodes
         ((fix all (cs : list ChildNode) : Forall P (elementsOf cs) :=
             match cs with
             | [] => @List.Forall_nil _ _
             | TextNode _ :: cs' => all cs'
             | ElementNode c :: cs' =>
               @List.Forall_cons _ _ c (elementsOf cs') (Element_nested_ind c) (all cs')
             end) nodes)
  end.
End ElementInduction.

(** The attributes of the document in the order of the walk of
    [collectIDsAndRefs], each with the element that carries it. *)
Fixpoint attrOccurrences (elem : Element) : list (Element * Attr) :=
  match elem with
  | mkElement _ _ _ attrs nodes =>
    map (pair elem) attrs ++
    (fix children (cs : list ChildNode) : list (Element * Attr) :=
       match cs with
       | [] => []
       | TextNode _ :: cs' => children cs'
       | ElementNode c :: cs' => attrOccurrences c ++ children cs'
       end) nodes
  end.

Lemma attrOccurrences_unfold elem :
  attrOccurrences elem
  = map (pair elem) (Attributes elem) ++ concat (map attrOccurrences (Children elem)).
Proof.
  destruct elem as [i ns l attrs nodes]. cbn [attrOccurrences Attributes]. f_equal.
  unfold Children. cbn [ChildNodes].
  induction nodes as [|[t|c] nodes IH]; cbn; [done|done|by rewrite IH].
Qed.

Section Walk.
Variable validateElement : Schema -> Element -> list Violation.

Definition occurrenceStep (v : Validator) (oc : Element * Attr) : Validator :=
  collectAttr oc.1 v oc.2.

Lemma collectIDsAndRefs_unfold v elem :
  collectIDsAndRefs v elem
  = fold_left collectIDsAndRefs (Children elem)
              (fold_left (collectAttr elem) (Attributes elem) v).
Proof.
  destruct elem as [i ns l attrs nodes]. cbn [collectIDsAndRefs Attributes].
  unfold Children. cbn [ChildNodes].
  generalize (fold_left (collectAttr (mkElement i ns l attrs nodes)) attrs v).
  induction nodes as [|[t|c] nodes IH]; intros v'; cbn; [done|apply IH|apply IH].
Qed.

(** The walk is a left fold over the attribute occurrences. *)
Lemma collectIDsAndRefs_fold elem : forall v,
  collectIDsAndRefs v elem = fold_left occurrenceStep (attrOccurrences elem) v.
Proof.
  induction elem as [i ns l attrs nodes IH] using Element_nested_ind. intros v.
  rewrite collectIDsAndRefs_unfold, attrOccurrences_unfold, fold_left_app.
  unfold Children. cbn [ChildNodes Attributes].
  set (elem := mkElement i ns l attrs nodes).
  assert (fold_left occurrenceStep (map (pair elem) attrs) v
          = fold_left (collectAttr elem) attrs v) as ->.
  { clearbody elem. clear. revert v.
    induction attrs as [|a attrs IH]; intros v; [done|]. apply IH. }
  generalize (fold_left (collectAttr elem) attrs v). clear v.
  induction IH as [|c cs Hc _ IHcs]; intros v; [done|].
  cbn [fold_left map concat]. rewrite fold_left_app, <- Hc. apply IHcs.
Qed.

(** ** Which attributes are collected *)

Definition isIDAttr (a : Attr) : bool :=
  String.eqb (attrLocalName a) "id" || String.eqb (attrLocalName a) "ID".

Definition isIDREFAttr (a : Attr) : bool :=
  existsb (String.eqb (attrLocalName a)) idrefAttrs
  && negb (String.eqb (attrNodeValue a) "").

Definition valueAndElement (oc : Element * Attr) : string * Element :=
  (attrNodeValue oc.2, oc.1).

Definition idOccurrences (occ : list (Element * Attr)) : list (Element * Attr) :=
  List.filter (fun oc => isIDAttr oc.2) occ.

Definition idPairs (occ : list (Element * Attr)) : list (string * Element) :=
  map valueAndElement (idOccurrences occ).

Definition refPairs (occ : list (Element * Attr)) : list (string * Element) :=
  map valueAndElement (List.filter (fun oc => isIDREFAttr oc.2) occ).

Definition duplicateID (oc : Element * Attr) : Violation :=
  mkViolation (Some oc.1) (attrLocalName oc.2) "cvc-id.2"
              ("Duplicate ID value '" ++ attrNodeValue oc.2 ++ "'") []
              (attrNodeValue oc.2).

(** The [cvc-id.2] violations of a list of ID occurrences: one for every
    occurrence whose value is in [seen] or was carried by an earlier
    occurrence. *)
Fixpoint duplicateIDs (seen : gset string) (occ : list (Element * Attr)) : list Violation :=
  match occ with
  | [] => []
  | oc :: occ' =>
    if bool_decide (attrNodeValue oc.2 ∈ seen)
    then duplicateID oc :: duplicateIDs seen occ'
    else duplicateIDs ({[attrNodeValue oc.2]} ∪ seen) occ'
  end.

Lemma existsb_and {A} (f : A -> bool) (b : bool) (l : list A) :
  existsb (fun x => f x && b) l = existsb f l && b.
Proof.
  induction l as [|x l IH]; cbn; [done|]. rewrite IH.
  by destruct (f x), b, (existsb f l).
Qed.

Lemma collectAttr_fields elem v a :
  let value := attrNodeValue a in
  schema (collectAttr elem v a) = schema v /\
  idConstraints (collectAttr elem v a) = idConstraints v /\
  ids (collectAttr elem v a)
  = (if isIDAttr a && negb (bool_decide (value ∈ dom (ids v)))
     then <[value := elem]> (ids v) else ids v) /\
  idRefs (collectAttr elem v a)
  = (if isIDREFAttr a then <[value := elem]> (idRefs v) else idRefs v) /\
  violations (collectAttr elem v a)
  = (if isIDAttr a && bool_decide (value ∈ dom (ids v))
     then violations v ++ [duplicateID (elem, a)] else violations v).
Proof.
  intros value. subst value. unfold collectAttr.
  rewrite (existsb_and (String.eqb (attrLocalName a))).
  fold (isIDAttr a). fold (isIDREFAttr a).
  destruct (isIDAttr a), (isIDREFAttr a); cbn [andb negb];
    try (destruct (ids v !! attrNodeValue a) as [e|] eqn:E;
         [rewrite (bool_decide_true (attrNodeValue a ∈ dom (ids v)))
            by (apply elem_of_dom; eauto)
         |rewrite (bool_decide_false (attrNodeValue a ∈ dom (ids v)))
            by (by apply not_elem_of_dom)]);
    done.
Qed.

(** The state after the occurrences [occ]: the first element that
    carries an ID value is kept, later ones are violations; the last
    element that carries an IDREF value is kept. *)
Lemma fold_occurrences occ : forall v,
  fold_left occurrenceStep occ v
  = mkValidator (schema v)
                (list_to_map (reverse (refPairs occ)) ∪ idRefs v)
                (ids v ∪ list_to_map (idPairs occ))
                (violations v ++ duplicateIDs (dom (ids v)) (idOccurrences occ))
                (idConstraints v).
Proof.
  induction occ as [|[e a] occ IH]; intros v.
  - cbn. rewrite app_nil_r, (left_id_L ∅ (∪)), (right_id_L ∅ (∪)). by destruct v.
  - cbn [fold_left]. rewrite IH. unfold occurrenceStep. cbn [fst snd].
    destruct (collectAttr_fields e v a) as (-> & -> & -> & -> & ->).
    unfold refPairs, idPairs, idOccurrences. cbn [List.filter snd].
    f_equal.
    + destruct (isIDREFAttr a); [|done]. cbn [map].
      rewrite reverse_cons, list_to_map_app. cbn [list_to_map valueAndElement fst snd].
      rewrite <- (assoc_L (∪)). f_equal.
      unfold valueAndElement. cbn [fst snd].
      by rewrite list_to_map_cons, list_to_map_nil, insert_empty,
         <- insert_union_singleton_l.
    + destruct (isIDAttr a); [|done]. cbn [andb map]. unfold valueAndElement at 2.
      cbn [fst snd]. rewrite list_to_map_cons.
      case_bool_decide as Hin; cbn [negb].
      * apply elem_of_dom in Hin as [x Hx]. apply map_eq. intros k.
        rewrite !lookup_union. destruct (decide (k = attrNodeValue a)) as [->|Hk].
        -- by rewrite Hx, !union_Some_l.
        -- by rewrite lookup_insert_ne.
      * apply not_elem_of_dom in Hin. apply map_eq. intros k.
        rewrite !lookup_union. destruct (decide (k = attrNodeValue a)) as [->|Hk].
        -- by rewrite Hin, !lookup_insert_eq, union_Some_l, (left_id_L None _).
        -- by rewrite !lookup_insert_ne.
    + destruct (isIDAttr a); [|done]. cbn [andb duplicateIDs snd].
      case_bool_decide as Hin; cbn [negb].
      * by rewrite <- app_assoc.
      * by rewrite dom_insert_L.
Qed.

(** ** validateIDREFs *)

Definition unmatchedIDREF (entry : string * Element) : Violation :=
  mkViolation (Some entry.2) "" "cvc-id.1"
              ("There is no ID/IDREF binding for IDREF '" ++ entry.1 ++ "'")
              [] entry.1.

Definition unmatched (v : Validator) (entry : string * Element) : bool :=
  bool_decide (ids v !! entry.1 = None).

Lemma validateIDREFs_spec v :
  validateIDREFs v
  = mkValidator (schema v) (idRefs v) (ids v)
      (violations v
       ++ map unmatchedIDREF (List.filter (unmatched v) (map_to_list (idRefs v))))
      (idConstraints v).
Proof.
  unfold validateIDREFs.
  assert (forall l v0, ids v0 = ids v ->
            fold_left
              (fun v1 entry =>
                 let '(idref, elem) := entry in
                 match ids v1 !! idref with
                 | Some _ => v1
                 | None =>
                   addViolation v1 elem "" "cvc-id.1"
                     ("There is no ID/IDREF binding for IDREF '" ++ idref ++ "'")
                     [] idref
                 end) l v0
            = mkValidator (schema v0) (idRefs v0) (ids v0)
                (violations v0 ++ map unmatchedIDREF (List.filter (unmatched v) l))
                (idConstraints v0)) as Hgen.
  { induction l as [|[idref elem] l IH]; intros v0 Hids.
    - cbn. rewrite app_nil_r. by destruct v0.
    - cbn [fold_left List.filter].
      change (unmatched v (idref, elem)) with (bool_decide (ids v !! idref = None)).
      rewrite <- Hids.
      destruct (ids v0 !! idref) eqn:E.
      + rewrite bool_decide_false by done. by apply IH.
      + rewrite bool_decide_true by done. rewrite IH by done.
        cbn. by rewrite <- app_assoc. }
  by apply Hgen.
Qed.

(** The state of a validator that [Validate] has just reset. *)
Definition justReset (v : Validator) : Prop :=
  idRefs v = ∅ /\ ids v = ∅ /\ violations v = [].

Lemma list_to_map_first (l : list (string * Element)) pre x e post :
  l = pre ++ (x, e) :: post -> x ∉ pre.*1 ->
  (list_to_map l : gmap string Element) !! x = Some e.
Proof.
  intros -> Hpre. rewrite list_to_map_app, lookup_union.
  rewrite (not_elem_of_list_to_map_1 _ _ Hpre), (left_id_L None _).
  by rewrite list_to_map_cons, lookup_insert_eq.
Qed.

Lemma list_to_map_last (l : list (string * Element)) pre x e post :
  l = pre ++ (x, e) :: post -> x ∉ post.*1 ->
  (list_to_map (reverse l) : gmap string Element) !! x = Some e.
Proof.
  intros -> Hpost. rewrite reverse_app, reverse_cons, <- app_assoc.
  apply (list_to_map_first _ (reverse post) x e (reverse pre)); [done|].
  by rewrite fmap_reverse, elem_of_reverse.
Qed.

(** C10: ID/IDREF checking goes by attribute names.  Let [occ] be the
    attribute occurrences of the document in walk order.  After the walk
    of a validator that has just been reset, the IDs are the values of
    the attributes named [id] or [ID], each bound to the first element
    that carries it, with one [cvc-id.2] violation for every later
    occurrence of a value; the IDREF candidates are the non-empty values
    of the attributes named [target], [ref], [idref], [IDREF],
    [idlocation] or [sendid], each bound to the last element that carries
    it.  [validateIDREFs] then adds one [cvc-id.1] violation for every
    candidate value that is no ID, and no other. *)
Theorem id_idref_collection_by_attribute_name (v0 : Validator) (root : Element) :
  justReset v0 ->
  let occ := attrOccurrences root in
  let v1 := collectIDsAndRefs v0 root in
  (ids v1 = list_to_map (idPairs occ) /\
   idRefs v1 = list_to_map (reverse (refPairs occ)) /\
   violations v1 = duplicateIDs ∅ (idOccurrences occ)) /\
  (forall x, is_Some (ids v1 !! x) <->
             exists e a, (e, a) ∈ occ /\ isIDAttr a = true /\ attrNodeValue a = x) /\
  (forall x, is_Some (idRefs v1 !! x) <->
             exists e a, (e, a) ∈ occ /\ isIDREFAttr a = true /\ attrNodeValue a = x) /\
  (forall pre x e post,
     idPairs occ = pre ++ (x, e) :: post -> x ∉ pre.*1 -> ids v1 !! x = Some e) /\
  (forall pre x e post,
     refPairs occ = pre ++ (x, e) :: post -> x ∉ post.*1 -> idRefs v1 !! x = Some e) /\
  (forall v : Validator,
     let reported := List.filter (unmatched v) (map_to_list (idRefs v)) in
     violations (validateIDREFs v) = violations v ++ map unmatchedIDREF reported /\
     NoDup (map Actual (map unmatchedIDREF reported)) /\
     (forall x, x ∈ map Actual (map unmatchedIDREF reported)
                <-> is_Some (idRefs v !! x) /\ ids v !! x = None)).
Proof.
  intros (Hrefs & Hids & Hviol) occ v1.
  assert (ids v1 = list_to_map (idPairs occ)
          /\ idRefs v1 = list_to_map (reverse (refPairs occ))
          /\ violations v1 = duplicateIDs ∅ (idOccurrences occ)) as (E1 & E2 & E3).
  { subst v1 occ. rewrite collectIDsAndRefs_fold, fold_occurrences.
    cbn [ids idRefs violations]. rewrite Hrefs, Hids, Hviol.
    by rewrite (left_id_L ∅ (∪)), (right_id_L ∅ (∪)), dom_empty_L. }
  split; [done|]. split; [|split; [|split; [|split; [|]]]].
  - intros x. rewrite E1. rewrite <- elem_of_dom, dom_list_to_map_L, elem_of_list_to_set.
    unfold idPairs, idOccurrences. rewrite <- list_fmap_compose, list_elem_of_fmap. split.
    + intros ([e a] & -> & Hin). apply list_elem_of_In, filter_In in Hin as [Hin Ha].
      exists e, a. by rewrite list_elem_of_In.
    + intros (e & a & Hin & Ha & <-). exists (e, a). split; [done|].
      apply list_elem_of_In, filter_In. by rewrite <- list_elem_of_In.
  - intros x. rewrite E2. rewrite <- elem_of_dom, dom_list_to_map_L, elem_of_list_to_set.
    unfold refPairs. rewrite fmap_reverse, elem_of_reverse.
    rewrite <- list_fmap_compose, list_elem_of_fmap. split.
    + intros ([e a] & -> & Hin). apply list_elem_of_In, filter_In in Hin as [Hin Ha].
      exists e, a. by rewrite list_elem_of_In.
    + intros (e & a & Hin & Ha & <-). exists (e, a). split; [done|].
      apply list_elem_of_In, filter_In. by rewrite <- list_elem_of_In.
  - intros pre x e post Hsplit Hpre. rewrite E1. by eapply list_to_map_first.
  - intros pre x e post Hsplit Hpost. rewrite E2. by eapply list_to_map_last.
  - intros v reported. rewrite validateIDREFs_spec. cbn [violations]. split; [done|].
    assert (map Actual (map unmatchedIDREF reported) = reported.*1) as ->.
    { rewrite map_map. by apply map_ext. }
    split.
    + apply NoDup_fmap_fst.
      * intros k x y Hx Hy. subst reported.
        apply list_elem_of_In, filter_In in Hx as [Hx _].
        apply list_elem_of_In, filter_In in Hy as [Hy _].
        apply list_elem_of_In, elem_of_map_to_list in Hx, Hy. congruence.
      * subst reported. apply NoDup_ListNoDup, List.NoDup_filter, NoDup_ListNoDup.
        apply NoDup_map_to_list.
    + intros x. subst reported. rewrite list_elem_of_fmap. split.
      * intros ([k e] & -> & Hin). apply list_elem_of_In, filter_In in Hin as [Hin Hu].
        apply list_elem_of_In, elem_of_map_to_list in Hin.
        split; [by eexists|]. unfold unmatched in Hu.
        by apply bool_decide_eq_true in Hu.
      * intros ([e He] & Hnone). exists (x, e). split; [done|].
        apply list_elem_of_In, filter_In. split.
        -- by apply list_elem_of_In, elem_of_map_to_list.
        -- unfold unmatched. by apply bool_decide_eq_true.
Qed.

(** ** Re-validation *)

(** A schema whose root element declares the key [k] over [item] with
    field [@id], and the document [<root><item id="a"/></root>]. *)
Definition keyK : IdentityConstraint :=
  mkIdentityConstraint "k" KeyConstraint (Some "item") ["@id"] (mkQName "" "").

Definition keyedSchema : Schema :=
  mkSchema ""
           {[ mkQName "" "root" :=
                mkElementDecl (mkQName "" "root") None 1 1 false false
                              (mkQName "" "") "" "" [keyK] ]}
           ∅ ∅ [] ∅.

Definition item : Element := mkElement 2 "" "item" [mkAttr "" "id" "id" "a"] [].
Definition keyedRoot : Element := mkElement 1 "" "root" [] [ElementNode item].
Definition keyedDoc : DocumentObj := mkDocument (Some keyedRoot).

Definition duplicateKey : Violation :=
  mkViolation (Some item) "" "cvc-identity-constraint.4.1"
              "Duplicate key constraint 'k' value: a" [] "".

Lemma selects_item : evaluateSimpleXPath keyedRoot "item" = [item].
Proof. vm_compute. reflexivity. Qed.

Lemma field_is_a : evaluateFieldXPath item "@id" = "a".
Proof. vm_compute. reflexivity. Qed.

Lemma ValidateIC_keyed (kv : gmap string (gmap string (list Element))) :
  ValidateIC (mkICV {[ "k" := keyK ]} kv) keyedDoc
  = match lookupKey kv "k" "a" with
    | Some existingNodes =>
      ([duplicateKey], mkICV {[ "k" := keyK ]} (storeKey kv "k" "a" (existingNodes ++ [item])))
    | None => ([], mkICV {[ "k" := keyK ]} (storeKey kv "k" "a" [item]))
    end.
Proof.
  unfold ValidateIC. cbn [constraints keyValues]. rewrite map_to_list_singleton.
  cbn [fold_left collectConstraint checkKeyref keyK icKind icSelector].
  unfold evaluateSelector. cbn [String.eqb Ascii.eqb Bool.eqb keyedDoc DocumentElement].
  rewrite selects_item. cbn [fold_left].
  unfold collectNode, extractFieldValues.
  change (icFields keyK) with ["@id"]. change (icKind keyK) with KeyConstraint.
  cbn [map]. rewrite field_is_a.
  change (Join ["a"] "|") with "a". cbn [List.length Nat.eqb].
  destruct (lookupKey kv "k" "a"); reflexivity.
Qed.

Definition startValidator : Validator := NewValidator keyedSchema.

Lemma startValidator_eq :
  startValidator
  = mkValidator keyedSchema ∅ ∅ [] (Some (mkICV {[ "k" := keyK ]} {[ "k" := ∅ ]})).
Proof. vm_compute. reflexivity. Qed.

Lemma Validate_keyed idRefs0 ids0 violations0 kv :
  Validate validateElement (mkValidator keyedSchema idRefs0 ids0 violations0
                         (Some (mkICV {[ "k" := keyK ]} kv)))
            (Some keyedDoc)
  = let '(idViolations, idc) := ValidateIC (mkICV {[ "k" := keyK ]} kv) keyedDoc in
    let violations := validateElement keyedSchema keyedRoot ++ idViolations in
    (violations,
     mkValidator keyedSchema ∅ {[ "a" := item ]} violations (Some idc)).
Proof.
  unfold Validate. cbn [keyedDoc DocumentElement].
  assert (collectIDsAndRefs
            (mkValidator keyedSchema ∅ ∅ []
                         (Some (mkICV {[ "k" := keyK ]} kv))) keyedRoot
          = mkValidator keyedSchema ∅ {[ "a" := item ]} []
                        (Some (mkICV {[ "k" := keyK ]} kv))) as Hc.
  { rewrite collectIDsAndRefs_fold, fold_occurrences.
    cbn [schema idRefs ids violations idConstraints]. f_equal. }
  cbn [schema idConstraints]. rewrite Hc.
  cbn [schema idRefs ids violations idConstraints app].
  rewrite validateIDREFs_spec.
  cbn [schema idRefs ids violations idConstraints].
  rewrite map_to_list_empty. cbn [List.filter map]. rewrite app_nil_r.
  by destruct (ValidateIC _ _).
Qed.

(** C2: the key values collected by the identity-constraint validator
    outlive a call of [Validate].  Validated twice with one validator, the
    document [<root><item id="a"/></root>] gets from the first call what
    [validateElement] reports for its root, and from the second call the
    same list with one more violation, [cvc-identity-constraint.4.1] for
    the key value [a]. *)
Theorem revalidation_reports_duplicate_key :
  let '(first, v1) := Validate validateElement startValidator (Some keyedDoc) in
  let '(second, v2) := Validate validateElement v1 (Some keyedDoc) in
  first = validateElement keyedSchema keyedRoot /\
  second = first ++ [duplicateKey].
Proof.
  rewrite startValidator_eq.
  rewrite (Validate_keyed ∅ ∅ [] {["k" := ∅]}), ValidateIC_keyed.
  change (lookupKey {[ "k" := ∅ ]} "k" "a") with (@None (list Element)).
  cbn iota beta zeta. rewrite app_nil_r.
  rewrite Validate_keyed, ValidateIC_keyed.
  assert (lookupKey (storeKey {[ "k" := ∅ ]} "k" "a" [item]) "k" "a" = Some [item]) as ->.
  { unfold lookupKey, storeKey. rewrite lookup_insert_eq. cbn.
    by rewrite lookup_insert_eq. }
  done.
Qed.
End Walk.

(** With a content-model validator that reports nothing: no violation,
    then one. *)
Example revalidation_of_valid_document :
  let validateElement := fun (_ : Schema) (_ : Element) => @nil Violation in
  let '(first, v1) := Validate validateElement startValidator (Some keyedDoc) in
  let '(second, v2) := Validate validateElement v1 (Some keyedDoc) in
  first = [] /\ second = [duplicateKey].
Proof. vm_compute. split; reflexivity. Qed.

(** [<doc><a id="x"/><b ref="x" target="y"/></doc>] *)
Definition linkedRoot : Element :=
  mkElement 1 "" "doc" []
    [ElementNode (mkElement 2 "" "a" [mkAttr "" "id" "id" "x"] []);
     ElementNode (mkElement 3 "" "b" [mkAttr "" "ref" "ref" "x";
                                      mkAttr "" "target" "target" "y"] [])].

Lemma id_idref_witness :
  let v0 := mkValidator keyedSchema ∅ ∅ [] None in
  justReset v0 /\
  ids (collectIDsAndRefs v0 linkedRoot)
  = list_to_map (idPairs (attrOccurrences linkedRoot)).
Proof.
  intros v0. assert (justReset v0) as H by (repeat split).
  split; [exact H|].
  exact (proj1 (proj1 (id_idref_collection_by_attribute_name v0 linkedRoot H))).
Defined.

Example linked_document_checked :
  let v1 := collectIDsAndRefs (mkValidator keyedSchema ∅ ∅ [] None) linkedRoot in
  ids v1 !! "x" = Some (mkElement 2 "" "a" [mkAttr "" "id" "id" "x"] []) /\
  map Code (violations v1) = [] /\
  map (fun v => (Code v, Actual v)) (violations (validateIDREFs v1)) = [("cvc-id.1", "y")].
Proof. vm_compute. repeat split. Qed.
End InstanceFacts.

(** * Resolution of group references *)

Module ResolverFacts.
Import Components Resolver.

Definition Result : Type := option (list Particle * gset QName * Heap).

(** The loop of [resolveParticlesWithVisited], with the recursive calls
    abstracted as [rec]. *)
Section Loop.
Variable rec : list Particle -> gset QName -> Heap -> Result.
Variable Groups : gmap QName addr.

Fixpoint resolveLoop (ps resolved : list Particle)
       (visited : gset QName) (heap : Heap) {struct ps} : Result :=
match ps with
| [] => Some (resolved, visited, heap)
| p :: rest =>
  match p with
  | GroupRefP ref minOcc maxOcc =>
    if bool_decide (ref ∈ visited) then
      resolveLoop rest (resolved ++ [p]) visited heap
    else
      let visited := {[ref]} ∪ visited in
      match Groups !! ref with
      | Some g =>
        match heap !! g with
        | Some group =>
          match rec (mgParticles group) visited heap with
          | Some (inner, visited, heap) =>
            let resolvedGroup :=
              if ((minOcc =? 0) && (maxOcc =? 0))%Z
              then mkModelGroup (mgKind group) inner (mgMinOcc group) (mgMaxOcc group)
              else mkModelGroup (mgKind group) inner minOcc maxOcc in
            let (a, heap) := alloc resolvedGroup heap in
            resolveLoop rest (resolved ++ [ModelGroupP a])
                        (visited ∖ {[ref]}) heap
          | None => None
          end
        | None => None
        end
      | None =>
        resolveLoop rest (resolved ++ [p]) (visited ∖ {[ref]}) heap
      end
  | ModelGroupP pt =>
    match heap !! pt with
    | Some nested =>
      match rec (mgParticles nested) visited heap with
      | Some (inner, visited, heap) =>
        resolveLoop rest (resolved ++ [p]) visited
                    (setParticles pt inner heap)
      | None => None
      end
    | None => None
    end
  | _ => resolveLoop rest (resolved ++ [p]) visited heap
  end
end.
End Loop.

Lemma resolve_unfold fuel Groups particles visited heap :
  resolveParticlesWithVisited (S fuel) Groups particles visited heap
  = resolveLoop (resolveParticlesWithVisited fuel Groups) Groups particles []
                visited heap.
Proof. reflexivity. Qed.

(** ** More fuel does not change a result *)

Lemma resolveLoop_mono (rec rec' : list Particle -> gset QName -> Heap -> Result) Groups :
  (forall ps v h r, rec ps v h = Some r -> rec' ps v h = Some r) ->
  forall ps resolved visited heap r,
    resolveLoop rec Groups ps resolved visited heap = Some r ->
    resolveLoop rec' Groups ps resolved visited heap = Some r.
Proof.
  intros Hrec. induction ps as [|p ps IH]; intros resolved visited heap r; [done|].
  destruct p as [d|ref mn mx|ref mn mx|ns pc mn mx|pt]; cbn [resolveLoop];
    try apply IH.
  - case_bool_decide; [apply IH|].
    destruct (Groups !! ref) as [g|]; [|apply IH].
    destruct (heap !! g) as [group|]; [|done].
    destruct (rec (mgParticles group) _ heap) as [[[inner v'] h']|] eqn:E; [|done].
    rewrite (Hrec _ _ _ _ E). destruct (alloc _ h'). apply IH.
  - destruct (heap !! pt) as [nested|]; [|done].
    destruct (rec (mgParticles nested) _ heap) as [[[inner v'] h']|] eqn:E; [|done].
    rewrite (Hrec _ _ _ _ E). apply IH.
Qed.

Lemma resolve_mono fuel Groups : forall particles visited heap r,
  resolveParticlesWithVisited fuel Groups particles visited heap = Some r ->
  resolveParticlesWithVisited (S fuel) Groups particles visited heap = Some r.
Proof.
  induction fuel as [|fuel IH]; intros particles visited heap r; [done|].
  rewrite !resolve_unfold. by apply resolveLoop_mono.
Qed.

Lemma resolve_ge fuel fuel' Groups particles visited heap r :
  fuel <= fuel' ->
  resolveParticlesWithVisited fuel Groups particles visited heap = Some r ->
  resolveParticlesWithVisited fuel' Groups particles visited heap = Some r.
Proof.
  induction 1 as [|m Hle IH]; [done|]. intros Hr. by apply resolve_mono, IH.
Qed.

(** ** A group that refers to itself from a nested model group

    [<xs:group name="G"><xs:sequence><xs:sequence><xs:group ref="G"/>
    </xs:sequence><xs:group ref="G"/></xs:sequence></xs:group>]: the body of
    [G] is at address 1 and the nested sequence at address 2. *)

Definition G : QName := mkQName "urn:t" "G".

Definition selfGroups : gmap QName addr := {[ G := 1%positive ]}.

Definition selfBody : list Particle := [ModelGroupP 2%positive; GroupRefP G 1 1].

Definition selfHeap : Heap :=
  {[ 1%positive := mkModelGroup SequenceGroup selfBody 1 1;
     2%positive := mkModelGroup SequenceGroup [GroupRefP G 1 1] 1 1 ]}.

(** ** Walks that do not return

    [closedChain heap chain]: every object of [chain] has an object of
    [chain] as its first particle.  The resolver follows first particles
    before anything else, so a walk that enters the chain stays in it. *)

Definition firstObject (heap : Heap) (a : addr) : option addr :=
  match heap !! a with
  | Some m => match mgParticles m with ModelGroupP b :: _ => Some b | _ => None end
  | None => None
  end.

Definition chainStep (heap : Heap) (chain : gset addr) (a : addr) : bool :=
  match firstObject heap a with
  | Some b => bool_decide (b ∈ chain)
  | None => false
  end.

Definition closedChain (heap : Heap) (chain : gset addr) : Prop :=
  set_Forall (fun a => chainStep heap chain a = true) chain.

Lemma chain_diverges Groups heap chain : closedChain heap chain ->
  forall fuel a rest visited, a ∈ chain ->
    resolveParticlesWithVisited fuel Groups (ModelGroupP a :: rest) visited heap = None.
Proof.
  intros Hchain. induction fuel as [|fuel IH]; intros a rest visited Ha; [done|].
  rewrite resolve_unfold. cbn [resolveLoop].
  pose proof (Hchain a Ha) as Hstep. unfold chainStep, firstObject in Hstep.
  destruct (heap !! a) as [m|]; [|done].
  destruct (mgParticles m) as [|[d|r mn mx|r mn mx|ns pc mn mx|b] ps]; try done.
  apply bool_decide_eq_true in Hstep. by rewrite (IH b ps visited Hstep).
Qed.

(** Resolving the first particle of [selfBody], the nested sequence, makes
    that sequence hold a copy of [G] (at address 3) whose first particle is
    the nested sequence itself. *)
Lemma first_particle_ties_knot :
  exists heap,
    resolveParticlesWithVisited 3 selfGroups [GroupRefP G 1 1] ∅ selfHeap
    = Some ([ModelGroupP 3%positive], ∅, heap) /\
    heap !! 1%positive = Some (mkModelGroup SequenceGroup selfBody 1 1) /\
    closedChain (setParticles 2%positive [ModelGroupP 3%positive] heap)
                {[2%positive; 3%positive]}.
Proof.
  eexists. split; [vm_compute; reflexivity|]. split; [by vm_compute|].
  apply (bool_decide_unpack _). vm_compute. exact I.
Qed.

Lemma self_reference_diverges fuel :
  resolveParticles fuel selfGroups selfBody selfHeap = None.
Proof.
  unfold resolveParticles.
  destruct first_particle_ties_knot as (heap & Hfirst & H1 & Hknot).
  destruct (decide (fuel <= 3)) as [Hle|Hgt].
  { destruct fuel as [|[|[|[|fuel]]]]; [by vm_compute..|lia]. }
  destruct fuel as [|fuel]; [lia|].
  rewrite resolve_unfold. unfold selfBody at 1. cbn [resolveLoop].
  assert (selfHeap !! 2%positive
          = Some (mkModelGroup SequenceGroup [GroupRefP G 1 1] 1 1)) as -> by by vm_compute.
  cbn [mgParticles].
  rewrite (resolve_ge 3 fuel _ _ _ _ _ ltac:(lia) Hfirst).
  rewrite bool_decide_false by set_solver.
  assert (selfGroups !! G = Some 1%positive) as -> by by vm_compute.
  assert (setParticles 2%positive [ModelGroupP 3%positive] heap !! 1%positive
          = Some (mkModelGroup SequenceGroup selfBody 1 1)) as ->.
  { unfold setParticles. by rewrite lookup_alter_ne. }
  cbn [mgParticles]. unfold selfBody at 1.
  rewrite (chain_diverges _ _ _ Hknot fuel 2%positive); [done|set_solver].
Qed.

(** ** Group references that sit directly in a group body

    [plainWithin n heap p]: the particle [p] is no group reference, and a
    nested model group holds none either, down to depth [n] (nested model
    groups are objects of the heap, so the depth bounds the walk). *)

Fixpoint plainWithin (n : nat) (heap : Heap) (p : Particle) {struct n} : bool :=
  match p with
  | GroupRefP _ _ _ => false
  | ModelGroupP a =>
    match n with
    | 0 => false
    | S n' =>
      match heap !! a with
      | Some mg => forallb (plainWithin n' heap) (mgParticles mg)
      | None => false
      end
    end
  | _ => true
  end.

Definition shallowParticle (n : nat) (heap : Heap) (p : Particle) : bool :=
  match p with
  | GroupRefP _ _ _ => true
  | _ => plainWithin n heap p
  end.

(** A particle list whose group references are all members of the list
    itself, none inside a nested [sequence], [choice] or [all]. *)
Definition shallow (n : nat) (heap : Heap) (ps : list Particle) : bool :=
  forallb (shallowParticle n heap) ps.

Definition shallowAt (n : nat) (heap : Heap) (g : addr) : bool :=
  match heap !! g with
  | Some mg => shallow n heap (mgParticles mg)
  | None => false
  end.

(** Every named group is an object of the heap with a shallow body. *)
Definition groupsShallow (n : nat) (Groups : gmap QName addr) (heap : Heap) : Prop :=
  map_Forall (fun _ g => shallowAt n heap g = true) Groups.

(** The object built for a resolved reference. *)
Definition expansion (group : ModelGroup) (inner : list Particle)
           (minOcc maxOcc : Z) : ModelGroup :=
  if ((minOcc =? 0) && (maxOcc =? 0))%Z
  then mkModelGroup (mgKind group) inner (mgMinOcc group) (mgMaxOcc group)
  else mkModelGroup (mgKind group) inner minOcc maxOcc.

Definition isGroupRef (p : Particle) : bool :=
  match p with GroupRefP _ _ _ => true | _ => false end.

(** [Resolves Groups heap visited particles resolved]: what the resolver
    makes of [particles] while the groups of [visited] are being expanded.
    A reference is kept when its group is being expanded or is not
    declared; otherwise it becomes a new model group that holds the
    group's resolved body. *)
Inductive Resolves (Groups : gmap QName addr) (heap : Heap)
  : gset QName -> list Particle -> list Particle -> Prop :=
| Resolves_nil visited : Resolves Groups heap visited [] []
| Resolves_cycle visited ref mn mx ps out :
    ref ∈ visited ->
    Resolves Groups heap visited ps out ->
    Resolves Groups heap visited (GroupRefP ref mn mx :: ps) (GroupRefP ref mn mx :: out)
| Resolves_undeclared visited ref mn mx ps out :
    ref ∉ visited -> Groups !! ref = None ->
    Resolves Groups heap visited ps out ->
    Resolves Groups heap visited (GroupRefP ref mn mx :: ps) (GroupRefP ref mn mx :: out)
| Resolves_expand visited ref mn mx g group a inner ps out :
    ref ∉ visited -> Groups !! ref = Some g -> heap !! g = Some group ->
    heap !! a = Some (expansion group inner mn mx) ->
    Resolves Groups heap ({[ref]} ∪ visited) (mgParticles group) inner ->
    Resolves Groups heap visited ps out ->
    Resolves Groups heap visited (GroupRefP ref mn mx :: ps) (ModelGroupP a :: out)
| Resolves_other visited p ps out :
    isGroupRef p = false ->
    Resolves Groups heap visited ps out ->
    Resolves Groups heap visited (p :: ps) (p :: out).

Lemma plainWithin_mono heap heap' : heap ⊆ heap' -> forall n p,
  plainWithin n heap p = true -> plainWithin n heap' p = true.
Proof.
  intros Hsub. induction n as [|n IH]; intros [d|r mn mx|r mn mx|ns pc mn mx|a]; cbn; try done.
  destruct (heap !! a) as [mg|] eqn:E; [|done].
  rewrite (lookup_weaken _ _ _ _ E Hsub).
  rewrite !forallb_forall. intros H x Hx. apply IH, H, Hx.
Qed.

Lemma shallow_mono heap heap' n ps : heap ⊆ heap' ->
  shallow n heap ps = true -> shallow n heap' ps = true.
Proof.
  intros Hsub. unfold shallow. rewrite !forallb_forall. intros H x Hx.
  specialize (H x Hx). destruct x; cbn in *; try done;
    by apply (plainWithin_mono heap heap' Hsub).
Qed.

Lemma groupsShallow_mono heap heap' n Groups : heap ⊆ heap' ->
  groupsShallow n Groups heap -> groupsShallow n Groups heap'.
Proof.
  intros Hsub H q g Hq. specialize (H q g Hq). cbn in *. unfold shallowAt in *.
  destruct (heap !! g) as [mg|] eqn:E; [|done].
  rewrite (lookup_weaken _ _ _ _ E Hsub). by apply (shallow_mono heap).
Qed.

Lemma Resolves_mono Groups heap heap' visited ps out : heap ⊆ heap' ->
  Resolves Groups heap visited ps out -> Resolves Groups heap' visited ps out.
Proof.
  intros Hsub.
  induction 1; [apply Resolves_nil|apply Resolves_cycle|apply Resolves_undeclared
                |eapply Resolves_expand|apply Resolves_other];
    eauto using lookup_weaken.
Qed.

Lemma Resolves_length Groups heap visited ps out :
  Resolves Groups heap visited ps out -> List.length out = List.length ps.
Proof. induction 1; cbn; congruence. Qed.

Lemma Resolves_kept Groups heap visited ps out :
  Resolves Groups heap visited ps out ->
  forall ref mn mx, In (GroupRefP ref mn mx) out ->
    In (GroupRefP ref mn mx) ps /\ (ref ∈ visited \/ Groups !! ref = None).
Proof.
  induction 1 as [v|v r a b ps out Hv _ IH|v r a b ps out Hv Hg _ IH
                  |v r a b g group c inner ps out _ _ _ _ _ _ _ IH|v p ps out Hp _ IH];
    intros ref mn mx Hin; cbn in Hin; [done|..];
    destruct Hin as [Heq|Hin];
    try (destruct (IH _ _ _ Hin); split; [by right|done]).
  - injection Heq as -> -> ->. split; [by left|by left].
  - injection Heq as -> -> ->. split; [by left|by right].
  - done.
  - subst p. done.
Qed.

Lemma setParticles_same heap a mg :
  heap !! a = Some mg -> setParticles a (mgParticles mg) heap = heap.
Proof.
  intros H. unfold setParticles. apply alter_id. intros x Hx.
  rewrite H in Hx. injection Hx as <-. by destruct mg.
Qed.

(** A list without group references, at any depth, is returned as it is,
    and the heap is left as it was. *)
Lemma resolve_plain Groups visited heap : forall fuel n ps,
  forallb (plainWithin n heap) ps = true -> n < fuel ->
  resolveParticlesWithVisited fuel Groups ps visited heap = Some (ps, visited, heap).
Proof.
  induction fuel as [|fuel IH]; intros n ps Hps Hn; [lia|].
  rewrite resolve_unfold.
  enough (forall ps resolved, forallb (plainWithin n heap) ps = true ->
            resolveLoop (resolveParticlesWithVisited fuel Groups) Groups ps resolved
                        visited heap = Some (resolved ++ ps, visited, heap)) as Hloop
    by exact (Hloop ps [] Hps).
  clear ps Hps. induction ps as [|p ps IHps]; intros resolved Hps.
  { cbn. by rewrite app_nil_r. }
  cbn [forallb] in Hps. apply andb_prop in Hps as [Hp Hps].
  specialize (IHps (resolved ++ [p]) Hps). rewrite <- List.app_assoc in IHps.
  destruct p as [d|r mn mx|r mn mx|ns pc mn mx|a]; cbn [resolveLoop]; try exact IHps.
  - destruct n; discriminate Hp.
  - destruct n as [|n]; [discriminate Hp|]. cbn in Hp.
    destruct (heap !! a) as [mg|] eqn:E; [|discriminate Hp].
    rewrite (IH n (mgParticles mg) Hp ltac:(lia)).
    by rewrite (setParticles_same _ _ _ E).
Qed.

Lemma unvisited_pred (Groups : gmap QName addr) (visited : gset QName) ref g k :
  ref ∉ visited -> Groups !! ref = Some g ->
  size (dom Groups ∖ visited) <= S k ->
  size (dom Groups ∖ ({[ref]} ∪ visited)) <= k.
Proof.
  intros Hv Hg Hk.
  assert (ref ∈ dom Groups ∖ visited) as Hin.
  { apply elem_of_difference. split; [by apply elem_of_dom_2 in Hg|done]. }
  assert (dom Groups ∖ visited = {[ref]} ∪ dom Groups ∖ ({[ref]} ∪ visited)) as Heq.
  { apply set_eq. intros x. destruct (decide (x = ref)) as [->|]; set_solver. }
  rewrite Heq, size_union, size_singleton in Hk by set_solver. lia.
Qed.

Lemma unvisit (visited : gset QName) ref :
  ref ∉ visited -> ({[ref]} ∪ visited) ∖ {[ref]} = visited.
Proof. intros H. apply set_eq. set_solver. Qed.

(** The loop over a shallow list, given that the recursive calls on the
    bodies of the groups not yet visited return. *)
Lemma resolveLoop_shallow n Groups fuel visited :
  n <= fuel ->
  (forall ref g heap group,
      ref ∉ visited -> Groups !! ref = Some g ->
      groupsShallow n Groups heap -> heap !! g = Some group ->
      exists inner heap1,
        resolveParticlesWithVisited fuel Groups (mgParticles group)
                                    ({[ref]} ∪ visited) heap
        = Some (inner, {[ref]} ∪ visited, heap1) /\
        heap ⊆ heap1 /\
        Resolves Groups heap1 ({[ref]} ∪ visited) (mgParticles group) inner) ->
  forall ps resolved heap,
    groupsShallow n Groups heap -> shallow n heap ps = true ->
    exists out heap',
      resolveLoop (resolveParticlesWithVisited fuel Groups) Groups ps resolved
                  visited heap = Some (resolved ++ out, visited, heap') /\
      heap ⊆ heap' /\ Resolves Groups heap' visited ps out.
Proof.
  intros Hn Hrec. induction ps as [|p ps IHps]; intros resolved heap HG Hps.
  { exists [], heap. cbn. rewrite app_nil_r. split; [done|]. split; [done|constructor]. }
  cbn [shallow forallb] in Hps. apply andb_prop in Hps as [Hp Hps].
  assert (forall q heap0, heap ⊆ heap0 -> groupsShallow n Groups heap0 ->
            exists out heap',
              resolveLoop (resolveParticlesWithVisited fuel Groups) Groups ps
                          (resolved ++ [q]) visited heap0
              = Some (resolved ++ q :: out, visited, heap') /\
              heap0 ⊆ heap' /\ Resolves Groups heap' visited ps out) as Hrest.
  { intros q heap0 Hsub0 HG0.
    destruct (IHps (resolved ++ [q]) heap0 HG0 (shallow_mono _ _ _ _ Hsub0 Hps))
      as (out & heap' & E & Hsub & HR).
    rewrite <- List.app_assoc in E. by exists out, heap'. }
  destruct p as [d|ref mn mx|ref mn mx|ns pc mn mx|a]; cbn [resolveLoop].
  - destruct (Hrest (ElementDeclP d) heap ltac:(done) HG) as (out & heap' & E & Hsub & HR).
    exists (ElementDeclP d :: out), heap'. split; [exact E|]. split; [done|].
    by apply Resolves_other.
  - destruct (Hrest (ElementRefP ref mn mx) heap ltac:(done) HG) as (out & heap' & E & Hsub & HR).
    exists (ElementRefP ref mn mx :: out), heap'. split; [exact E|]. split; [done|].
    by apply Resolves_other.
  - case_bool_decide as Hv.
    { destruct (Hrest (GroupRefP ref mn mx) heap ltac:(done) HG) as (out & heap' & E & Hsub & HR).
      exists (GroupRefP ref mn mx :: out), heap'. split; [exact E|]. split; [done|].
      by apply Resolves_cycle. }
    destruct (Groups !! ref) as [g|] eqn:Eg.
    2:{ rewrite (unvisit _ _ Hv).
        destruct (Hrest (GroupRefP ref mn mx) heap ltac:(done) HG) as (out & heap' & E & Hsub & HR).
        exists (GroupRefP ref mn mx :: out), heap'. split; [exact E|]. split; [done|].
        by apply Resolves_undeclared. }
    pose proof (HG ref g Eg) as Hg. cbn in Hg. unfold shallowAt in Hg.
    destruct (heap !! g) as [group|] eqn:Egroup; [|discriminate Hg].
    destruct (Hrec ref g heap group Hv Eg HG Egroup) as (inner & heap1 & E1 & Hsub1 & HR1).
    rewrite E1. fold (expansion group inner mn mx). unfold alloc.
    set (a := fresh (dom heap1)). rewrite (unvisit _ _ Hv).
    assert (heap1 !! a = None) as Ha by apply not_elem_of_dom, is_fresh.
    assert (heap1 ⊆ <[a := expansion group inner mn mx]> heap1) as Hsub2
      by by apply insert_subseteq.
    destruct (Hrest (ModelGroupP a) (<[a := expansion group inner mn mx]> heap1))
      as (out & heap' & E & Hsub & HR).
    { by etrans. }
    { apply (groupsShallow_mono heap); [by etrans|done]. }
    exists (ModelGroupP a :: out), heap'. split; [exact E|].
    split; [by etrans; [|etrans]|].
    eapply Resolves_expand; [done|exact Eg| | | |done].
    + eapply lookup_weaken; [exact Egroup|]. by etrans; [|etrans].
    + eapply lookup_weaken; [apply lookup_insert_eq|done].
    + eapply Resolves_mono; [|exact HR1]. by etrans.
  - destruct (Hrest (AnyElementP ns pc mn mx) heap ltac:(done) HG) as (out & heap' & E & Hsub & HR).
    exists (AnyElementP ns pc mn mx :: out), heap'. split; [exact E|]. split; [done|].
    by apply Resolves_other.
  - destruct n as [|n']; [discriminate Hp|]. cbn in Hp.
    destruct (heap !! a) as [mg|] eqn:Ea; [|discriminate Hp].
    rewrite (resolve_plain Groups visited heap fuel n' (mgParticles mg) Hp ltac:(lia)).
    rewrite (setParticles_same _ _ _ Ea).
    destruct (Hrest (ModelGroupP a) heap ltac:(done) HG) as (out & heap' & E & Hsub & HR).
    exists (ModelGroupP a :: out), heap'. split; [exact E|]. split; [done|].
    by apply Resolves_other.
Qed.

(** Shallow groups: every call returns, with [visited] as it found it and a
    heap that has only grown.  [k] bounds the number of declared groups
    that are not being expanded. *)
Lemma resolve_shallow n Groups : forall k fuel ps visited heap,
  groupsShallow n Groups heap -> shallow n heap ps = true ->
  size (dom Groups ∖ visited) <= k -> k + n + 1 <= fuel ->
  exists out heap',
    resolveParticlesWithVisited fuel Groups ps visited heap = Some (out, visited, heap') /\
    heap ⊆ heap' /\
    Resolves Groups heap' visited ps out.
Proof.
  induction k as [|k IHk]; intros fuel ps visited heap HG Hps Hk Hfuel;
    (destruct fuel as [|fuel]; [lia|]); rewrite resolve_unfold;
    apply (resolveLoop_shallow n Groups fuel visited ltac:(lia)); try done.
  - (* no declared group is left unvisited *)
    intros ref g heap0 group Hv Eg _ _. exfalso. apply elem_of_dom_2 in Eg.
    assert (ref ∈ dom Groups ∖ visited) as Hin by set_solver.
    assert (dom Groups ∖ visited ≡ ∅) as Hemp by (apply size_empty_inv; lia).
    set_solver.
  - intros ref g heap0 group Hv Eg HG0 Egroup.
    apply IHk; [done| |by apply (unvisited_pred _ _ _ g)|lia].
    pose proof (HG0 ref g Eg) as Hg. cbn in Hg. unfold shallowAt in Hg.
    by rewrite Egroup in Hg.
Qed.

(** ** Mutually recursive groups

    [<xs:group name="A"><xs:sequence><xs:choice><xs:any/></xs:choice>
    <xs:group ref="B" minOccurs="0"/></xs:sequence></xs:group>] and
    [<xs:group name="B"><xs:choice><xs:group ref="A"/></xs:choice></xs:group>]. *)

Definition A : QName := mkQName "urn:t" "A".
Definition B : QName := mkQName "urn:t" "B".

Definition mutualGroups : gmap QName addr := {[ A := 1%positive; B := 2%positive ]}.

Definition mutualHeap : Heap :=
  {[ 1%positive := mkModelGroup SequenceGroup
                                [ModelGroupP 3%positive; GroupRefP B 0 1] 1 1;
     2%positive := mkModelGroup ChoiceGroup [GroupRefP A 1 1] 1 1;
     3%positive := mkModelGroup ChoiceGroup [AnyElementP "##any" "strict" 1 1] 1 1 ]}.

(** Resolving the body of [A]: the reference to [B] becomes a copy of [B],
    whose reference to [A] becomes a copy of [A], in which the reference to
    [B] is kept. *)
Example mutual_groups_resolved :
  exists a b heap,
    resolveParticles 4 mutualGroups [ModelGroupP 3%positive; GroupRefP B 0 1] mutualHeap
    = Some ([ModelGroupP 3%positive; ModelGroupP b], heap) /\
    heap !! b = Some (mkModelGroup ChoiceGroup [ModelGroupP a] 0 1) /\
    heap !! a = Some (mkModelGroup SequenceGroup
                                   [ModelGroupP 3%positive; GroupRefP B 0 1] 1 1) /\
    a <> 1%positive /\ b <> 2%positive.
Proof.
  eexists _, _, _. split; [vm_compute; reflexivity|].
  split; [by vm_compute|]. split; [by vm_compute|]. split; by vm_compute.
Qed.

(** A call on a heap as the parser leaves it: when the group references of
    the particle list and of every named group's body sit directly in those
    lists (none inside a nested model group), resolution returns for every
    fuel from
    [size Groups + n + 1] on, always with the same result.  The visited set
    is handed back as it was received and the objects that existed keep
    their contents.  The output has one particle per input particle; a
    reference is kept exactly where its group is being expanded (a cycle
    position) or is not declared, and every other reference is replaced by
    a new model group holding the resolved body of its group. *)
Theorem shallow_group_resolution_terminates
        n Groups particles visited heap :
  groupsShallow n Groups heap -> shallow n heap particles = true ->
  exists resolved heap',
    (forall fuel, size Groups + n + 1 <= fuel ->
       resolveParticlesWithVisited fuel Groups particles visited heap
       = Some (resolved, visited, heap')) /\
    heap ⊆ heap' /\
    Resolves Groups heap' visited particles resolved /\
    List.length resolved = List.length particles /\
    (forall ref mn mx, In (GroupRefP ref mn mx) resolved ->
       ref ∈ visited \/ Groups !! ref = None).
Proof.
  intros HG Hps.
  assert (size (dom Groups ∖ visited) <= size Groups) as Hk.
  { rewrite <- size_dom. apply subseteq_size. set_solver. }
  destruct (resolve_shallow n Groups (size Groups) (size Groups + n + 1)
                            particles visited heap HG Hps Hk ltac:(lia))
    as (resolved & heap' & E & Hsub & HR).
  exists resolved, heap'. split; [|split; [done|split; [done|split]]].
  - intros fuel Hfuel. by apply (resolve_ge (size Groups + n + 1)).
  - by apply Resolves_length in HR.
  - intros ref mn mx Hin. by destruct (Resolves_kept _ _ _ _ _ HR _ _ _ Hin).
Qed.

Lemma mutual_groups_witness :
  exists resolved heap',
    (forall fuel, size mutualGroups + 1 + 1 <= fuel ->
       resolveParticlesWithVisited fuel mutualGroups
                                   [ModelGroupP 3%positive; GroupRefP B 0 1] ∅ mutualHeap
       = Some (resolved, ∅, heap')) /\
    mutualHeap ⊆ heap' /\
    Resolves mutualGroups heap' ∅ [ModelGroupP 3%positive; GroupRefP B 0 1] resolved /\
    List.length resolved = List.length [ModelGroupP 3%positive; GroupRefP B 0 1] /\
    (forall ref mn mx, In (GroupRefP ref mn mx) resolved ->
       ref ∈ (∅ : gset QName) \/ mutualGroups !! ref = None).
Proof.
  apply (shallow_group_resolution_terminates 1 mutualGroups
           [ModelGroupP 3%positive; GroupRefP B 0 1] ∅ mutualHeap).
  - apply (bool_decide_unpack _). vm_compute. exact I.
  - vm_compute. reflexivity.
Defined.

(** The group [G] refers to itself from a nested sequence and again from
    its own body: resolving its body returns for no amount of fuel.  And a
    reference to a group that is not declared stays in the output although
    no group is being expanded. *)
Lemma group_resolution_counterexample :
  (forall fuel, resolveParticles fuel selfGroups selfBody selfHeap = None) /\
  resolveParticles 1 selfGroups [GroupRefP B 1 1] selfHeap
  = Some ([GroupRefP B 1 1], selfHeap) /\
  selfGroups !! B = None.
Proof.
  split; [exact self_reference_diverges|]. split; [|done].
  vm_compute. reflexivity.
Qed.

(** ** Later passes over mutually recursive groups

    Four groups whose references sit directly in their bodies: [A] and [B]
    refer to each other, [C] and [D] refer to [B].  Each call on the heap
    as parsed returns, but a call leaves kept references inside the copies
    it has made, and the next calls resolve them in place. *)

Definition C : QName := mkQName "urn:t" "C".
Definition D : QName := mkQName "urn:t" "D".

Definition fourGroups : gmap QName addr :=
  {[ A := 1%positive; B := 2%positive; C := 3%positive; D := 4%positive ]}.

Definition fourHeap : Heap :=
  {[ 1%positive := mkModelGroup SequenceGroup [GroupRefP B 1 1] 1 1;
     2%positive := mkModelGroup SequenceGroup [GroupRefP A 1 1] 1 1;
     3%positive := mkModelGroup SequenceGroup [GroupRefP B 1 1] 1 1;
     4%positive := mkModelGroup SequenceGroup [GroupRefP B 1 1] 1 1 ]}.

(** The heap after the groups [A], [B] and [C] have been resolved, in that
    order. *)
Definition afterThree : Heap :=
  default ∅ (resolveGroups 12 fourGroups [1%positive; 2%positive; 3%positive] fourHeap).

Lemma resolveGroup_ge fuel fuel' Groups g heap heap' :
  fuel <= fuel' ->
  resolveGroup fuel Groups g heap = Some heap' ->
  resolveGroup fuel' Groups g heap = Some heap'.
Proof.
  intros Hle. unfold resolveGroup, resolveParticles.
  destruct (heap !! g) as [group|]; [|done].
  destruct (resolveParticlesWithVisited fuel _ _ _ _) as [[[resolved v] h]|] eqn:E; [|done].
  by rewrite (resolve_ge _ _ _ _ _ _ _ Hle E).
Qed.

Lemma resolveGroups_ge fuel fuel' Groups order : fuel <= fuel' ->
  forall heap heap',
    resolveGroups fuel Groups order heap = Some heap' ->
    resolveGroups fuel' Groups order heap = Some heap'.
Proof.
  intros Hle. induction order as [|g order IH]; intros heap heap'; [done|].
  cbn [resolveGroups].
  destruct (resolveGroup fuel Groups g heap) as [h|] eqn:E; [|done].
  rewrite (resolveGroup_ge _ _ _ _ _ _ Hle E). apply IH.
Qed.

Lemma resolveGroups_app fuel Groups order1 order2 : forall heap,
  resolveGroups fuel Groups (order1 ++ order2) heap
  = match resolveGroups fuel Groups order1 heap with
    | Some heap' => resolveGroups fuel Groups order2 heap'
    | None => None
    end.
Proof.
  induction order1 as [|g order1 IH]; intros heap; [done|].
  cbn [app resolveGroups]. by destruct (resolveGroup fuel Groups g heap).
Qed.

(** The loop of [resolveReferences] over [A], [B], [C], [D] in that order:
    the first three iterations return and leave a cycle of objects behind,
    in which the fourth is caught. *)
Lemma later_pass_diverges :
  groupsShallow 0 fourGroups fourHeap /\
  resolveGroups 12 fourGroups [1%positive; 2%positive; 3%positive] fourHeap
  = Some afterThree /\
  closedChain afterThree {[5%positive; 6%positive; 7%positive; 8%positive; 9%positive]} /\
  forall fuel,
    resolveGroups fuel fourGroups [1%positive; 2%positive; 3%positive; 4%positive] fourHeap
    = None.
Proof.
  assert (closedChain afterThree
            {[5%positive; 6%positive; 7%positive; 8%positive; 9%positive]}) as Hchain.
  { apply (bool_decide_unpack _). vm_compute. exact I. }
  assert (resolveGroups 12 fourGroups [1%positive; 2%positive; 3%positive] fourHeap
          = Some afterThree) as Hthree by (vm_compute; reflexivity).
  split; [apply (bool_decide_unpack _); vm_compute; exact I|].
  split; [exact Hthree|]. split; [exact Hchain|].
  intros fuel. destruct (decide (fuel < 12)) as [Hlt|Hge].
  { do 12 (destruct fuel as [|fuel]; [by vm_compute|]). lia. }
  change [1%positive; 2%positive; 3%positive; 4%positive]
    with ([1%positive; 2%positive; 3%positive] ++ [4%positive]).
  rewrite resolveGroups_app.
  rewrite (resolveGroups_ge 12 fuel _ _ ltac:(lia) _ _ Hthree).
  cbn [resolveGroups]. unfold resolveGroup, resolveParticles.
  assert (afterThree !! 4%positive
          = Some (mkModelGroup SequenceGroup [GroupRefP B 1 1] 1 1)) as ->
    by by vm_compute.
  cbn [mgParticles]. destruct fuel as [|fuel]; [lia|].
  rewrite resolve_unfold. cbn [resolveLoop].
  rewrite bool_decide_false by set_solver.
  assert (fourGroups !! B = Some 2%positive) as -> by by vm_compute.
  assert (afterThree !! 2%positive
          = Some (mkModelGroup SequenceGroup [ModelGroupP 8%positive] 1 1)) as ->
    by by vm_compute.
  cbn [mgParticles].
  rewrite (chain_diverges _ _ _ Hchain fuel 8%positive); [done|set_solver].
Qed.

(** ** A second pass of [resolveReferences]

    [<xs:group name="A"><xs:sequence><xs:group ref="B"/></xs:sequence>
    </xs:group>] and [<xs:group name="B"><xs:sequence><xs:group ref="A"/>
    </xs:sequence></xs:group>].  [Parse] runs [resolveReferences] on the
    schema; the loader then merges the group objects, by pointer, into the
    combined schema and runs [resolveReferences] on it: the loop over the
    groups meets the same objects a second time. *)

Definition pairHeap : Heap :=
  {[ 1%positive := mkModelGroup SequenceGroup [GroupRefP B 1 1] 1 1;
     2%positive := mkModelGroup SequenceGroup [GroupRefP A 1 1] 1 1 ]}.

(** The orders in which one loop over the two groups can meet them. *)
Definition passes : list (list addr) :=
  [[1%positive; 2%positive]; [2%positive; 1%positive]].

Lemma passes_complete order :
  Permutation [1%positive; 2%positive] order -> order ∈ passes.
Proof.
  intros Hp. pose proof (Permutation_length Hp) as Hlen.
  destruct order as [|x [|y [|z order]]]; try done.
  assert (In 1%positive [x; y]) as H1 by (eapply Permutation_in; [exact Hp|by left]).
  assert (In 2%positive [x; y]) as H2
    by (eapply Permutation_in; [exact Hp|right; by left]).
  assert (In x [1%positive; 2%positive]) as Hx
    by (eapply Permutation_in; [symmetry; exact Hp|by left]).
  assert (In y [1%positive; 2%positive]) as Hy
    by (eapply Permutation_in; [symmetry; exact Hp|right; by left]).
  unfold passes. cbn in H1, H2, Hx, Hy.
  destruct Hx as [<-|[<-|[]]], Hy as [<-|[<-|[]]]; [|set_solver|set_solver|].
  - by destruct H2 as [|[|]].
  - by destruct H1 as [|[|]].
Qed.

(** An iteration of the loop on a group whose object lies on a closed
    chain never returns. *)
Lemma resolveGroup_in_chain Groups heap chain g :
  closedChain heap chain -> g ∈ chain ->
  forall fuel, resolveGroup fuel Groups g heap = None.
Proof.
  intros Hchain Hg fuel. unfold resolveGroup, resolveParticles.
  pose proof (Hchain g Hg) as Hstep. unfold chainStep, firstObject in Hstep.
  destruct (heap !! g) as [m|]; [|done].
  destruct (mgParticles m) as [|[d|r mn mx|r mn mx|ns pc mn mx|b] ps]; try done.
  apply bool_decide_eq_true in Hstep.
  by rewrite (chain_diverges _ _ _ Hchain fuel b ps ∅ Hstep).
Qed.

(** When the iterations over [prefix] return for some fuel and leave the
    next group on a closed chain, the loop over [prefix ++ [g]] returns for
    no fuel. *)
Lemma caught_after n Groups prefix g heap0 heap chain :
  resolveGroups n Groups prefix heap0 = Some heap ->
  closedChain heap chain -> g ∈ chain ->
  forall fuel, resolveGroups fuel Groups (prefix ++ [g]) heap0 = None.
Proof.
  intros Hn Hchain Hg fuel. rewrite resolveGroups_app.
  destruct (resolveGroups fuel Groups prefix heap0) as [h|] eqn:E; [|done].
  assert (h = heap) as ->.
  { pose proof (resolveGroups_ge fuel (fuel `max` n) Groups prefix ltac:(lia) _ _ E).
    pose proof (resolveGroups_ge n (fuel `max` n) Groups prefix ltac:(lia) _ _ Hn).
    congruence. }
  cbn [resolveGroups]. by rewrite (resolveGroup_in_chain _ _ _ _ Hchain Hg).
Qed.

(** The heap after the iterations over [order] on the two groups. *)
Definition afterPasses (order : list addr) : Heap :=
  default ∅ (resolveGroups 12 mutualGroups order pairHeap).

Lemma second_pass_caught prefix g :
  resolveGroups 12 mutualGroups prefix pairHeap = Some (afterPasses prefix) ->
  bool_decide (closedChain (afterPasses prefix) (dom (afterPasses prefix))) = true ->
  bool_decide (g ∈ dom (afterPasses prefix)) = true ->
  forall fuel, resolveGroups fuel mutualGroups (prefix ++ [g]) pairHeap = None.
Proof.
  intros Hn Hchain Hg. apply bool_decide_eq_true in Hchain, Hg.
  by apply (caught_after 12 _ _ _ _ _ _ Hn Hchain Hg).
Qed.

(** C4: group-reference resolution does not terminate on every input.

    One call: the group [G] refers to itself from a nested sequence and
    again from its own body, and [resolveParticles] on its body returns for
    no fuel.

    Mutually recursive groups [A] and [B], references directly in the
    bodies: one pass of the loop of [resolveReferences] returns, in either
    order and with one result for every fuel from 5 on; a second pass over
    the same objects returns for no fuel, whatever the order of the first
    and of the second pass.

    One pass: with two more groups that refer to [B], the loop in the order
    [A], [B], [C], [D] returns for no fuel. *)
Theorem group_resolution_diverges :
  (forall fuel, resolveParticles fuel selfGroups selfBody selfHeap = None) /\
  Forall (fun pass =>
            exists heap, forall fuel, 5 <= fuel ->
              resolveGroups fuel mutualGroups pass pairHeap = Some heap) passes /\
  Forall (fun first =>
            Forall (fun second =>
                      forall fuel,
                        resolveGroups fuel mutualGroups (first ++ second) pairHeap
                        = None) passes) passes /\
  (forall fuel,
     resolveGroups fuel fourGroups
                   [1%positive; 2%positive; 3%positive; 4%positive] fourHeap = None).
Proof.
  split; [exact self_reference_diverges|].
  split; [|split; [|exact (proj2 (proj2 (proj2 later_pass_diverges)))]].
  - unfold passes. repeat first [apply Forall_cons_2|apply Forall_nil_2].
    + eexists. intros fuel Hfuel.
      apply (resolveGroups_ge 5 fuel _ _ Hfuel). vm_compute. reflexivity.
    + eexists. intros fuel Hfuel.
      apply (resolveGroups_ge 5 fuel _ _ Hfuel). vm_compute. reflexivity.
  - unfold passes. repeat first [apply Forall_cons_2|apply Forall_nil_2].
    + apply (second_pass_caught [1%positive; 2%positive; 1%positive] 2%positive);
        by vm_compute.
    + apply (second_pass_caught [1%positive; 2%positive; 2%positive] 1%positive);
        by vm_compute.
    + apply (second_pass_caught [2%positive; 1%positive; 1%positive] 2%positive);
        by vm_compute.
    + apply (second_pass_caught [2%positive; 1%positive; 2%positive] 1%positive);
        by vm_compute.
Qed.
End ResolverFacts.

(** * The edit distance of attribute suggestions *)

Module EditDistanceFacts.
Import GoStrings ValidatorHelpers.

Lemma min_spec a b c : min a b c = Nat.min a (Nat.min b c).
Proof.
  unfold min.
  destruct (a <? b)%nat eqn:E1; destruct (a <? c)%nat eqn:E2;
    destruct (b <? c)%nat eqn:E3;
    repeat match goal with
           | H : (_ <? _)%nat = true |- _ => apply Nat.ltb_lt in H
           | H : (_ <? _)%nat = false |- _ => apply Nat.ltb_ge in H
           end; lia.
Qed.

(** The edit distance of two byte sequences, by the recurrence of Wagner
    and Fischer on their first bytes: delete, insert, or substitute at
    cost one, keep an equal byte at cost zero. *)
Fixpoint lev (s1 s2 : list ascii) {struct s1} : nat :=
  match s1 with
  | [] => List.length s2
  | c1 :: t1 =>
    (fix inner (s2 : list ascii) : nat :=
       match s2 with
       | [] => List.length s1
       | c2 :: t2 =>
         min (lev t1 (c2 :: t2) + 1) (inner t2 + 1)
             (lev t1 t2 + (if Ascii.eqb c1 c2 then 0 else 1))
       end) s2
  end.

Lemma lev_nil_r s : lev s [] = List.length s.
Proof. by destruct s. Qed.

Lemma lev_cons_cons c1 t1 c2 t2 :
  lev (c1 :: t1) (c2 :: t2)
  = min (lev t1 (c2 :: t2) + 1) (lev (c1 :: t1) t2 + 1)
        (lev t1 t2 + (if Ascii.eqb c1 c2 then 0 else 1)).
Proof. reflexivity. Qed.

Lemma lev_sym : forall a b, lev a b = lev b a.
Proof.
  induction a as [|c1 t1 IHa]; intros b; [by rewrite lev_nil_r|].
  induction b as [|c2 t2 IHb]; [done|].
  rewrite !lev_cons_cons, IHb, (IHa (c2 :: t2)), (IHa t2), !min_spec.
  rewrite (Ascii.eqb_sym c2 c1). lia.
Qed.

Lemma lev_refl a : lev a a = 0.
Proof.
  induction a as [|c t IH]; [done|].
  rewrite lev_cons_cons, IH, Ascii.eqb_refl, min_spec. lia.
Qed.

Lemma lev_bounds : forall a b,
  lev a b <= Nat.max (List.length a) (List.length b) /\
  List.length a - List.length b <= lev a b /\
  List.length b - List.length a <= lev a b.
Proof.
  induction a as [|c1 t1 IHa]; intros b; [cbn; lia|].
  induction b as [|c2 t2 IHb]; [cbn; lia|].
  rewrite lev_cons_cons, min_spec.
  pose proof (IHa (c2 :: t2)) as H1. pose proof (IHa t2) as H2.
  cbn [List.length] in *. destruct (Ascii.eqb c1 c2); lia.
Qed.

Lemma lev_zero : forall a b, lev a b = 0 -> a = b.
Proof.
  induction a as [|c1 t1 IHa]; intros b.
  { destruct b; [done|]. cbn. lia. }
  induction b as [|c2 t2 IHb]; [cbn; lia|].
  rewrite lev_cons_cons, min_spec. intros H.
  destruct (Ascii.eqb c1 c2) eqn:E.
  - apply Ascii.eqb_eq in E as ->. f_equal. apply IHa. lia.
  - lia.
Qed.

(** The row of the matrix for the prefix of [s1] whose reversal is [r1],
    from the column of the prefix of [s2] whose reversal is [rdone] on. *)
Fixpoint rowSpec (r1 rdone rest : list ascii) : list nat :=
  lev r1 rdone ::
  match rest with
  | [] => []
  | c :: rest' => rowSpec r1 (c :: rdone) rest'
  end.

Lemma fillRow_spec c r1 : forall rest rdone,
  fillRow c rest (rowSpec r1 rdone rest) (lev (c :: r1) rdone)
  = tail (rowSpec (c :: r1) rdone rest).
Proof.
  induction rest as [|c2 rest IH]; intros rdone; [done|].
  cbn [rowSpec tail]. destruct rest as [|c3 rest'].
  - cbn [fillRow rowSpec]. by rewrite lev_cons_cons.
  - cbn [fillRow]. cbn [rowSpec] in IH. cbn [rowSpec].
    rewrite <- lev_cons_cons. f_equal.
    specialize (IH (c2 :: rdone)). cbn [tail] in IH. exact IH.
Qed.

Fixpoint rowsSpec (r1 s1rest s2 : list ascii) : list (list nat) :=
  match s1rest with
  | [] => []
  | c :: t => rowSpec (c :: r1) [] s2 :: rowsSpec (c :: r1) t s2
  end.

Lemma fillRows_spec s2 : forall s1rest r1,
  fillRows (S (List.length r1)) s1rest s2 (rowSpec r1 [] s2) = rowsSpec r1 s1rest s2.
Proof.
  induction s1rest as [|c t IH]; intros r1; [done|].
  cbn [fillRows rowsSpec].
  assert (S (List.length r1) :: fillRow c s2 (rowSpec r1 [] s2) (S (List.length r1))
          = rowSpec (c :: r1) [] s2) as ->.
  { change (S (List.length r1)) with (lev (c :: r1) []) at 2.
    rewrite fillRow_spec. by destruct s2. }
  f_equal. apply (IH (c :: r1)).
Qed.

Lemma rowSpec_nil : forall rest rdone,
  rowSpec [] rdone rest = seq (List.length rdone) (S (List.length rest)).
Proof. induction rest as [|c rest IH]; intros rdone; cbn; [done|]. by rewrite IH. Qed.

Lemma matrix_spec s1 s2 : matrix s1 s2 = rowSpec [] [] s2 :: rowsSpec [] s1 s2.
Proof.
  unfold matrix. rewrite rowSpec_nil. cbn [List.length]. f_equal.
  rewrite <- (fillRows_spec s2 s1 []). by rewrite rowSpec_nil.
Qed.

Lemma nth_rowSpec r1 : forall rest rdone,
  nth (List.length rest) (rowSpec r1 rdone rest) 0 = lev r1 (rev rest ++ rdone).
Proof.
  induction rest as [|c rest IH]; intros rdone; [done|].
  cbn [List.length rowSpec nth rev]. rewrite IH. by rewrite <- app_assoc.
Qed.

Lemma nth_rowsSpec s2 : forall s1rest r1 c,
  nth (List.length s1rest) (rowsSpec r1 (c :: s1rest) s2) []
  = rowSpec (rev (c :: s1rest) ++ r1) [] s2.
Proof.
  induction s1rest as [|c' t IH]; intros r1 c; [done|].
  cbn [List.length].
  change (rowsSpec r1 (c :: c' :: t) s2)
    with (rowSpec (c :: r1) [] s2 :: rowsSpec (c :: r1) (c' :: t) s2).
  cbn [nth]. rewrite IH. cbn [rev]. by rewrite <- !app_assoc.
Qed.

Lemma length_bytes s : List.length (bytes s) = String.length s.
Proof. induction s as [|c s IH]; cbn; [done|]. by rewrite <- IH. Qed.

Lemma levenshteinDistance_lev s1 s2 :
  levenshteinDistance s1 s2 = lev (rev (bytes s1)) (rev (bytes s2)).
Proof.
  unfold levenshteinDistance. rewrite <- !length_bytes.
  destruct (bytes s1) as [|c1 t1] eqn:E1.
  { cbn. by rewrite length_rev. }
  destruct (bytes s2) as [|c2 t2] eqn:E2.
  { cbn [List.length Nat.eqb]. by rewrite lev_nil_r, length_rev. }
  cbn [List.length Nat.eqb]. rewrite matrix_spec.
  cbn [nth]. rewrite nth_rowsSpec, app_nil_r.
  change (S (List.length t2)) with (List.length (c2 :: t2)).
  by rewrite nth_rowSpec, app_nil_r.
Qed.

Lemma rev_bytes_inj s1 s2 : rev (bytes s1) = rev (bytes s2) -> s1 = s2.
Proof.
  intros H. apply (f_equal (@rev ascii)) in H. rewrite !rev_involutive in H.
  rewrite <- (string_of_list_ascii_of_string s1), <- (string_of_list_ascii_of_string s2).
  unfold bytes in H. by rewrite H.
Qed.

(** X1: [levenshteinDistance] is the edit distance.  The entry of the
    matrix that it returns is the Wagner-Fischer distance of the two byte
    strings (read from their last bytes, as the matrix is filled by
    prefixes).  So the distance is symmetric, it is zero exactly for equal
    strings, it is at most the longer length and at least the difference
    of the lengths. *)
Theorem levenshteinDistance_is_edit_distance (s1 s2 : string) :
  levenshteinDistance s1 s2 = lev (rev (bytes s1)) (rev (bytes s2)) /\
  levenshteinDistance s1 s2 = levenshteinDistance s2 s1 /\
  (levenshteinDistance s1 s2 = 0 <-> s1 = s2) /\
  levenshteinDistance s1 s2 <= Nat.max (String.length s1) (String.length s2) /\
  String.length s1 - String.length s2 <= levenshteinDistance s1 s2 /\
  String.length s2 - String.length s1 <= levenshteinDistance s1 s2.
Proof.
  rewrite !levenshteinDistance_lev. split; [done|]. split; [apply lev_sym|].
  split.
  - split; [intros H; by apply rev_bytes_inj, lev_zero|intros ->; apply lev_refl].
  - pose proof (lev_bounds (rev (bytes s1)) (rev (bytes s2))) as H.
    by rewrite !length_rev, !length_bytes in H.
Qed.

Example levenshteinDistance_example :
  levenshteinDistance "kitten" "sitting" = 3 /\ levenshteinDistance "" "abc" = 3.
Proof. split; reflexivity. Qed.
End EditDistanceFacts.

(** * Child sequences and wildcard validation *)

Module ChildSequenceFacts.
Import GoStrings Dom Instance Fmt ValidatorHelpers.

Definition placementCode (v : Violation) : Prop :=
  Code v = "cvc-complex-type.2.4.a" \/ Code v = "cvc-complex-type.2.4.d".

Lemma childSequenceLoop_spec : forall children expected vs,
  exists extra,
    childSequenceLoop children expected vs
    = (vs ++ extra, drop (List.length children) expected) /\
    (extra = [] <->
     map LocalName children = take (List.length children) expected) /\
    Forall placementCode extra.
Proof.
  induction children as [|child rest IH]; intros expected vs.
  { exists []. cbn. rewrite app_nil_r, drop_0. by rewrite take_0. }
  cbn [childSequenceLoop]. destruct expected as [|name expected].
  - destruct (IH [] (vs ++ [mkViolation (Some child) "" "cvc-complex-type.2.4.d"
                        ("Element '" ++ LocalName child ++ "' is not expected here")
                        [] (LocalName child)])) as (extra & -> & _ & Hc).
    eexists (_ :: extra). rewrite <- app_assoc. split; [by rewrite !drop_nil|].
    split; [split; [done|by rewrite take_nil]|].
    apply Forall_cons. split; [by right|done].
  - destruct (String.eqb (LocalName child) name) eqn:E; cbn [negb].
    + destruct (IH expected vs) as (extra & -> & Hiff & Hc). exists extra.
      split; [done|]. split; [|done]. apply String.eqb_eq in E.
      cbn [List.length map take].
      rewrite Hiff. split; [by intros ->; rewrite E|by intros [= _ ->]].
    + destruct (IH expected (vs ++ [mkViolation (Some child) "" "cvc-complex-type.2.4.a"
                         ("Element name '" ++ LocalName child ++ "' is invalid")
                         (name :: expected) (LocalName child)])) as (extra & -> & _ & Hc).
      eexists (_ :: extra). rewrite <- app_assoc. split; [done|].
      split; [|apply Forall_cons; split; [by left|done]].
      split; [done|]. cbn [List.length map take]. intros [= H _].
      apply String.eqb_neq in E. done.
Qed.

Lemma drop_nil_length {A} (l : list A) n : drop n l = [] <-> (List.length l <= n)%nat.
Proof.
  split; [|by apply drop_ge]. intros H. apply (f_equal (@List.length A)) in H.
  rewrite length_drop in H. cbn in H. lia.
Qed.

(** X2: [ValidateChildSequence] reports nothing exactly when the local
    names of the element children are the expected names, in order.  When
    there are fewer children than expected names, the last violation is
    [cvc-complex-type.2.4.b] on the parent, and it lists the expected
    names that no child stands for; otherwise every violation is a
    [cvc-complex-type.2.4.a] or a [cvc-complex-type.2.4.d] on a child. *)
Theorem ValidateChildSequence_accepts_exact_sequence
        (elem : Element) (expected : list string) :
  (ValidateChildSequence elem expected = []
   <-> map LocalName (Children elem) = expected) /\
  ((List.length (Children elem) < List.length expected)%nat ->
   exists earlier,
     Forall placementCode earlier /\
     ValidateChildSequence elem expected
     = earlier ++
       [mkViolation (Some elem) "" "cvc-complex-type.2.4.b"
          ("Missing required elements: "
           ++ sliceV (drop (List.length (Children elem)) expected))
          (drop (List.length (Children elem)) expected) ""]) /\
  ((List.length expected <= List.length (Children elem))%nat ->
   Forall placementCode (ValidateChildSequence elem expected)).
Proof.
  unfold ValidateChildSequence.
  destruct (childSequenceLoop_spec (Children elem) expected [])
    as (extra & -> & Hiff & Hcodes).
  cbn [app]. set (children := Children elem) in *.
  pose proof (drop_nil_length expected (List.length children)) as Hdrop.
  destruct (drop (List.length children) expected) as [|m ms] eqn:Ed.
  - assert (List.length expected <= List.length children)%nat as Hle by by apply Hdrop.
    split; [|split; [lia|done]].
    rewrite Hiff. by rewrite take_ge.
  - assert (List.length children < List.length expected)%nat as Hlt.
    { destruct (decide (List.length expected <= List.length children)%nat) as [Hle|];
        [|lia]. by apply Hdrop in Hle. }
    split; [|split; [|lia]].
    + split; [by destruct extra|]. intros H.
      apply (f_equal (@List.length _)) in H. rewrite length_map in H. lia.
    + intros _. by exists extra.
Qed.

Lemma ValidateChildSequence_witness :
  exists earlier,
    Forall placementCode earlier /\
    ValidateChildSequence (mkElement 1 "" "r" [] [ElementNode (mkElement 2 "" "b" [] [])])
                          ["a"; "c"]
    = earlier ++
      [mkViolation (Some (mkElement 1 "" "r" [] [ElementNode (mkElement 2 "" "b" [] [])]))
                   "" "cvc-complex-type.2.4.b" "Missing required elements: [c]" ["c"] ""].
Proof.
  apply (proj1 (proj2 (ValidateChildSequence_accepts_exact_sequence
           (mkElement 1 "" "r" [] [ElementNode (mkElement 2 "" "b" [] [])])
           ["a"; "c"]))).
  cbn. lia.
Defined.
End ChildSequenceFacts.

Module WildcardValidationFacts.
Import GoStrings Dom Components Instance Wildcards Fmt WildcardValidation.

Lemma CountWildcardMatches_filter elements ns t :
  CountWildcardMatches elements ns t
  = List.length (List.filter (fun e => MatchesWildcard (NamespaceURI e) ns t) elements).
Proof.
  unfold CountWildcardMatches.
  assert (forall l n,
            fold_left (fun count elem =>
                         if MatchesWildcard (NamespaceURI elem) ns t
                         then S count else count) l n
            = n + List.length (List.filter
                                 (fun e => MatchesWildcard (NamespaceURI e) ns t) l)) as H.
  { induction l as [|e l IH]; intros n; cbn; [lia|]. rewrite IH.
    destruct (MatchesWildcard _ _ _); cbn; lia. }
  by rewrite H.
Qed.

(** X3: [ValidateWildcardOccurrences] reports nothing exactly when the
    count lies between [minOccurs] and [maxOccurs], where a [maxOccurs] of
    -1 is no bound.  Too few matches give [cvc-complex-type.2.4.b], too
    many [cvc-complex-type.2.4.d], and a count that is both gives both, in
    that order.  [CountWildcardMatches] counts the elements whose namespace
    the constraint matches. *)
Theorem ValidateWildcardOccurrences_bounds (matchCount minOcc maxOcc : Z) :
  let within := (minOcc <= matchCount)%Z /\ (maxOcc = -1 \/ matchCount <= maxOcc)%Z in
  (ValidateWildcardOccurrences matchCount minOcc maxOcc = [] <-> within) /\
  map Code (ValidateWildcardOccurrences matchCount minOcc maxOcc)
  = (if (matchCount <? minOcc)%Z then ["cvc-complex-type.2.4.b"] else [])
    ++ (if negb (maxOcc =? -1)%Z && (maxOcc <? matchCount)%Z
        then ["cvc-complex-type.2.4.d"] else []) /\
  (forall elements ns t,
     ValidateWildcardOccurrences
       (Z.of_nat (CountWildcardMatches elements ns t)) minOcc maxOcc = []
     <-> (minOcc <= Z.of_nat (List.length
            (List.filter (fun e => MatchesWildcard (NamespaceURI e) ns t) elements)))%Z
         /\ (maxOcc = -1
             \/ Z.of_nat (List.length
                  (List.filter (fun e => MatchesWildcard (NamespaceURI e) ns t) elements))
                <= maxOcc)%Z).
Proof.
  assert (forall c, ValidateWildcardOccurrences c minOcc maxOcc = []
                    <-> (minOcc <= c)%Z /\ (maxOcc = -1 \/ c <= maxOcc)%Z) as Hiff.
  { intros c. unfold ValidateWildcardOccurrences.
    destruct (c <? minOcc)%Z eqn:E1; destruct (maxOcc =? -1)%Z eqn:E2;
      destruct (maxOcc <? c)%Z eqn:E3; cbn [negb andb app];
      repeat match goal with
             | H : (_ <? _)%Z = true |- _ => apply Z.ltb_lt in H
             | H : (_ <? _)%Z = false |- _ => apply Z.ltb_ge in H
             | H : (_ =? _)%Z = true |- _ => apply Z.eqb_eq in H
             | H : (_ =? _)%Z = false |- _ => apply Z.eqb_neq in H
             end; split; try done; try lia; intros [? [?|?]]; lia. }
  intros within. split; [apply Hiff|]. split.
  - unfold ValidateWildcardOccurrences.
    by destruct (matchCount <? minOcc)%Z, (negb (maxOcc =? -1)%Z && (maxOcc <? matchCount)%Z).
  - intros elements ns t. rewrite Hiff. by rewrite CountWildcardMatches_filter.
Qed.

Definition knownMode (ProcessContents : string) : bool :=
  String.eqb ProcessContents "" || String.eqb ProcessContents "strict"
  || String.eqb ProcessContents "lax" || String.eqb ProcessContents "skip".

Definition exemptAttribute (attr : Attr) : bool :=
  String.eqb (attrNamespaceURI attr) "http://www.w3.org/2000/xmlns/"
  || String.eqb (attrLocalName attr) "xmlns"
  || String.eqb (attrNamespaceURI attr) "http://www.w3.org/2001/XMLSchema-instance".

Ltac modes :=
  repeat match goal with
         | |- context [String.eqb ?a ?b] => destruct (String.eqb a b) eqn:?
         end.

(** X4: [ValidateAnyAttribute].  Namespace declarations and attributes of
    the schema-instance namespace are never reported.  Any other attribute
    gets at most one violation: [cvc-wildcard-attribute.2] when the
    namespace constraint does not match its namespace, else
    [cvc-wildcard-attribute.3] when [processContents] is none of the
    empty string, [strict], [lax] and [skip].  No declaration is ever
    looked up: [strict], [lax] and [skip] accept the same attributes. *)
Theorem ValidateAnyAttribute_cases (attr : Attr) (ns pc : string) (schema : Schema) :
  let result := ValidateAnyAttribute attr ns pc schema in
  let inNamespace :=
    Matches (ParseNamespaceConstraint ns) (attrNamespaceURI attr) (TargetNamespace schema) in
  map Code result
  = (if exemptAttribute attr then []
     else if negb inNamespace then ["cvc-wildcard-attribute.2"]
     else if knownMode pc then []
     else ["cvc-wildcard-attribute.3"]) /\
  (result = [] <-> exemptAttribute attr = true
                   \/ (inNamespace = true /\ knownMode pc = true)) /\
  (forall pc', knownMode pc = true -> knownMode pc' = true ->
               ValidateAnyAttribute attr ns pc' schema = result).
Proof.
  intros result inNamespace. subst result inNamespace.
  unfold ValidateAnyAttribute, exemptAttribute, knownMode.
  set (m := Matches _ _ _).
  split; [|split].
  - destruct (String.eqb (attrNamespaceURI attr) "http://www.w3.org/2000/xmlns/"),
      (String.eqb (attrLocalName attr) "xmlns"),
      (String.eqb (attrNamespaceURI attr) "http://www.w3.org/2001/XMLSchema-instance"),
      m; cbn [orb negb andb]; try done;
      destruct (String.eqb pc "") eqn:E0; cbn [orb]; try done;
      destruct (String.eqb pc "strict"), (String.eqb pc "lax"), (String.eqb pc "skip");
      done.
  - destruct (String.eqb (attrNamespaceURI attr) "http://www.w3.org/2000/xmlns/"),
      (String.eqb (attrLocalName attr) "xmlns"),
      (String.eqb (attrNamespaceURI attr) "http://www.w3.org/2001/XMLSchema-instance"),
      m; cbn [orb negb andb]; try (split; [by left| done]);
      try (split; [done|by intros [|[]]]);
      destruct (String.eqb pc "") eqn:E0; cbn [orb];
      try (split; [by right|done]);
      destruct (String.eqb pc "strict"), (String.eqb pc "lax"), (String.eqb pc "skip");
      cbn [orb]; try (split; [by right|done]); (split; [done|by intros [|[]]]).
  - intros pc' H H'.
    destruct (String.eqb (attrNamespaceURI attr) "http://www.w3.org/2000/xmlns/"),
      (String.eqb (attrLocalName attr) "xmlns"),
      (String.eqb (attrNamespaceURI attr) "http://www.w3.org/2001/XMLSchema-instance"),
      m; cbn [orb negb andb]; try done.
    destruct (String.eqb pc "") eqn:E0, (String.eqb pc' "") eqn:E0'; cbn [orb] in *;
      try done;
      destruct (String.eqb pc "strict"), (String.eqb pc "lax"), (String.eqb pc "skip"),
        (String.eqb pc' "strict"), (String.eqb pc' "lax"), (String.eqb pc' "skip");
      done.
Qed.

Section AnyElementFacts.
Variable typeValidate : XsdType -> Element -> Schema -> list Violation.

Definition acceptsNamespace (schema : Schema) (ns : string) (elem : Element) : bool :=
  MatchesWildcard (NamespaceURI elem) ns (TargetNamespace schema).

(** X5: [ValidateAnyElement].  An element whose namespace the constraint
    does not match gets the single violation [cvc-wildcard.2], whatever
    [processContents] says.  Otherwise [skip] reports nothing; [strict]
    (also the default for an empty [processContents]) and [lax] report
    what the type of the element's declaration reports, and differ only
    for an element without declaration, which [lax] accepts and [strict]
    answers with [cvc-assess-elt.1.1.1]; any other mode gives
    [cvc-wildcard.3]. *)
Theorem ValidateAnyElement_cases (elem : Element) (ns pc : string) (schema : Schema) :
  let validate := ValidateAnyElement typeValidate elem ns in
  let declared := ElementDecls schema !! mkQName (NamespaceURI elem) (LocalName elem) in
  (acceptsNamespace schema ns elem = false ->
   map Code (validate pc schema) = ["cvc-wildcard.2"]) /\
  (acceptsNamespace schema ns elem = true ->
   validate "skip" schema = [] /\
   validate "" schema = validate "strict" schema /\
   (forall decl, declared = Some decl ->
      validate "strict" schema = declaredViolations typeValidate decl elem schema /\
      validate "lax" schema = validate "strict" schema) /\
   (declared = None ->
      validate "lax" schema = [] /\
      map Code (validate "strict" schema) = ["cvc-assess-elt.1.1.1"]) /\
   (knownMode pc = false -> map Code (validate pc schema) = ["cvc-wildcard.3"])).
Proof.
  intros validate declared. subst validate declared.
  unfold acceptsNamespace, MatchesWildcard, ValidateAnyElement.
  set (m := Matches _ _ _). split.
  - by intros ->.
  - intros ->. cbn [negb String.eqb Ascii.eqb Bool.eqb].
    split; [done|]. split; [done|]. split; [|split].
    + by intros decl ->.
    + by intros ->.
    + unfold knownMode. intros H.
      destruct (String.eqb pc "") eqn:E0; [done|]. cbn [orb] in H.
      destruct (String.eqb pc "strict"); [done|].
      destruct (String.eqb pc "lax"); [done|].
      by destruct (String.eqb pc "skip").
Qed.

Example ValidateAnyElement_rejects_namespace :
  map Code (ValidateAnyElement (fun _ _ _ => [])
              (mkElement 1 "urn:other" "x" [] []) "##targetNamespace" "skip"
              (mkSchema "urn:t" ∅ ∅ ∅ [] ∅))
  = ["cvc-wildcard.2"].
Proof. vm_compute. reflexivity. Qed.

(** The loop of [matchWildcard], from [matched] matches on. *)
Lemma matchWildcardLoop_spec ns pc minOcc maxOcc schema :
  forall children matched vs, (0 <= matched)%Z ->
  exists k,
    (k <= List.length children)%nat /\
    matchWildcardLoop typeValidate children ns pc minOcc maxOcc schema matched vs
    = ((matched + Z.of_nat k)%Z,
       vs ++ concat (map (fun c => ValidateAnyElement typeValidate c ns pc schema)
                         (take k children))) /\
    Forall (fun c => acceptsNamespace schema ns c = true) (take k children) /\
    (forall c, children !! k = Some c ->
       acceptsNamespace schema ns c = false
       \/ (maxOcc <> (-1)%Z /\ (maxOcc <= matched + Z.of_nat k)%Z /\ (0 < k)%nat)) /\
    (maxOcc <> (-1)%Z -> (k <= 1)%nat \/ (matched + Z.of_nat k <= maxOcc)%Z).
Proof.
  induction children as [|child rest IH]; intros matched vs Hm.
  { exists 0%nat. cbn. rewrite app_nil_r, Z.add_0_r.
    split; [lia|]. split; [done|]. split; [constructor|]. split; [done|].
    intros _. left. lia. }
  cbn [matchWildcardLoop]. fold (acceptsNamespace schema ns child).
  destruct (acceptsNamespace schema ns child) eqn:Ea; cbn [negb].
  2:{ exists 0%nat. cbn. rewrite app_nil_r, Z.add_0_r.
      split; [lia|]. split; [done|]. split; [constructor|].
      split; [intros c [= <-]; by left|]. intros _. left. lia. }
  destruct (negb (maxOcc =? -1)%Z && (maxOcc <=? matched + 1)%Z) eqn:Emax.
  - exists 1%nat. apply andb_true_iff in Emax as [E1 E2].
    apply negb_true_iff, Z.eqb_neq in E1. apply Z.leb_le in E2.
    cbn [List.length take map concat]. rewrite app_nil_r.
    split; [lia|]. split; [done|]. split; [by repeat constructor|].
    split; [|intros _; left; lia]. intros c _. right. split; [done|]. split; lia.
  - destruct (IH (matched + 1)%Z
                 (vs ++ ValidateAnyElement typeValidate child ns pc schema)
                 ltac:(lia)) as (k & Hk & -> & Hall & Hnext & Hbound).
    exists (S k). cbn [List.length take map concat].
    split; [lia|]. split; [|split; [|split]].
    + f_equal; [lia|by rewrite <- app_assoc].
    + by constructor.
    + intros c Hc. cbn in Hc. destruct (Hnext c Hc) as [?|(?&?&?)]; [by left|].
      right. split; [done|]. split; lia.
    + intros Hne. destruct (Hbound Hne) as [Hk1|Hle]; [|right; lia].
      apply andb_false_iff in Emax as [E|E].
      { apply negb_false_iff, Z.eqb_eq in E. done. }
      apply Z.leb_gt in E. right. lia.
Qed.

(** X6: [matchWildcard] consumes a prefix of the children.  The numbers
    it returns as matched and consumed are equal; the children it
    consumes are the first ones, each accepted by the namespace
    constraint, and its violations are those of [ValidateAnyElement] on
    them, in order.  It stops at the first child that the constraint does
    not accept, or when [maxOccurs] (if not -1) is reached; so it never
    consumes more than [maxOccurs] children, except that it consumes one
    accepted child even when [maxOccurs] is zero or less.  [minOccurs]
    has no part in the result. *)
Theorem matchWildcard_consumes_prefix
        (ns pc : string) (minOcc maxOcc : Z) (children : list Element)
        (schema : Schema) :
  exists k,
    (k <= List.length children)%nat /\
    matchWildcard typeValidate ns pc minOcc maxOcc children schema
    = (Z.of_nat k, Z.of_nat k,
       concat (map (fun c => ValidateAnyElement typeValidate c ns pc schema)
                   (take k children))) /\
    Forall (fun c => acceptsNamespace schema ns c = true) (take k children) /\
    (forall c, children !! k = Some c ->
       acceptsNamespace schema ns c = false
       \/ (maxOcc <> (-1)%Z /\ (maxOcc <= Z.of_nat k)%Z /\ (0 < k)%nat)) /\
    (maxOcc <> (-1)%Z -> (k <= 1)%nat \/ (Z.of_nat k <= maxOcc)%Z) /\
    (forall minOcc',
       matchWildcard typeValidate ns pc minOcc' maxOcc children schema
       = matchWildcard typeValidate ns pc minOcc maxOcc children schema).
Proof.
  unfold matchWildcard.
  destruct (matchWildcardLoop_spec ns pc minOcc maxOcc schema children 0 [] ltac:(lia))
    as (k & Hk & E & Hall & Hnext & Hbound).
  exists k. rewrite E. cbn [app]. change (0 + Z.of_nat k)%Z with (Z.of_nat k) in *.
  split; [done|]. split; [done|]. split; [done|]. split; [done|]. split; [done|].
  intros minOcc'.
  assert (forall cs m vs,
            matchWildcardLoop typeValidate cs ns pc minOcc' maxOcc schema m vs
            = matchWildcardLoop typeValidate cs ns pc minOcc maxOcc schema m vs) as Hmin.
  { induction cs as [|c cs IHc]; intros m vs; [done|]. cbn [matchWildcardLoop].
    destruct (negb _); [done|]. destruct (_ && _); [done|]. apply IHc. }
  by rewrite Hmin, E.
Qed.
End AnyElementFacts.
End WildcardValidationFacts.

(** * Qualified names and the substitution-group index *)

Module ParseQNameFacts.
Import GoStrings Dom Facets Components SchemaParse.

Lemma prefix_single c s :
  String.prefix (String c "") s =
  match s with String a _ => Ascii.eqb a c | EmptyString => false end.
Proof.
  destruct s as [|a s]; [done|]. simpl.
  destruct (ascii_dec c a) as [->|Hne].
  - rewrite Ascii.eqb_refl. by destruct s.
  - symmetry. apply Ascii.eqb_neq. congruence.
Qed.

Lemma Index_single s c : Index s (String c "") = IndexByte s c.
Proof.
  induction s as [|a s IH]; [done|].
  change (Index (String a s) (String c ""))
    with (if String.prefix (String c "") (String a s) then Some 0
          else match Index s (String c "") with
               | Some i => Some (S i)
               | None => None
               end).
  rewrite prefix_single, IH. done.
Qed.

Lemma sliceTo_app p s : sliceTo (p +:+ s) (String.length p) = p.
Proof.
  induction p as [|a p IH]; [by destruct s|].
  change (String a p +:+ s) with (String a (p +:+ s)).
  simpl. by rewrite IH.
Qed.

Lemma SplitN2_no_colon name :
  IndexByte name ":" = None -> SplitN2 name ":" = [name].
Proof. intros H. unfold SplitN2. by rewrite Index_single, H. Qed.

Lemma SplitN2_colon p l :
  IndexByte p ":" = None -> SplitN2 (p +:+ String ":" l) ":" = [p; l].
Proof.
  intros H. unfold SplitN2.
  rewrite Index_single, (BuiltinFacts.IndexByte_app_fresh _ _ _ H).
  rewrite sliceTo_app. f_equal. f_equal.
  change (String.length ":") with 1.
  replace (String.length p + 1) with (String.length (p +:+ ":")).
  - replace (p +:+ String ":" l) with ((p +:+ ":") +:+ l).
    + apply BuiltinFacts.sliceFrom_app.
    + clear H. induction p as [|a p IH]; [done|].
      change (String a p +:+ ":") with (String a (p +:+ ":")).
      change (String a (p +:+ ":") +:+ l) with (String a ((p +:+ ":") +:+ l)).
      by rewrite IH.
  - apply BuiltinFacts.length_app_one.
Qed.

Lemma app_colon_nonempty p l : String.eqb (p +:+ String ":" l) "" = false.
Proof. by destruct p. Qed.

(** The attribute that binds a prefix, as the loop of [parseQName] reads
    it: a declaration [xmlns:prefix], or an attribute named as the prefix
    whose value has a slash or a dot. *)
Definition binds (prefix : string) (attr : Attr) : bool :=
  String.eqb (attrNodeName attr) ("xmlns:" ++ prefix)
  || String.eqb (attrNodeName attr) prefix
     && (Contains (attrNodeValue attr) "://" || Contains (attrNodeValue attr) "/"
         || Contains (attrNodeValue attr) ".").

Lemma resolvePrefix_find prefix local attrs :
  resolvePrefix prefix local attrs =
  match List.find (binds prefix) attrs with
  | Some attr => Some (mkQName (attrNodeValue attr) local)
  | None => None
  end.
Proof.
  induction attrs as [|attr rest IH]; [done|].
  cbn [resolvePrefix List.find]. unfold binds at 1.
  destruct (String.eqb (attrNodeName attr) ("xmlns:" ++ prefix)); [done|].
  cbn [orb].
  destruct (String.eqb (attrNodeName attr) prefix
            && (Contains (attrNodeValue attr) "://" || Contains (attrNodeValue attr) "/"
                || Contains (attrNodeValue attr) ".")); [done|].
  exact IH.
Qed.

(** X7: how [parseQName] reads a name.  The empty name gives the empty
    QName, and a name without colon is put in the target namespace.  A name
    [p:l] is cut at its first colon: the prefixes [xs] and [xsd] always
    denote the XML Schema namespace, whatever the schema document declares;
    any other prefix denotes the value of the first attribute of the
    document root that binds it, and the target namespace when no attribute
    does; without a schema document the whole name [p:l] is kept as the
    local name, with an empty namespace. *)
Theorem parseQName_cases (tns : string) (rootAttrs : option (list Attr))
        (p l : string) :
  IndexByte p ":" = None ->
  parseQName tns rootAttrs "" = mkQName "" "" /\
  (p <> "" -> parseQName tns rootAttrs p = mkQName tns p) /\
  parseQName tns rootAttrs (p +:+ String ":" l) =
    (if String.eqb p "xs" || String.eqb p "xsd" then mkQName XSDNamespace l
     else match rootAttrs with
          | Some attrs =>
            match List.find (binds p) attrs with
            | Some attr => mkQName (attrNodeValue attr) l
            | None => mkQName tns l
            end
          | None => mkQName "" (p +:+ String ":" l)
          end).
Proof.
  intros Hp. split; [done|]. split.
  - intros Hne. unfold parseQName.
    destruct (String.eqb_spec p ""); [done|].
    by rewrite (SplitN2_no_colon _ Hp).
  - unfold parseQName. rewrite app_colon_nonempty, (SplitN2_colon _ _ Hp).
    destruct (String.eqb p "xs" || String.eqb p "xsd"); [done|].
    destruct rootAttrs as [attrs|]; [|done].
    rewrite resolvePrefix_find. by destruct (List.find (binds p) attrs).
Qed.

Lemma parseQName_witness :
  parseQName "urn:t" (Some [mkAttr "" "xs" "xmlns:xs" "urn:mine"]) "xs:string"
  = mkQName XSDNamespace "string".
Proof.
  pose proof (parseQName_cases "urn:t" (Some [mkAttr "" "xs" "xmlns:xs" "urn:mine"])
                               "xs" "string" eq_refl) as (_ & _ & H).
  exact H.
Defined.

End ParseQNameFacts.

Module SubstitutionIndexFacts.
Import GoStrings Dom Facets Components SchemaParse.

(** [sg[head]], the nil slice of a missing key being empty. *)
Definition members (sg : gmap QName (list QName)) (head : QName) : list QName :=
  default [] (sg !! head).

(** The declaration adds its name under [head]. *)
Definition declares (tns : string) (head E : QName) (decl : ElementDecl) : Prop :=
  Local (edSubstitutionGroup decl) <> "" /\ headOf tns decl = head /\ edName decl = E.

Lemma members_appendMembers sg h ms head E :
  E ∈ members (appendMembers sg h ms) head <->
  E ∈ members sg head \/ (h = head /\ E ∈ ms).
Proof.
  unfold members, appendMembers. destruct (decide (h = head)) as [->|Hne].
  - rewrite lookup_insert_eq. cbn [default]. unfold id. rewrite elem_of_app. tauto.
  - rewrite lookup_insert_ne by done. tauto.
Qed.

Lemma members_addMember tns sg entry head E :
  E ∈ members (addMember tns sg entry) head <->
  E ∈ members sg head \/ declares tns head E entry.2.
Proof.
  unfold addMember, declares.
  destruct (String.eqb_spec (Local (edSubstitutionGroup entry.2)) "") as [He|He];
    cbn [negb].
  - tauto.
  - rewrite members_appendMembers, list_elem_of_singleton. intuition congruence.
Qed.

Lemma members_fold_addMember tns entries sg head E :
  E ∈ members (fold_left (addMember tns) entries sg) head <->
  E ∈ members sg head \/ exists entry, entry ∈ entries /\ declares tns head E entry.2.
Proof.
  revert sg. induction entries as [|entry entries IH]; intros sg; cbn [fold_left].
  - split; [by left|]. intros [H|(entry & Hin & _)]; [done|].
    by apply elem_of_nil in Hin.
  - rewrite IH, members_addMember. split.
    + intros [[H|H]|(e & Hin & H)].
      * by left.
      * right. exists entry. split; [left|done].
      * right. exists e. split; [by right|done].
    + intros [H|(e & Hin & H)]; [by left; left|].
      apply elem_of_cons in Hin as [->|Hin]; [by left; right|].
      right. by exists e.
Qed.

Lemma members_fold_appendMembers entries sg head E :
  E ∈ members (fold_left (fun sg entry => appendMembers sg entry.1 entry.2)
                         entries sg) head <->
  E ∈ members sg head \/ exists ms, (head, ms) ∈ entries /\ E ∈ ms.
Proof.
  revert sg. induction entries as [|[h ms] entries IH]; intros sg; cbn [fold_left].
  - split; [by left|]. intros [H|(ms & Hin & _)]; [done|].
    by apply elem_of_nil in Hin.
  - rewrite IH, members_appendMembers. cbn [fst snd]. split.
    + intros [[H|[-> H]]|(ms' & Hin & H)].
      * by left.
      * right. exists ms. split; [left|done].
      * right. exists ms'. split; [by right|done].
    + intros [H|(ms' & Hin & H)]; [by left; left|].
      apply elem_of_cons in Hin as [Heq|Hin].
      * injection Heq as -> ->. left. by right.
      * right. by exists ms'.
Qed.

Lemma members_mergeImported sg imported head E :
  E ∈ members (mergeImported sg imported) head <->
  E ∈ members sg head \/ E ∈ members (SubstitutionGroups imported.2) head.
Proof.
  unfold mergeImported. rewrite members_fold_appendMembers.
  split; (intros [H|H]; [by left|right]).
  - destruct H as (ms & Hin & H). apply elem_of_map_to_list in Hin.
    unfold members. by rewrite Hin.
  - unfold members in H. destruct (SubstitutionGroups imported.2 !! head) as [ms|] eqn:El.
    + exists ms. split; [|done]. by apply elem_of_map_to_list.
    + by apply elem_of_nil in H.
Qed.

Lemma members_fold_mergeImported imports sg head E :
  E ∈ members (fold_left mergeImported imports sg) head <->
  E ∈ members sg head \/
  exists imported, imported ∈ imports /\ E ∈ members (SubstitutionGroups imported.2) head.
Proof.
  revert sg. induction imports as [|imp imports IH]; intros sg; cbn [fold_left].
  - split; [by left|]. intros [H|(imp & Hin & _)]; [done|].
    by apply elem_of_nil in Hin.
  - rewrite IH, members_mergeImported. split.
    + intros [[H|H]|(i & Hin & H)].
      * by left.
      * right. exists imp. split; [left|done].
      * right. exists i. split; [by right|done].
    + intros [H|(i & Hin & H)]; [by left; left|].
      apply elem_of_cons in Hin as [->|Hin]; [by left; right|].
      right. by exists i.
Qed.

(** X8: the index that [buildSubstitutionGroups] leaves.  An element [E] is
    listed under a head exactly when it was listed there before the call,
    or some declaration of the schema with a [substitutionGroup] attribute
    that names this head (taken in the target namespace when it has no
    namespace of its own) is the declaration of [E], or a directly imported
    schema lists [E] under the same head.  Nothing is removed and no other
    entry appears. *)
Theorem buildSubstitutionGroups_index (s : Schema) (head E : QName) :
  E ∈ members (SubstitutionGroups (buildSubstitutionGroups s)) head <->
  E ∈ members (SubstitutionGroups s) head
  \/ (exists name decl, ElementDecls s !! name = Some decl
                        /\ declares (TargetNamespace s) head E decl)
  \/ (exists imported, imported ∈ ImportedSchemas s
                       /\ E ∈ members (SubstitutionGroups imported.2) head).
Proof.
  unfold buildSubstitutionGroups. cbn [SubstitutionGroups].
  rewrite members_fold_mergeImported, members_fold_addMember.
  split.
  - intros [[H|([name decl] & Hin & H)]|H].
    + by left.
    + right. left. exists name, decl. split; [|done].
      by apply elem_of_map_to_list in Hin.
    + by right; right.
  - intros [H|[(name & decl & Hl & H)|H]].
    + by left; left.
    + left. right. exists (name, decl). split; [|done].
      by apply elem_of_map_to_list.
    + by right.
Qed.

End SubstitutionIndexFacts.

(** * Lexical validators *)

Module AsciiRuneFacts.
Import GoStrings Utf8Facts RangeFacts.

Lemma lor_ge_l a b : (a <= N.lor a b)%N.
Proof.
  assert (N.land a (N.lor a b) = a) as Habs.
  { apply N.bits_inj. intros n. rewrite N.land_spec, N.lor_spec.
    by destruct (N.testbit a n). }
  pose proof (N.land_le_r a (N.lor a b)) as H. by rewrite Habs in H.
Qed.

Lemma lead2 c0 :
  first (byteVal c0) = S1 -> (128 <= N.shiftl (N.land (byteVal c0) 0x1F) 6)%N.
Proof. destruct c0 as [[] [] [] [] [] [] [] []]; by vm_compute. Qed.

Lemma lead3 c0 :
  first (byteVal c0) = S3 \/ first (byteVal c0) = S4 ->
  (128 <= N.shiftl (N.land (byteVal c0) 0x0F) 12)%N.
Proof. destruct c0 as [[] [] [] [] [] [] [] []]; vm_compute; by intros [|]. Qed.

Lemma lead4 c0 :
  first (byteVal c0) = S6 \/ first (byteVal c0) = S7 ->
  (128 <= N.shiftl (N.land (byteVal c0) 0x07) 18)%N.
Proof. destruct c0 as [[] [] [] [] [] [] [] []]; vm_compute; by intros [|]. Qed.

Lemma second3 c1 :
  outside 0xA0 hicb (byteVal c1) = false ->
  (128 <= N.shiftl (N.land (byteVal c1) 0x3F) 6)%N.
Proof. destruct c1 as [[] [] [] [] [] [] [] []]; by vm_compute. Qed.

Lemma second4 c1 :
  outside 0x90 hicb (byteVal c1) = false ->
  (128 <= N.shiftl (N.land (byteVal c1) 0x3F) 12)%N.
Proof. destruct c1 as [[] [] [] [] [] [] [] []]; by vm_compute. Qed.

Lemma lor_small a b : (N.lor a b < 128 -> a < 128 /\ b < 128)%N.
Proof.
  intros H. pose proof (lor_ge_l a b). pose proof (lor_ge_l b a) as Hb.
  rewrite N.lor_comm in Hb. lia.
Qed.

(** A rune below 128 is read from a single byte, which is that rune:
    every sequence of several bytes decodes to 128 or more, and an invalid
    one to [RuneError]. *)
Lemma DecodeRune_small c0 t0 :
  (fst (DecodeRune (c0 :: t0)) < 128)%N ->
  DecodeRune (c0 :: t0) = (byteVal c0, 1).
Proof.
  unfold DecodeRune.
  destruct (first (byteVal c0)) eqn:Ef; cbn -[outside N.lor N.land N.shiftl];
    try done;
    repeat match goal with
           | |- context [if ?b then _ else _] => destruct b eqn:?; try done
           | |- context [match ?l with [] => _ | _ :: _ => _ end] =>
             destruct l; try done
           end;
    cbn [fst]; intros H; exfalso.
  all: repeat match goal with
              | H : (N.lor _ _ < 128)%N |- _ => apply lor_small in H as [? ?]
              end.
  all: try (pose proof (lead2 c0 Ef); lia).
  all: try (pose proof (lead3 c0 (or_introl Ef)); lia).
  all: try (pose proof (lead3 c0 (or_intror Ef)); lia).
  all: try (pose proof (lead4 c0 (or_introl Ef)); lia).
  all: try (pose proof (lead4 c0 (or_intror Ef)); lia).
  all: match goal with
       | Ho : outside _ _ (byteVal ?c1) = false |- _ =>
         first [ pose proof (second3 c1 Ho); lia | pose proof (second4 c1 Ho); lia ]
       end.
Qed.
End AsciiRuneFacts.

Module LexicalFacts.
Import GoStrings Utf8Facts RangeFacts WhiteSpaceFacts Facets Lexical AsciiRuneFacts.

Lemma rangeString_small s : forall bs r,
  (bs, r) ∈ rangeString s -> (r < 128)%N -> exists c, c ∈ s /\ byteVal c = r.
Proof.
  remember (List.length s) as n eqn:Hn.
  revert s Hn. induction n as [n IH] using lt_wf_ind. intros s Hn bs r Hin Hlt.
  destruct s as [|c0 t]; [by apply elem_of_nil in Hin|].
  rewrite rangeString_cons in Hin by done.
  pose proof (DecodeRune_width_pos (c0 :: t) ltac:(done)) as Hpos.
  apply elem_of_cons in Hin as [Hin|Hin].
  - remember (DecodeRune (c0 :: t)) as d eqn:Hd.
    injection Hin as -> ->. rewrite Hd in *. rewrite (DecodeRune_small _ _ Hlt).
    exists c0. split; [left|done].
  - destruct (IH (List.length (drop (snd (DecodeRune (c0 :: t))) (c0 :: t))))
      with (s := drop (snd (DecodeRune (c0 :: t))) (c0 :: t)) (bs := bs) (r := r)
      as (c & Hc & Hv); try done.
    + rewrite Hn, length_drop. cbn [List.length]. lia.
    + exists c. split; [|done]. by apply (subseteq_drop _ _ _ Hc).
Qed.

Lemma byteVal_white c :
  (byteVal c =? 0x0D)%N || (byteVal c =? 0x0A)%N || (byteVal c =? 0x09)%N = true ->
  whiteByte c = true.
Proof.
  intros H. rewrite <- (ascii_N_embedding c). unfold byteVal in H.
  repeat (apply orb_true_iff in H as [H|H]); apply N.eqb_eq in H; by rewrite H.
Qed.

(** A string without TAB, LF and CR bytes is a valid normalizedString. *)
Lemma validateNormalizedString_no_white l :
  (forall c, c ∈ l -> whiteByte c = false) ->
  validateNormalizedString (ofBytes l) = None.
Proof.
  intros Hl. unfold validateNormalizedString. rewrite bytes_ofBytes.
  destruct (existsb _ _) eqn:E; [|done]. exfalso.
  apply existsb_exists in E as ([bs r] & Hin & Hr). cbn [snd] in Hr.
  apply list_elem_of_In in Hin.
  destruct (rangeString_small _ _ _ Hin) as (c & Hc & Hv).
  - repeat (apply orb_true_iff in Hr as [Hr|Hr]); apply N.eqb_eq in Hr; by subst.
  - subst r. apply byteVal_white in Hr. by rewrite (Hl c Hc) in Hr.
Qed.

Lemma bytes_sliceFrom s : forall i, bytes (sliceFrom s i) = drop i (bytes s).
Proof.
  induction s as [|a s IH]; intros [|i]; try done. apply IH.
Qed.

Definition headNot (x : ascii) (l : list ascii) : Prop :=
  match l with c :: _ => c <> x | [] => True end.

Lemma HasPrefix_space s : HasPrefix s " " = true -> ~ headNot SP (bytes s).
Proof.
  unfold HasPrefix. rewrite ParseQNameFacts.prefix_single.
  destruct s as [|a s]; [done|]. intros H%Ascii.eqb_eq Hn. by apply Hn.
Qed.

Lemma HasSuffix_space s : HasSuffix s " " = true -> last (bytes s) = Some SP.
Proof.
  unfold HasSuffix. intros [_ Heq]%andb_true_iff. apply String.eqb_eq in Heq.
  apply (f_equal bytes) in Heq. rewrite bytes_sliceFrom in Heq.
  rewrite <- (take_drop (String.length s - String.length " ") (bytes s)), Heq.
  by rewrite last_app.
Qed.

(** Two consecutive spaces somewhere in the bytes. *)
Fixpoint hasDouble (l : list ascii) : bool :=
  match l with
  | a :: t =>
    Ascii.eqb a SP && match t with b :: _ => Ascii.eqb b SP | [] => false end
    || hasDouble t
  | [] => false
  end.

Lemma Contains_cons a s sub :
  Contains (String a s) sub = String.prefix sub (String a s) || Contains s sub.
Proof.
  unfold Contains.
  change (Index (String a s) sub)
    with (if String.prefix sub (String a s) then Some 0
          else match Index s sub with
               | Some i => Some (S i)
               | None => None
               end).
  destruct (String.prefix sub (String a s)); [done|].
  by destruct (Index s sub).
Qed.

Lemma Contains_double s : Contains s "  " = hasDouble (bytes s).
Proof.
  induction s as [|a s IH]; [done|].
  rewrite Contains_cons, IH. cbn [bytes list_ascii_of_string hasDouble].
  f_equal. cbn [String.prefix].
  destruct (ascii_dec " " a) as [<-|Ha].
  - change (String.prefix " " s) with (String.prefix (String SP "") s).
    rewrite ParseQNameFacts.prefix_single. by destruct s.
  - symmetry. apply andb_false_iff. left. apply Ascii.eqb_neq.
    intros Heq. apply Ha. by rewrite Heq.
Qed.

(** What a field is made of, as far as spaces go. *)
Definition clean (t : list ascii) : Prop := t <> [] /\ SP ∉ t.

Lemma field_clean t : field t -> clean t.
Proof.
  intros Hf. split; [by destruct Hf|]. intros Hin.
  by pose proof (field_no_ascii_space t SP Hf Hin ltac:(by vm_compute)).
Qed.

Lemma hasDouble_clean_app t rest :
  SP ∉ t -> headNot SP rest -> hasDouble rest = false ->
  hasDouble (t ++ SP :: rest) = false.
Proof.
  intros Ht Hh Hr. induction t as [|a t IH].
  - cbn [app hasDouble]. rewrite Hr, orb_false_r.
    destruct rest as [|b rest]; [done|]. apply Ascii.eqb_neq. exact Hh.
  - apply not_elem_of_cons in Ht as [Ha Ht].
    change ((a :: t) ++ SP :: rest) with (a :: (t ++ SP :: rest)).
    cbn [hasDouble]. rewrite (IH Ht), orb_false_r.
    apply andb_false_iff. left. apply Ascii.eqb_neq. congruence.
Qed.

Lemma hasDouble_absent t : SP ∉ t -> hasDouble t = false.
Proof.
  induction t as [|a t IH]; [done|]. intros [Ha Ht]%not_elem_of_cons.
  cbn [hasDouble]. rewrite (IH Ht), orb_false_r.
  apply andb_false_iff. left. apply Ascii.eqb_neq. congruence.
Qed.

Lemma last_clean t : clean t -> last t <> Some SP.
Proof.
  intros [Hne Hsp] Hl. apply Hsp. apply last_Some in Hl as [l' ->].
  apply elem_of_app. right. left.
Qed.

Lemma Join_shape toks :
  Forall clean toks ->
  headNot SP (JoinBytes toks [SP]) /\ last (JoinBytes toks [SP]) <> Some SP /\
  hasDouble (JoinBytes toks [SP]) = false /\
  (toks <> [] -> JoinBytes toks [SP] <> []).
Proof.
  induction toks as [|t toks IH]; intros Hf; [done|].
  apply Forall_cons in Hf as [Ht Hf]. specialize (IH Hf).
  assert (headNot SP t) as Hht.
  { destruct Ht as [Hne Hsp]. destruct t as [|a t]; [done|].
    intros ->. apply Hsp. left. }
  destruct toks as [|t2 toks].
  - cbn [JoinBytes]. split; [done|]. split; [by apply last_clean|].
    split; [apply hasDouble_absent; by destruct Ht|]. intros _. by destruct Ht.
  - change (JoinBytes (t :: t2 :: toks) [SP])
      with (t ++ SP :: JoinBytes (t2 :: toks) [SP]).
    destruct IH as (Hh & Hl & Hd & Hne). specialize (Hne ltac:(done)).
    split; [|split; [|split]].
    + destruct Ht as [Htne _]. by destruct t.
    + rewrite last_app_cons.
      destruct (JoinBytes (t2 :: toks) [SP]) as [|b J] eqn:EJ; [done|].
      exact Hl.
    + apply hasDouble_clean_app; [by destruct Ht|done|done].
    + intros _. by destruct t.
Qed.

(** X9: what [NormalizeWhiteSpace] returns is valid for the lexical
    validators of the whitespace-normalized string types.  For every
    string, its "replace" normalization passes [validateNormalizedString]
    (it holds no TAB, LF or CR rune), and its "collapse" normalization
    passes [validateToken] (moreover it has no leading or trailing space
    and no two consecutive spaces). *)
Theorem normalized_values_are_valid (v : string) :
  validateNormalizedString (NormalizeWhiteSpace v "replace") = None /\
  validateToken (NormalizeWhiteSpace v "collapse") = None.
Proof.
  split.
  - rewrite <- (ofBytes_bytes (NormalizeWhiteSpace v "replace")).
    apply validateNormalizedString_no_white. intros c.
    change (NormalizeWhiteSpace v "replace") with (normalizeReplace v).
    rewrite bytes_normalizeReplace, replaceBytes_map.
    intros Hc. apply list_elem_of_In, in_map_iff in Hc as (c' & <- & _).
    by destruct (whiteByte c') eqn:E.
  - pose proof (FieldsBytes_fields (replaceBytes (bytes v))) as Hf.
    pose proof (bytes_collapse v) as Hb. unfold collapseBytes in Hb.
    destruct (Join_shape (FieldsBytes (replaceBytes (bytes v)))) as (Hh & Hl & Hd & _).
    { eapply Forall_impl; [exact Hf|]. apply field_clean. }
    unfold validateToken.
    rewrite <- (ofBytes_bytes (NormalizeWhiteSpace v "collapse")) at 1.
    rewrite validateNormalizedString_no_white.
    2:{ rewrite Hb. intros c Hc. by apply (Join_fields_no_white _ c Hf). }
    rewrite <- Hb in Hh, Hl, Hd.
    destruct (HasPrefix _ " ") eqn:Ep; [by apply HasPrefix_space in Ep|].
    destruct (HasSuffix _ " ") eqn:Es; [by apply HasSuffix_space in Es|].
    cbn [orb]. by rewrite Contains_double, Hd.
Qed.

End LexicalFacts.

Module IntegerFacts.
Import GoStrings Facets Lexical.
Local Open Scope Z_scope.

(** What [strconv.ParseUint] reads: digits only. *)
Definition unsignedDigits (s : string) : option Z :=
  match bytes s with
  | [] => None
  | ds => digitsVal ds 0
  end.

Lemma digitsVal_nonneg ds : forall acc v,
  0 <= acc -> digitsVal ds acc = Some v -> 0 <= v.
Proof.
  induction ds as [|c ds IH]; intros acc v Hacc; cbn [digitsVal].
  - by intros [= <-].
  - destruct (isDigit c) eqn:Ed; [|done]. apply IH.
    unfold isDigit in Ed. apply andb_true_iff in Ed as [Hlo _].
    apply N.leb_le in Hlo. lia.
Qed.

Lemma unsigned_signed s z :
  unsignedDigits s = Some z -> signedDigits s = Some z /\ 0 <= z.
Proof.
  unfold unsignedDigits, signedDigits. destruct (bytes s) as [|c t]; [done|].
  intros H. split; [|by apply (digitsVal_nonneg _ 0 z ltac:(done) H)].
  assert (isDigit c = true) as Hd.
  { cbn [digitsVal] in H. by destruct (isDigit c). }
  destruct (Ascii.eqb_spec c "+") as [->|_]; [done|].
  destruct (Ascii.eqb_spec c "-") as [->|_]; [done|].
  by rewrite H.
Qed.

Lemma validateSized_spec name b s :
  validateSized name b s = None <->
  exists z, signedDigits s = Some z /\ - 2 ^ (b - 1) <= z <= 2 ^ (b - 1) - 1.
Proof.
  unfold validateSized, ParseInt. destruct (signedDigits s) as [z|].
  - destruct (Z.leb_spec (- 2 ^ (b - 1)) z), (Z.leb_spec z (2 ^ (b - 1) - 1));
      cbn [andb].
    + destruct (Z.ltb_spec z (- 2 ^ (b - 1))); [lia|].
      destruct (Z.ltb_spec (2 ^ (b - 1) - 1) z); [lia|]. cbn [orb].
      split; [|done]. intros _. exists z. split; [done|lia].
    + split; [done|]. intros (z' & [= <-] & ?). lia.
    + split; [done|]. intros (z' & [= <-] & ?). lia.
    + split; [done|]. intros (z' & [= <-] & ?). lia.
  - split; [done|]. by intros (z & ? & _).
Qed.

Lemma validateLong_spec s :
  validateLong s = None <->
  exists z, signedDigits s = Some z /\ - 2 ^ 63 <= z <= 2 ^ 63 - 1.
Proof.
  unfold validateLong, ParseInt. change (64 - 1) with 63.
  destruct (signedDigits s) as [z|].
  - destruct (Z.leb_spec (- 2 ^ 63) z), (Z.leb_spec z (2 ^ 63 - 1)); cbn [andb].
    + split; [|done]. intros _. exists z. split; [done|lia].
    + split; [done|]. intros (z' & [= <-] & ?). lia.
    + split; [done|]. intros (z' & [= <-] & ?). lia.
    + split; [done|]. intros (z' & [= <-] & ?). lia.
  - split; [done|]. by intros (z & ? & _).
Qed.

Lemma ParseUint_spec b s :
  ParseUint s b = match unsignedDigits s with
                  | Some v => if v <=? 2 ^ b - 1 then Some v else None
                  | None => None
                  end.
Proof. unfold ParseUint, unsignedDigits. by destruct (bytes s). Qed.

Lemma validateUnsignedSized_spec name b s :
  validateUnsignedSized name b s = None <->
  exists z, unsignedDigits s = Some z /\ z <= 2 ^ b - 1.
Proof.
  unfold validateUnsignedSized. rewrite ParseUint_spec.
  destruct (unsignedDigits s) as [z|].
  - destruct (Z.leb_spec z (2 ^ b - 1)).
    + destruct (Z.ltb_spec (2 ^ b - 1) z); [lia|].
      split; [|done]. intros _. by exists z.
    + split; [done|]. intros (z' & [= <-] & ?). lia.
  - split; [done|]. by intros (z & ? & _).
Qed.

Lemma validateUnsignedLong_spec s :
  validateUnsignedLong s = None <->
  exists z, unsignedDigits s = Some z /\ z <= 2 ^ 64 - 1.
Proof.
  unfold validateUnsignedLong. rewrite ParseUint_spec.
  destruct (unsignedDigits s) as [z|].
  - destruct (Z.leb_spec z (2 ^ 64 - 1)).
    + split; [|done]. intros _. by exists z.
    + split; [done|]. intros (z' & [= <-] & ?). lia.
  - split; [done|]. by intros (z & ? & _).
Qed.

Lemma validateInteger_spec s :
  validateInteger s = None <-> exists z, signedDigits s = Some z.
Proof.
  unfold validateInteger, SetString. destruct (signedDigits s) as [z|].
  - split; [by exists z|done].
  - split; [done|]. by intros [z ?].
Qed.

Lemma validateNonNegativeInteger_spec s :
  validateNonNegativeInteger s = None <-> exists z, signedDigits s = Some z /\ 0 <= z.
Proof.
  unfold validateNonNegativeInteger, SetString. destruct (signedDigits s) as [z|].
  - destruct (Z.ltb_spec z 0).
    + split; [done|]. intros (z' & [= <-] & ?). lia.
    + split; [|done]. intros _. by exists z.
  - split; [done|]. by intros (z & ? & _).
Qed.

Lemma validatePositiveInteger_spec s :
  validatePositiveInteger s = None <-> exists z, signedDigits s = Some z /\ 0 < z.
Proof.
  unfold validatePositiveInteger, SetString. destruct (signedDigits s) as [z|].
  - destruct (Z.leb_spec z 0).
    + split; [done|]. intros (z' & [= <-] & ?). lia.
    + split; [|done]. intros _. by exists z.
  - split; [done|]. by intros (z & ? & _).
Qed.

Lemma validateNonPositiveInteger_spec s :
  validateNonPositiveInteger s = None <-> exists z, signedDigits s = Some z /\ z <= 0.
Proof.
  unfold validateNonPositiveInteger, SetString. destruct (signedDigits s) as [z|].
  - destruct (Z.ltb_spec 0 z).
    + split; [done|]. intros (z' & [= <-] & ?). lia.
    + split; [|done]. intros _. by exists z.
  - split; [done|]. by intros (z & ? & _).
Qed.

Lemma validateNegativeInteger_spec s :
  validateNegativeInteger s = None <-> exists z, signedDigits s = Some z /\ z < 0.
Proof.
  unfold validateNegativeInteger, SetString. destruct (signedDigits s) as [z|].
  - destruct (Z.leb_spec 0 z).
    + split; [done|]. intros (z' & [= <-] & ?). lia.
    + split; [|done]. intros _. by exists z.
  - split; [done|]. by intros (z & ? & _).
Qed.

Ltac ranges :=
  change (2 ^ (8 - 1)) with 128 in *; change (2 ^ (16 - 1)) with 32768 in *;
  change (2 ^ (32 - 1)) with 2147483648 in *;
  change (2 ^ 63) with 9223372036854775808 in *;
  change (2 ^ 8) with 256 in *; change (2 ^ 16) with 65536 in *;
  change (2 ^ 32) with 4294967296 in *;
  change (2 ^ 64) with 18446744073709551616 in *.

Ltac signed_step :=
  let z := fresh "z" in let Hz := fresh "Hz" in let Hr := fresh "Hr" in
  intros (z & Hz & Hr); exists z; split; [exact Hz|ranges; lia].

Ltac unsigned_step :=
  let z := fresh "z" in let Hz := fresh "Hz" in let Hr := fresh "Hr" in
  intros (z & Hz & Hr); exists z; split; [exact Hz|ranges; lia].

Ltac crossing :=
  let z := fresh "z" in let Hz := fresh "Hz" in let Hr := fresh "Hr" in
  intros (z & Hz & Hr); apply unsigned_signed in Hz as [Hz ?];
  exists z; split; [exact Hz|ranges; lia].

(** X10: the validators of the integer types are nested as the types are
    derived.  Every value accepted as [byte] is accepted as [short], every
    [short] as [int], every [int] as [long], every [long] as [integer]; the
    same holds along [unsignedByte], [unsignedShort], [unsignedInt],
    [unsignedLong], [nonNegativeInteger], [integer]; every
    [positiveInteger] is a [nonNegativeInteger] and every
    [negativeInteger] a [nonPositiveInteger]; and an unsigned value of one
    size is accepted by the signed validator of the next size. *)
Theorem integer_validators_nested (v : string) :
  (validateByte v = None -> validateShort v = None) /\
  (validateShort v = None -> validateInt v = None) /\
  (validateInt v = None -> validateLong v = None) /\
  (validateLong v = None -> validateInteger v = None) /\
  (validateUnsignedByte v = None -> validateUnsignedShort v = None) /\
  (validateUnsignedShort v = None -> validateUnsignedInt v = None) /\
  (validateUnsignedInt v = None -> validateUnsignedLong v = None) /\
  (validateUnsignedLong v = None -> validateNonNegativeInteger v = None) /\
  (validatePositiveInteger v = None -> validateNonNegativeInteger v = None) /\
  (validateNonNegativeInteger v = None -> validateInteger v = None) /\
  (validateNegativeInteger v = None -> validateNonPositiveInteger v = None) /\
  (validateNonPositiveInteger v = None -> validateInteger v = None) /\
  (validateUnsignedByte v = None -> validateShort v = None) /\
  (validateUnsignedShort v = None -> validateInt v = None) /\
  (validateUnsignedInt v = None -> validateLong v = None).
Proof.
  unfold validateByte, validateShort, validateInt, validateUnsignedByte,
    validateUnsignedShort, validateUnsignedInt.
  rewrite !validateSized_spec, !validateUnsignedSized_spec, validateLong_spec,
    validateUnsignedLong_spec, validateInteger_spec,
    validateNonNegativeInteger_spec, validatePositiveInteger_spec,
    validateNonPositiveInteger_spec, validateNegativeInteger_spec.
  repeat split.
  - signed_step.
  - signed_step.
  - signed_step.
  - intros (z & Hz & _). by exists z.
  - unsigned_step.
  - unsigned_step.
  - unsigned_step.
  - intros (z & Hz & _). apply unsigned_signed in Hz as [Hz ?]. by exists z.
  - signed_step.
  - intros (z & Hz & _). by exists z.
  - signed_step.
  - intros (z & Hz & _). by exists z.
  - crossing.
  - crossing.
  - crossing.
Qed.

End IntegerFacts.

(** * Validation against facets *)

Module FacetFacts.
Import GoStrings Dom Fmt Facets Builtin Components Lexical FacetValidation.
Import WhiteSpaceFacts EnumerationFacts.

Lemma hexBinary_registered : IsBuiltinType "hexBinary" = true.
Proof. vm_compute. reflexivity. Qed.

Lemma quot_half (k : nat) : Z.quot (Z.of_nat k) 2 = Z.of_nat (k / 2).
Proof. rewrite Z.quot_div_nonneg by lia. by rewrite Nat2Z.inj_div. Qed.

Lemma getLength_eq value baseType :
  getLength value baseType
  = if Contains value " " && isListType baseType then Z.of_nat (List.length (Fields value))
    else Z.of_nat (String.length value / 2).
Proof.
  unfold getLength. rewrite hexBinary_registered, quot_half. done.
Qed.

Lemma single_space value :
  String.length value = 1 -> Contains value " " = true -> value = " ".
Proof.
  destruct value as [|a [|b value]]; try done. intros _.
  rewrite LexicalFacts.Contains_cons.
  change (String.prefix " " (String a "")) with (String.prefix (String SP "") (String a "")).
  rewrite ParseQNameFacts.prefix_single. cbn [Contains Index String.prefix orb].
  rewrite orb_false_r. intros H%Ascii.eqb_eq. by subst.
Qed.

(** X11: what the length facets measure.  [getLength] returns the number
    of fields for a list type whose value holds a space, and in every
    other case half the number of bytes of the value, rounded down: the
    test [IsBuiltinType("hexBinary")] does not look at the base type and
    always holds, so the branches for base64Binary and for the number of
    characters are never reached.  Hence [length], [minLength] and
    [maxLength] compare their bound with half the byte length, and
    [minLength = 1] rejects every value of one byte. *)
Theorem length_facets_count_byte_pairs
        (value : string) (baseType : option XsdType) (n : Z) :
  getLength value baseType
  = (if Contains value " " && isListType baseType then Z.of_nat (List.length (Fields value))
     else Z.of_nat (String.length value / 2)) /\
  (Contains value " " && isListType baseType = false ->
   (LengthValidate n value baseType = None
    <-> Z.of_nat (String.length value / 2) = n) /\
   (MinLengthValidate n value baseType = None
    <-> (n <= Z.of_nat (String.length value / 2))%Z) /\
   (MaxLengthValidate n value baseType = None
    <-> (Z.of_nat (String.length value / 2) <= n)%Z)) /\
  (String.length value = 1 -> MinLengthValidate 1 value baseType <> None).
Proof.
  split; [apply getLength_eq|]. split.
  - intros Hc. unfold LengthValidate, MinLengthValidate, MaxLengthValidate.
    rewrite getLength_eq, Hc. set (h := Z.of_nat (String.length value / 2)).
    split; [|split].
    + destruct (Z.eqb_spec h n); cbn [negb]; split; try done.
    + destruct (Z.ltb_spec h n); split; try done; lia.
    + destruct (Z.ltb_spec n h); split; try done; lia.
  - intros Hlen. unfold MinLengthValidate. rewrite getLength_eq.
    destruct (Contains value " " && isListType baseType) eqn:Hc.
    + apply andb_true_iff in Hc as [Hc _].
      rewrite (single_space value Hlen Hc). by vm_compute.
    + rewrite Hlen. by vm_compute.
Qed.

Lemma NormalizeWhiteSpace_again v ws :
  NormalizeWhiteSpace (NormalizeWhiteSpace v ws) ws = NormalizeWhiteSpace v ws.
Proof.
  destruct (String.eqb ws "replace") eqn:E1.
  - apply String.eqb_eq in E1. subst ws.
    change (normalizeReplace (normalizeReplace v) = normalizeReplace v).
    apply bytes_inj. rewrite !bytes_normalizeReplace. apply replaceBytes_idempotent.
  - destruct (String.eqb ws "collapse") eqn:E2.
    + apply String.eqb_eq in E2. subst ws.
      apply bytes_inj. rewrite !bytes_collapse. apply collapseBytes_idempotent.
    + unfold NormalizeWhiteSpace. by rewrite E1, E2.
Qed.

Lemma applyWhiteSpace_again v facets :
  applyWhiteSpace (applyWhiteSpace v facets) facets = applyWhiteSpace v facets.
Proof.
  induction facets as [|f facets IH]; [done|].
  destruct f; cbn [applyWhiteSpace]; try exact IH. apply NormalizeWhiteSpace_again.
Qed.

Section DispatchFacts.
Variable validate : FacetValidator -> string -> error.

Lemma validateAll_spec v facets :
  match validateAll validate v facets with
  | None => Forall (fun f => validate f v = None) facets
  | Some err =>
    exists before f after e,
      facets = before ++ f :: after /\
      Forall (fun g => validate g v = None) before /\
      validate f v = Some e /\
      err = (facetName f ++ " constraint violated: " ++ e)%string
  end.
Proof.
  induction facets as [|f facets IH]; [by constructor|].
  cbn [validateAll]. destruct (validate f v) as [e|] eqn:E.
  - exists [], f, facets, e. by repeat split.
  - destruct (validateAll validate v facets) as [err|].
    + destruct IH as (before & g & after & e & -> & Hb & Hg & ->).
      exists (f :: before), g, after, e. repeat split; try done. by constructor.
    + by constructor.
Qed.

(** X12: [ValidateFacets] validates the normalized value.  Every facet is
    checked against the value normalized by the first [whiteSpace] facet
    of the list (the value itself when there is none): the result is nil
    exactly when every facet accepts that value, and otherwise it is the
    error of the first facet that rejects it, after the name of that
    facet.  Validating a value that is already normalized gives the same
    result as validating the original. *)
Theorem ValidateFacets_checks_normalized_value
        (value : string) (facets : list FacetValidator) :
  (ValidateFacets validate value facets = None
   <-> Forall (fun f => validate f (applyWhiteSpace value facets) = None) facets) /\
  (forall err,
     ValidateFacets validate value facets = Some err ->
     exists before f after e,
       facets = before ++ f :: after /\
       Forall (fun g => validate g (applyWhiteSpace value facets) = None) before /\
       validate f (applyWhiteSpace value facets) = Some e /\
       err = (facetName f ++ " constraint violated: " ++ e)%string) /\
  ValidateFacets validate (applyWhiteSpace value facets) facets
  = ValidateFacets validate value facets /\
  (forall ws rest,
     ValidateFacets validate (NormalizeWhiteSpace value ws) (WhiteSpaceFacet ws :: rest)
     = ValidateFacets validate value (WhiteSpaceFacet ws :: rest)).
Proof.
  unfold ValidateFacets.
  pose proof (validateAll_spec (applyWhiteSpace value facets) facets) as H.
  split; [|split; [|split]].
  - destruct (validateAll _ _ _) as [err|]; [|done].
    split; [done|]. intros Hall.
    destruct H as (before & f & after & e & -> & _ & Hf & _).
    rewrite Forall_app, Forall_cons in Hall. destruct Hall as (_ & Hf' & _).
    by rewrite Hf in Hf'.
  - intros err E. by rewrite E in H.
  - by rewrite applyWhiteSpace_again.
  - intros ws rest. cbn [applyWhiteSpace]. by rewrite NormalizeWhiteSpace_again.
Qed.
End DispatchFacts.

Lemma CombineEnumerations_fold facets : forall acc,
  fold_left (fun values f =>
               match f with
               | EnumerationFacet Values => values ++ Values
               | _ => values
               end) facets acc
  = acc ++ concat (map (fun f => match f with EnumerationFacet vs => vs | _ => [] end)
                       (enumerationFacets facets)).
Proof.
  induction facets as [|f facets IH]; intros acc; cbn [fold_left].
  - by rewrite app_nil_r.
  - rewrite IH. unfold enumerationFacets. cbn [List.filter].
    destruct f; cbn [isEnumeration map concat]; try done. by rewrite app_assoc.
Qed.

Lemma EnumerationValidate_spec vs v : EnumerationValidate vs v = None <-> v ∈ vs.
Proof.
  unfold EnumerationValidate. destruct (existsb (String.eqb v) vs) eqn:E.
  - split; [intros _|done]. apply existsb_exists in E as (x & Hin & Hx).
    apply String.eqb_eq in Hx. subst. by apply list_elem_of_In.
  - split; [done|]. intros Hin%list_elem_of_In.
    assert (existsb (String.eqb v) vs = true) as E'.
    { apply existsb_exists. exists v. split; [done|apply String.eqb_refl]. }
    congruence.
Qed.

(** X13: the enumeration of a parsed restriction.  [CombineEnumerations]
    on the facets that [parseRestriction] builds returns the [value]
    attributes of the [<xs:enumeration>] children, in document order; and a
    value is accepted by an enumeration facet of the restriction exactly
    when it is one of these attribute values. *)
Theorem CombineEnumerations_of_parsed_restriction
        (parseQName : string -> QName) (TargetNamespace : string)
        (restrictionBaseName : nat -> string) (elem : Element) :
  let facets :=
    rFacets (parseRestriction parseQName TargetNamespace restrictionBaseName elem) in
  CombineEnumerations facets = enumerationValues (Children elem) /\
  (forall v,
     (exists vs, EnumerationFacet vs ∈ facets /\ EnumerationValidate vs v = None)
     <-> v ∈ enumerationValues (Children elem)).
Proof.
  intros facets.
  assert (enumerationFacets facets
          = match enumerationValues (Children elem) with
            | [] => []
            | values => [EnumerationFacet values]
            end) as Henum.
  { subst facets. unfold parseRestriction. rewrite loop_enumerations.
    by destruct (negb _); cbn; destruct (enumerationValues _). }
  split.
  - unfold CombineEnumerations. rewrite CombineEnumerations_fold, Henum.
    destruct (enumerationValues (Children elem)); [done|]. cbn. by rewrite app_nil_r.
  - intros v. split.
    + intros (vs & Hin & Hv). apply EnumerationValidate_spec in Hv.
      assert (EnumerationFacet vs ∈ enumerationFacets facets) as Hin'.
      { apply list_elem_of_In, List.filter_In. split; [by apply list_elem_of_In|done]. }
      rewrite Henum in Hin'.
      destruct (enumerationValues (Children elem)) as [|x xs]; [by apply elem_of_nil in Hin'|].
      apply list_elem_of_singleton in Hin'. by injection Hin' as ->.
    + intros Hv. exists (enumerationValues (Children elem)).
      split; [|by apply EnumerationValidate_spec].
      assert (EnumerationFacet (enumerationValues (Children elem))
                ∈ enumerationFacets facets) as Hin'.
      { rewrite Henum. destruct (enumerationValues (Children elem)) as [|x xs];
          [by apply elem_of_nil in Hv|]. apply list_elem_of_singleton. done. }
      apply list_elem_of_In, List.filter_In in Hin' as [Hin' _].
      by apply list_elem_of_In.
Qed.

End FacetFacts.

(** * Values of union and list types *)

Module SimpleTypeValueFacts.
Import GoStrings Fmt Facets Builtin Components Lexical SimpleTypeValues.

Section ValueFacts.
Variable runValidator : ValidatorFn -> string -> error.
Variable validateValueAgainstType : string -> XsdType -> error.
Variable schema : Schema.

(** How [ValidateUnionType] and [ValidateListType] check a value against
    the type of a name: by the definition of the schema if there is one,
    else by the built-in validator registered for the local part of the
    name, whatever its namespace; [None] when there is neither. *)
Definition typeCheck (name : QName) : option (string -> error) :=
  match TypeDefs schema !! name with
  | Some t => Some (fun value => validateValueAgainstType value t)
  | None =>
    match GetBuiltinTypeValidator (Local name) with
    | Some validator => Some (runValidator validator)
    | None => None
    end
  end.

Definition accepts (name : QName) (value : string) : Prop :=
  exists check, typeCheck name = Some check /\ check value = None.

(** Where the [lastError] at the end of the loop comes from: it is the
    initial one when no member could be checked, else the error of a
    member. *)
Definition lastErrorOf (value : string) (members : list QName)
           (initial final : error) : Prop :=
  (final = initial /\ forall m, m ∈ members -> typeCheck m = None)
  \/ (exists m check e, m ∈ members /\ typeCheck m = Some check
                        /\ check value = Some e /\ final = Some e).

Lemma lastErrorOf_rejected value m members check e initial final :
  typeCheck m = Some check -> check value = Some e ->
  lastErrorOf value members (Some e) final ->
  lastErrorOf value (m :: members) initial final.
Proof.
  intros Hc He [[-> _]|(m' & check' & e' & Hin & Hc' & He' & ->)]; right.
  - exists m, check, e. split; [left|done].
  - exists m', check', e'. split; [by right|done].
Qed.

Lemma lastErrorOf_skipped value m members initial final :
  typeCheck m = None ->
  lastErrorOf value members initial final ->
  lastErrorOf value (m :: members) initial final.
Proof.
  intros Hn [[-> Hall]|(m' & check' & e' & Hin & Hc' & He' & ->)].
  - left. split; [done|]. intros m0 [->|Hin]%elem_of_cons; [done|by apply Hall].
  - right. exists m', check', e'. split; [by right|done].
Qed.

Lemma not_accepts_cons value m members :
  ~ accepts m value -> (forall m0, m0 ∈ members -> ~ accepts m0 value) ->
  forall m0, m0 ∈ m :: members -> ~ accepts m0 value.
Proof. intros Hm Hall m0 [->|Hin]%elem_of_cons; [done|by apply Hall]. Qed.

Lemma unionLoop_spec value members : forall lastError,
  match unionLoop runValidator validateValueAgainstType schema value members lastError with
  | None => exists m, m ∈ members /\ accepts m value
  | Some lastError' =>
    (forall m, m ∈ members -> ~ accepts m value) /\
    lastErrorOf value members lastError lastError'
  end.
Proof.
  induction members as [|m members IH]; intros lastError; cbn [unionLoop].
  { split; [|left; split; [done|]]; intros m Hm; by apply elem_of_nil in Hm. }
  assert (forall check e,
            typeCheck m = Some check -> check value = Some e ->
            match unionLoop runValidator validateValueAgainstType schema value members
                            (Some e) with
            | None => exists m0, m0 ∈ m :: members /\ accepts m0 value
            | Some lastError' =>
              (forall m0, m0 ∈ m :: members -> ~ accepts m0 value) /\
              lastErrorOf value (m :: members) lastError lastError'
            end) as Hrej.
  { intros check e Hc He. specialize (IH (Some e)).
    destruct (unionLoop _ _ _ _ _ _) as [last'|].
    - destruct IH as (Hno & Hlast). split.
      + apply not_accepts_cons; [|done]. intros (check' & Hc' & He'). congruence.
      + by eapply lastErrorOf_rejected.
    - destruct IH as (m0 & Hin & Hacc). exists m0. split; [by right|done]. }
  assert (typeCheck m = None ->
          match unionLoop runValidator validateValueAgainstType schema value members
                          lastError with
          | None => exists m0, m0 ∈ m :: members /\ accepts m0 value
          | Some lastError' =>
            (forall m0, m0 ∈ m :: members -> ~ accepts m0 value) /\
            lastErrorOf value (m :: members) lastError lastError'
          end) as Hskip.
  { intros Hn. specialize (IH lastError).
    destruct (unionLoop _ _ _ _ _ _) as [last'|].
    - destruct IH as (Hno & Hlast). split.
      + apply not_accepts_cons; [|done]. intros (check' & Hc' & _). congruence.
      + by apply lastErrorOf_skipped.
    - destruct IH as (m0 & Hin & Hacc). exists m0. split; [by right|done]. }
  assert (forall check, typeCheck m = Some check -> check value = None ->
                        exists m0, m0 ∈ m :: members /\ accepts m0 value) as Hacc.
  { intros check Hc Hv. exists m. split; [left|]. by exists check. }
  unfold typeCheck in Hrej, Hskip, Hacc.
  destruct (TypeDefs schema !! m) as [t|].
  - destruct (validateValueAgainstType value t) as [e|] eqn:Ev.
    + by apply (Hrej (fun v => validateValueAgainstType v t) e).
    + by apply (Hacc (fun v => validateValueAgainstType v t)).
  - destruct (GetBuiltinTypeValidator (Local m)) as [f|].
    + destruct (runValidator f value) as [e|] eqn:Ev.
      * by apply (Hrej (runValidator f) e).
      * by apply (Hacc (runValidator f)).
    + by apply Hskip.
Qed.

(** X14: [ValidateUnionType] accepts a value exactly when one of the
    member types accepts it, where a member is checked by its definition
    in the schema if it has one and else by the built-in validator of its
    local name; a member that is neither defined nor built in is passed
    over.  A nil union or one without members is an error.  When no
    member accepts, the error ends with the error of a member, and has no
    such ending exactly when no member could be checked at all. *)
Theorem ValidateUnionType_accepts_some_member
        (value : string) (union : option (list QName)) :
  (ValidateUnionType runValidator validateValueAgainstType schema value union = None
   <-> exists members m, union = Some members /\ m ∈ members /\ accepts m value) /\
  (union = None \/ union = Some [] ->
   ValidateUnionType runValidator validateValueAgainstType schema value union
   = Some "union type has no member types") /\
  (forall members,
     union = Some members -> members <> [] ->
     (forall m, m ∈ members -> ~ accepts m value) ->
     ((forall m, m ∈ members -> typeCheck m = None) /\
      ValidateUnionType runValidator validateValueAgainstType schema value union
      = Some ("value '" ++ value
              ++ "' is not valid against any member type of the union")%string)
     \/ (exists m check e,
           m ∈ members /\ typeCheck m = Some check /\ check value = Some e /\
           ValidateUnionType runValidator validateValueAgainstType schema value union
           = Some ("value '" ++ value
                   ++ "' is not valid against any member type of the union: "
                   ++ e)%string)).
Proof.
  unfold ValidateUnionType. split; [|split].
  - destruct union as [[|m0 members]|].
    + split; [done|]. intros (ms & m & [= <-] & Hin & _). by apply elem_of_nil in Hin.
    + pose proof (unionLoop_spec value (m0 :: members) None) as H.
      destruct (unionLoop _ _ _ _ _ _) as [[e|]|].
      * split; [done|]. intros (ms & m & [= <-] & Hin & Hacc).
        destruct H as [Hno _]. by destruct (Hno m Hin).
      * split; [done|]. intros (ms & m & [= <-] & Hin & Hacc).
        destruct H as [Hno _]. by destruct (Hno m Hin).
      * split; [|done]. intros _. destruct H as (m & Hin & Hacc).
        by exists (m0 :: members), m.
    + split; [done|]. by intros (ms & m & [=] & _).
  - by intros [->| ->].
  - intros members -> Hne Hno. destruct members as [|m0 members]; [done|].
    pose proof (unionLoop_spec value (m0 :: members) None) as H.
    destruct (unionLoop _ _ _ _ _ _) as [last'|].
    + destruct H as [_ [[-> Hall]|(m & check & e & Hin & Hc & He & ->)]].
      * by left.
      * right. by exists m, check, e.
    + destruct H as (m & Hin & Hacc). by destruct (Hno m Hin).
Qed.

Lemma itemLoop_spec check items : forall i,
  match itemLoop check i items with
  | None => Forall (fun item => check item = None) items
  | Some err =>
    exists before item after e,
      items = before ++ item :: after /\
      Forall (fun item => check item = None) before /\
      check item = Some e /\
      err = ("list item " ++ decimalZ (i + Z.of_nat (List.length before) + 1)
             ++ " ('" ++ item ++ "') is invalid: " ++ e)%string
  end.
Proof.
  induction items as [|item items IH]; intros i; cbn [itemLoop]; [by constructor|].
  destruct (check item) as [e|] eqn:E.
  - exists [], item, items, e. cbn [List.length app]. rewrite Z.add_0_r. done.
  - specialize (IH (i + 1)%Z). destruct (itemLoop check (i + 1) items) as [err|].
    + destruct IH as (before & it & after & e & -> & Hb & He & ->).
      exists (item :: before), it, after, e. split; [done|]. split; [by constructor|].
      split; [done|]. cbn [List.length]. do 3 f_equal. lia.
    + by constructor.
Qed.

Lemma length_zero {A} (l : list A) : (List.length l =? 0)%nat = true <-> l = [].
Proof. by destruct l. Qed.

(** X15: [ValidateListType] accepts a value exactly when the list has an
    item type that can be checked (defined in the schema, or else built
    in by its local name), every item of the value, split at white
    space, is accepted by it, and the value is not white space only.  So
    the empty string is a valid list for every item type that can be
    checked, whatever that type accepts.  A value of white space only is
    rejected before the item type is looked up; otherwise the error
    names the first rejected item by its position, counted from 1. *)
Theorem ValidateListType_checks_every_item
        (value : string) (list : option QName) :
  (ValidateListType runValidator validateValueAgainstType schema value list = None
   <-> exists ItemType check,
         list = Some ItemType /\ ItemType <> mkQName "" "" /\
         typeCheck ItemType = Some check /\
         (Fields value = [] -> value = "") /\
         Forall (fun item => check item = None) (Fields value)) /\
  (forall ItemType,
     list = Some ItemType -> ItemType <> mkQName "" "" ->
     (typeCheck ItemType <> None ->
      ValidateListType runValidator validateValueAgainstType schema "" list = None) /\
     (Fields value = [] -> value <> "" ->
      ValidateListType runValidator validateValueAgainstType schema value list
      = Some "list value contains only whitespace") /\
     (forall check err,
        typeCheck ItemType = Some check ->
        ValidateListType runValidator validateValueAgainstType schema value list
        = Some err ->
        err <> "list value contains only whitespace" ->
        exists before item after e,
          Fields value = before ++ item :: after /\
          Forall (fun item => check item = None) before /\
          check item = Some e /\
          err = ("list item " ++ decimalZ (Z.of_nat (List.length before) + 1)
                 ++ " ('" ++ item ++ "') is invalid: " ++ e)%string)).
Proof.
  assert (forall v ItemType,
            ItemType <> mkQName "" "" ->
            ValidateListType runValidator validateValueAgainstType schema v (Some ItemType)
            = if (List.length (Fields v) =? 0)%nat && negb (String.eqb v "")
              then Some "list value contains only whitespace"
              else match typeCheck ItemType with
                   | Some check => itemLoop check 0 (Fields v)
                   | None => Some ("unknown item type: " ++ QNameString ItemType)%string
                   end) as Hshape.
  { intros v ItemType Hne. unfold ValidateListType, typeCheck.
    rewrite bool_decide_false by done.
    destruct (_ && _); [done|].
    destruct (TypeDefs schema !! ItemType); [done|].
    by destruct (GetBuiltinTypeValidator (Local ItemType)). }
  split.
  - destruct list as [ItemType|]; [|split; [done|by intros (? & ? & [=] & _)]].
    destruct (decide (ItemType = mkQName "" "")) as [->|Hne].
    { unfold ValidateListType. rewrite bool_decide_true by done.
      split; [done|]. by intros (? & ? & [= <-] & ? & _). }
    rewrite (Hshape value ItemType Hne).
    destruct (List.length (Fields value) =? 0)%nat eqn:E0;
      destruct (String.eqb_spec value "") as [Hv|Hv]; cbn [negb andb].
    + destruct (typeCheck ItemType) as [check|] eqn:Ec.
      * apply length_zero in E0. rewrite E0. cbn [itemLoop]. split; [|done].
        intros _. exists ItemType, check. by repeat split.
      * split; [done|]. intros (I & c & [= <-] & _ & Hc' & _). congruence.
    + split; [done|]. intros (? & ? & _ & _ & _ & Hf & _).
      apply length_zero in E0. by specialize (Hf E0).
    + destruct (typeCheck ItemType) as [check|] eqn:Ec.
      * pose proof (itemLoop_spec check (Fields value) 0) as H.
        destruct (itemLoop check 0 (Fields value)) as [err|].
        -- split; [done|]. intros (I & c & [= <-] & _ & Hc' & _ & Hall).
           rewrite Ec in Hc'. injection Hc' as <-.
           destruct H as (before & item & after & e & Hf & _ & He & _).
           rewrite Hf, Forall_app, Forall_cons in Hall.
           destruct Hall as (_ & He' & _). congruence.
        -- split; [|done]. intros _. exists ItemType, check.
           split; [done|]. split; [done|]. split; [done|]. split; [|done].
           intros Hnil. rewrite Hnil in E0. done.
      * split; [done|]. intros (I & c & [= <-] & _ & Hc' & _). congruence.
    + destruct (typeCheck ItemType) as [check|] eqn:Ec.
      * pose proof (itemLoop_spec check (Fields value) 0) as H.
        destruct (itemLoop check 0 (Fields value)) as [err|].
        -- split; [done|]. intros (I & c & [= <-] & _ & Hc' & _ & Hall).
           rewrite Ec in Hc'. injection Hc' as <-.
           destruct H as (before & item & after & e & Hf & _ & He & _).
           rewrite Hf, Forall_app, Forall_cons in Hall.
           destruct Hall as (_ & He' & _). congruence.
        -- split; [|done]. intros _. exists ItemType, check.
           split; [done|]. split; [done|]. split; [done|]. split; [|done].
           intros Hnil. rewrite Hnil in E0. done.
      * split; [done|]. intros (I & c & [= <-] & _ & Hc' & _). congruence.
  - intros ItemType -> Hne. split; [|split].
    + intros Hc. rewrite (Hshape "" ItemType Hne).
      change (Fields "") with (@nil string). cbn.
      by destruct (typeCheck ItemType).
    + intros Hnil Hv. rewrite (Hshape value ItemType Hne), Hnil. cbn.
      by destruct (String.eqb_spec value "").
    + intros check err Hc. rewrite (Hshape value ItemType Hne), Hc.
      destruct (_ && _); [by intros [= <-]|].
      pose proof (itemLoop_spec check (Fields value) 0) as H.
      destruct (itemLoop check 0 (Fields value)) as [err'|]; [|done].
      intros [= <-] _. exact H.
Qed.

End ValueFacts.
End SimpleTypeValueFacts.
